(** * pLSA by sparse expectation-maximisation (enstop/plsa.py)

    A shallow embedding of the numeric kernels of [enstop/plsa.py] and of
    the engines built on them, with the properties of the design document
    proved (or refuted) about the embedding.

    Numbers.  The kernels compute with IEEE doubles.  The embedding computes
    with exact rationals ([Qc], canonical fractions with Leibniz equality),
    so a statement such as "the row sums to 1" is the exact counterpart of
    the "within floating-point tolerance" statement of the document.

    Arrays.  The kernels receive numpy arrays by reference and update them
    in place.  The embedding keeps the five arrays of a fit in a store
    ([arrays]) and writes each kernel as a computation over that store
    ([Kern]); a failed computation keeps the store it had reached. *)

From stdpp Require Import base numbers list strings.
From Stdlib Require Import QArith Qcanon Qcabs ZArith.

Local Open Scope Qc_scope.

(** ** Failures *)

(** The failures the code can end in.  [OutOfBounds] stands for an index
    outside an array: the compiled kernels do not check bounds, so such an
    access has no defined result. *)
Inductive exn : Type :=
  | ValueError (msg : string)
  | ZeroDivisionError
  | OutOfBounds
  | AttributeError (attr : string)
  | TypeError (msg : string).

Inductive outcome (A : Type) : Type :=
  | Ok (a : A)
  | Raise (e : exn).
Arguments Ok {A} a.
Arguments Raise {A} e.

(** ** Arrays *)

(** A two-dimensional array: its second dimension and its rows.  The first
    dimension is the number of rows. *)
Record matrix : Type := Matrix { ncols : nat; rowsOf : list (list Qc) }.

Definition shape0 (a : matrix) : nat := length (rowsOf a).
Definition shape1 (a : matrix) : nat := ncols a.

(** [a] is an [n] by [m] array. *)
Definition has_shape (a : matrix) (n m : nat) : Prop :=
  ncols a = m ∧ length (rowsOf a) = n ∧ Forall (λ r, length r = m) (rowsOf a).

(** [np.zeros((n, m))] and [np.zeros(n)]. *)
Definition zeros2 (n m : nat) : matrix := Matrix m (replicate n (replicate m 0)).
Definition zeros1 (n : nat) : list Qc := replicate n 0.

(** [a[i, j]] *)
Definition mget (a : matrix) (i j : nat) : option Qc :=
  match rowsOf a !! i with
  | Some r => r !! j
  | None => None
  end.

(** [a[i, j] = v] *)
Definition mset (a : matrix) (i j : nat) (v : Qc) : option matrix :=
  match rowsOf a !! i with
  | Some r =>
      if decide (j < length r)%nat
      then Some (Matrix (ncols a) (<[i := <[j := v]> r]> (rowsOf a)))
      else None
  | None => None
  end.

(** [a[:] = v] *)
Definition mfill (a : matrix) (v : Qc) : matrix :=
  Matrix (ncols a) (map (map (λ _, v)) (rowsOf a)).
Definition vfill (a : list Qc) (v : Qc) : list Qc := map (λ _, v) a.

(** [b[i] = v] *)
Definition vset (b : list Qc) (i : nat) (v : Qc) : option (list Qc) :=
  if decide (i < length b)%nat then Some (<[i := v]> b) else None.

(** The sum of a vector, and the sum of row [i] of an array. *)
Definition vsum (l : list Qc) : Qc := foldr Qcplus 0 l.
Definition row (a : matrix) (i : nat) : list Qc := default [] (rowsOf a !! i).

(** ** The store and the computations over it *)

(** The arrays of one fit, under the names the kernels give them.  The
    three arrays of the sparse matrix ([X_rows], [X_cols], [X_vals]) are
    only read and are passed as plain arguments. *)
Record arrays : Type := Arrays {
  p_w_given_z : matrix;    (* P(w|z): topics by words *)
  p_z_given_d : matrix;    (* P(z|d): documents by topics *)
  p_z_given_wd : matrix;   (* P(z|w,d): nonzero entries by topics *)
  norm_pwz : list Qc;      (* one accumulator per topic *)
  norm_pdz : list Qc       (* one accumulator per document *)
}.

Inductive arr2 : Type := PWZ | PZD | PZWD.
Inductive arr1 : Type := NPWZ | NPDZ.

Definition rd2 (r : arr2) (σ : arrays) : matrix :=
  match r with
  | PWZ => p_w_given_z σ
  | PZD => p_z_given_d σ
  | PZWD => p_z_given_wd σ
  end.

Definition wr2 (r : arr2) (a : matrix) (σ : arrays) : arrays :=
  match r with
  | PWZ => Arrays a (p_z_given_d σ) (p_z_given_wd σ) (norm_pwz σ) (norm_pdz σ)
  | PZD => Arrays (p_w_given_z σ) a (p_z_given_wd σ) (norm_pwz σ) (norm_pdz σ)
  | PZWD => Arrays (p_w_given_z σ) (p_z_given_d σ) a (norm_pwz σ) (norm_pdz σ)
  end.

Definition rd1 (r : arr1) (σ : arrays) : list Qc :=
  match r with
  | NPWZ => norm_pwz σ
  | NPDZ => norm_pdz σ
  end.

Definition wr1 (r : arr1) (b : list Qc) (σ : arrays) : arrays :=
  match r with
  | NPWZ => Arrays (p_w_given_z σ) (p_z_given_d σ) (p_z_given_wd σ) b (norm_pdz σ)
  | NPDZ => Arrays (p_w_given_z σ) (p_z_given_d σ) (p_z_given_wd σ) (norm_pwz σ) b
  end.

(** A computation over a state [Σ]: it ends with a value or a failure, and
    with the state as it is at that point. *)
Definition Comp (Σ A : Type) : Type := Σ → outcome A * Σ.

Definition kret {Σ A} (a : A) : Comp Σ A := λ σ, (Ok a, σ).
Definition kraise {Σ A} (e : exn) : Comp Σ A := λ σ, (Raise e, σ).
Definition kbind {Σ A B} (c : Comp Σ A) (f : A → Comp Σ B) : Comp Σ B :=
  λ σ, match c σ with
       | (Ok a, σ') => f a σ'
       | (Raise e, σ') => (Raise e, σ')
       end.

Notation "x <- c ;; k" := (kbind c (λ x, k))
  (at level 100, c at next level, right associativity,
   format "'[v' x  <-  c  ;;  '/' k ']'").
Notation "c ;;; k" := (kbind c (λ _, k))
  (at level 100, k at level 200, right associativity,
   format "'[v' c  ;;;  '/' k ']'").

(** The kernels compute over the store of arrays. *)
Abbreviation Kern := (Comp arrays).

(** Reading an optional value: [None] is an access out of range. *)
Definition kopt {Σ A} (o : option A) : Comp Σ A :=
  match o with
  | Some a => kret a
  | None => kraise OutOfBounds
  end.

(** [X[i]] for an array that is only read. *)
Definition index {Σ A} (X : list A) (i : nat) : Comp Σ A := kopt (X !! i).

(** [r.shape[0]], [r.shape[1]] *)
Definition shape0_of (r : arr2) : Kern nat := λ σ, (Ok (shape0 (rd2 r σ)), σ).
Definition shape1_of (r : arr2) : Kern nat := λ σ, (Ok (shape1 (rd2 r σ)), σ).

(** [r[i, j]] and [r[i, j] = v] *)
Definition load2 (r : arr2) (i j : nat) : Kern Qc :=
  λ σ, kopt (mget (rd2 r σ) i j) σ.
Definition store2 (r : arr2) (i j : nat) (v : Qc) : Kern unit :=
  λ σ, match mset (rd2 r σ) i j v with
       | Some a => (Ok tt, wr2 r a σ)
       | None => (Raise OutOfBounds, σ)
       end.

(** [r[i]] and [r[i] = v] *)
Definition load1 (r : arr1) (i : nat) : Kern Qc :=
  λ σ, kopt (rd1 r σ !! i) σ.
Definition store1 (r : arr1) (i : nat) (v : Qc) : Kern unit :=
  λ σ, match vset (rd1 r σ) i v with
       | Some b => (Ok tt, wr1 r b σ)
       | None => (Raise OutOfBounds, σ)
       end.

(** [r[:] = v] *)
Definition fill2 (r : arr2) (v : Qc) : Kern unit :=
  λ σ, (Ok tt, wr2 r (mfill (rd2 r σ) v) σ).
Definition fill1 (r : arr1) (v : Qc) : Kern unit :=
  λ σ, (Ok tt, wr1 r (vfill (rd1 r σ) v) σ).

(** Scalar division: the compiled kernels raise on a zero divisor. *)
Definition fdiv {Σ} (a b : Qc) : Comp Σ Qc :=
  if decide (b = 0) then kraise ZeroDivisionError else kret (a / b).

(** [r[i, j] += s], [r[i] += s] *)
Definition iadd2 (r : arr2) (i j : nat) (s : Qc) : Kern unit :=
  a <- load2 r i j ;; store2 r i j (a + s).
Definition iadd1 (r : arr1) (i : nat) (s : Qc) : Kern unit :=
  a <- load1 r i ;; store1 r i (a + s).

(** [r[i, j] /= b[l]] *)
Definition idiv2 (r : arr2) (i j : nat) (b : arr1) (l : nat) : Kern unit :=
  a <- load2 r i j ;;
  c <- load1 b l ;;
  q <- fdiv a c ;;
  store2 r i j q.

(** [for i in l: acc = body(i, acc)], and [for i in range(n)]. *)
Fixpoint for_in {Σ S} (l : list nat) (body : nat → S → Comp Σ S) (s : S)
    : Comp Σ S :=
  match l with
  | [] => kret s
  | i :: l' => s' <- body i s ;; for_in l' body s'
  end.

Definition for_acc {Σ S} (n : nat) (body : nat → S → Comp Σ S) (s : S)
    : Comp Σ S :=
  for_in (seq 0 n) body s.

Definition for_range {Σ} (n : nat) (body : nat → Comp Σ unit) : Comp Σ unit :=
  for_acc n (λ i _, body i) tt.

(** Reading a value off the store. *)
Definition kget {Σ A} (f : Σ → A) : Comp Σ A := λ σ, (Ok (f σ), σ).

(** [for i in l: ...] with [break]: the body says whether the loop goes
    on, and the loop says how it was left. *)
Inductive flow : Type := Continue | Break.
Inductive loop_exit : Type := Exhausted | BrokeAt (i : nat).

Fixpoint for_in_break {Σ S} (l : list nat) (body : nat → S → Comp Σ (flow * S))
    (s : S) : Comp Σ (loop_exit * S) :=
  match l with
  | [] => kret (Exhausted, s)
  | i :: l' =>
      r <- body i s ;;
      match r with
      | (Break, s') => kret (BrokeAt i, s')
      | (Continue, s') => for_in_break l' body s'
      end
  end.

Definition for_break {Σ S} (n : nat) (body : nat → S → Comp Σ (flow * S)) (s : S)
    : Comp Σ (loop_exit * S) :=
  for_in_break (seq 0 n) body s.

(** ** The kernels *)

Section Kernels.

(** The nonzero entries of the data matrix, in coordinate form. *)
Variables (X_rows X_cols : list nat) (X_vals : list Qc).

(** [np.log], a collaborator of the kernels: the rationals have no
    logarithm, and no property below depends on its values. *)
Variable ln : Qc → Qc.

(** [plsa_e_step] *)
Definition plsa_e_step (probability_threshold : Qc) : Kern unit :=
  k <- shape0_of PWZ ;;
  for_range (length X_vals) (λ nz_idx,
    d <- index X_rows nz_idx ;;
    w <- index X_cols nz_idx ;;
    norm <- for_acc k (λ z norm,
      a <- load2 PWZ z w ;;
      b <- load2 PZD d z ;;
      let v := a * b in
      if decide (probability_threshold < v) then
        store2 PZWD nz_idx z v ;;;
        c <- load2 PZWD nz_idx z ;;
        kret (norm + c)
      else
        store2 PZWD nz_idx z 0 ;;;
        kret norm) 0 ;;
    for_range k (λ z,
      if decide (0 < norm) then
        c <- load2 PZWD nz_idx z ;;
        q <- fdiv c norm ;;
        store2 PZWD nz_idx z q
      else kret tt)).

(** [plsa_m_step] *)
Definition plsa_m_step : Kern unit :=
  k <- shape1_of PZWD ;;
  n <- shape0_of PZD ;;
  m <- shape1_of PWZ ;;
  fill2 PWZ 0 ;;;
  fill2 PZD 0 ;;;
  fill1 NPWZ 0 ;;;
  fill1 NPDZ 0 ;;;
  for_range (length X_vals) (λ nz_idx,
    d <- index X_rows nz_idx ;;
    w <- index X_cols nz_idx ;;
    x <- index X_vals nz_idx ;;
    for_range k (λ z,
      p <- load2 PZWD nz_idx z ;;
      let s := x * p in
      iadd2 PWZ z w s ;;;
      iadd2 PZD d z s ;;;
      iadd1 NPWZ z s ;;;
      iadd1 NPDZ d s)) ;;;
  for_range k (λ z,
    for_range m (λ w,
      c <- load1 NPWZ z ;;
      if decide (0 < c) then idiv2 PWZ z w NPWZ z else kret tt) ;;;
    for_range n (λ d,
      c <- load1 NPDZ d ;;
      if decide (0 < c) then idiv2 PZD d z NPDZ d else kret tt)).

(** [plsa_refit_m_step] *)
Definition plsa_refit_m_step : Kern unit :=
  k <- shape1_of PZWD ;;
  n <- shape0_of PZD ;;
  fill2 PZD 0 ;;;
  fill1 NPDZ 0 ;;;
  for_range (length X_vals) (λ nz_idx,
    d <- index X_rows nz_idx ;;
    w <- index X_cols nz_idx ;;
    x <- index X_vals nz_idx ;;
    for_range k (λ z,
      p <- load2 PZWD nz_idx z ;;
      let s := x * p in
      iadd2 PZD d z s ;;;
      iadd1 NPDZ d s)) ;;;
  for_range k (λ z,
    for_range n (λ d,
      c <- load1 NPDZ d ;;
      if decide (0 < c) then idiv2 PZD d z NPDZ d else kret tt)).

(** [log_likelihood] *)
Definition log_likelihood : Kern Qc :=
  k <- shape0_of PWZ ;;
  for_acc (length X_vals) (λ nz_idx result,
    d <- index X_rows nz_idx ;;
    w <- index X_cols nz_idx ;;
    x <- index X_vals nz_idx ;;
    p_w_given_d <- for_acc k (λ z p,
      a <- load2 PWZ z w ;;
      b <- load2 PZD d z ;;
      kret (p + a * b)) 0 ;;
    kret (result + x * ln p_w_given_d)) 0.

(** *** The engines *)

(** [i % n] on integers: the sign of the result follows the divisor, and
    a zero divisor raises. *)
Definition pymod {Σ} (i n : Z) : Comp Σ Z :=
  if decide (n = 0%Z) then kraise ZeroDivisionError else kret (i mod n)%Z.

(** One pass of the body of the loop of [plsa_fit_inner] (lines 456-484):
    the loop-carried variable is [previous_log_likelihood]. *)
Definition fit_iteration (n_iter_per_test : Z) (tolerance e_step_thresh : Qc)
    (i : nat) (previous_log_likelihood : Qc) : Kern (flow * Qc) :=
  plsa_e_step e_step_thresh ;;;
  plsa_m_step ;;;
  r <- pymod (Z.of_nat i) n_iter_per_test ;;
  if decide (r = 0%Z) then
    current_log_likelihood <- log_likelihood ;;
    let change := Qcabs (current_log_likelihood - previous_log_likelihood) in
    q <- fdiv change (Qcabs current_log_likelihood) ;;
    if decide (q < tolerance) then kret (Break, previous_log_likelihood)
    else kret (Continue, current_log_likelihood)
  else kret (Continue, previous_log_likelihood).

(** The loop of [plsa_fit_inner], with how it was left. *)
Definition fit_loop (n_iter n_iter_per_test : Z) (tolerance e_step_thresh : Qc)
    (previous_log_likelihood : Qc) : Kern (loop_exit * Qc) :=
  for_break (Z.to_nat n_iter)
    (fit_iteration n_iter_per_test tolerance e_step_thresh)
    previous_log_likelihood.

(** The store [plsa_fit_inner] starts from: the two arrays it is given
    and the three it allocates. *)
Definition fit_store (pwz pzd : matrix) : arrays :=
  let k := shape1 pzd in
  let n := shape0 pzd in
  Arrays pwz pzd (zeros2 (length X_vals) k) (zeros1 k) (zeros1 n).

(** [plsa_fit_inner]: the result is the pair [(p_z_given_d, p_w_given_z)]. *)
Definition plsa_fit_inner (pwz pzd : matrix) (n_iter n_iter_per_test : Z)
    (tolerance e_step_thresh : Qc) : outcome (matrix * matrix) * arrays :=
  (previous_log_likelihood <- log_likelihood ;;
   fit_loop n_iter n_iter_per_test tolerance e_step_thresh
     previous_log_likelihood ;;;
   kget (λ σ, (p_z_given_d σ, p_w_given_z σ))) (fit_store pwz pzd).

(** One pass of the body of the loop of [plsa_refit] (lines 717-733). *)
Definition refit_iteration (n_iter_per_test : Z) (tolerance e_step_thresh : Qc)
    (i : nat) (previous_log_likelihood : Qc) : Kern (flow * Qc) :=
  plsa_e_step e_step_thresh ;;;
  plsa_refit_m_step ;;;
  r <- pymod (Z.of_nat i) n_iter_per_test ;;
  if decide (r = 0%Z) then
    current_log_likelihood <- log_likelihood ;;
    if decide (0 < current_log_likelihood) then
      let change := Qcabs (current_log_likelihood - previous_log_likelihood) in
      q <- fdiv change (Qcabs current_log_likelihood) ;;
      if decide (q < tolerance) then kret (Break, previous_log_likelihood)
      else kret (Continue, current_log_likelihood)
    else kret (Continue, previous_log_likelihood)
  else kret (Continue, previous_log_likelihood).

Definition refit_loop (n_iter n_iter_per_test : Z) (tolerance e_step_thresh : Qc)
    (previous_log_likelihood : Qc) : Kern (loop_exit * Qc) :=
  for_break (Z.to_nat n_iter)
    (refit_iteration n_iter_per_test tolerance e_step_thresh)
    previous_log_likelihood.

(** [normalize(a, axis=1)] of [enstop.utils], which is not part of the
    sources at hand: it rewrites the array it is given in place. *)
Variable normalize : matrix → matrix.

Definition normalize_in_place (r : arr2) : Kern unit :=
  λ σ, (Ok tt, wr2 r (normalize (rd2 r σ)) σ).

(** The store [plsa_refit] starts from.  [topics] is bound to the
    parameter [p_w_given_z] of the kernels; [draw] is the array
    [np.random.random((n_documents, k))] returned; no per-topic
    accumulator is allocated. *)
Definition refit_store (topics draw : matrix) (n_documents : nat) : arrays :=
  let k := shape0 topics in
  Arrays topics draw (zeros2 (length X_vals) k) [] (zeros1 n_documents).

(** The body of [plsa_refit], from the call of [normalize] on. *)
Definition refit_body (n_iter n_iter_per_test : Z) (tolerance e_step_thresh : Qc)
    : Kern matrix :=
  normalize_in_place PZD ;;;
  previous_log_likelihood <- log_likelihood ;;
  refit_loop n_iter n_iter_per_test tolerance e_step_thresh
    previous_log_likelihood ;;;
  kget p_z_given_d.

(** [plsa_refit] *)
Definition plsa_refit (topics draw : matrix) (n_documents : nat)
    (n_iter n_iter_per_test : Z) (tolerance e_step_thresh : Qc)
    : outcome matrix * arrays :=
  refit_body n_iter n_iter_per_test tolerance e_step_thresh
    (refit_store topics draw n_documents).

End Kernels.


(** ** The initializer *)

(** A sparse matrix in coordinate form: shape, and the row, the column and
    the value of each stored entry. *)
Record sparse : Type := Sparse {
  sp_shape : nat * nat;
  sp_row : list nat;
  sp_col : list nat;
  sp_data : list Qc
}.

(** The [init] argument of [plsa_init]: a string, a tuple or a list of
    arrays, or any other value. *)
Inductive init_arg : Type :=
  | InitStr (s : string)
  | InitTuple (l : list matrix)
  | InitList (l : list matrix)
  | InitOther.

(** What the initializer records as it runs: every array it allocates for
    the model, with its shape. *)
Inductive event : Type := Allocated (n m : nat).
Abbreviation Init := (Comp (list event)).

Definition allocated (n m : nat) : Init unit := λ log, (Ok tt, log ++ [Allocated n m]).

(** [a[:, j]], [a[i, :]], and the two assignments; the index must be
    within the dimension, and the vector assigned must have its length. *)
Definition mcol (a : matrix) (j : nat) : option (list Qc) :=
  if decide (j < ncols a)%nat then Some (map (λ r, default 0 (r !! j)) (rowsOf a))
  else None.
Definition mrow (a : matrix) (i : nat) : option (list Qc) := rowsOf a !! i.
Definition mset_col (a : matrix) (j : nat) (v : list Qc) : option matrix :=
  if decide (j < ncols a ∧ length v = shape0 a)%nat
  then Some (Matrix (ncols a) (zip_with (λ r x, <[j := x]> r) (rowsOf a) v))
  else None.
Definition mset_row (a : matrix) (i : nat) (v : list Qc) : option matrix :=
  if decide (i < shape0 a ∧ length v = ncols a)%nat
  then Some (Matrix (ncols a) (<[i := v]> (rowsOf a)))
  else None.

(** [np.maximum(x, 0)], [np.minimum(x, 0)], [np.abs(x)], [c * x] and [x / c]
    on vectors.  numpy divides by a zero scalar without raising (the
    entries are then not numbers); [Qc] gives 0 there. *)
Definition fmax (a b : Qc) : Qc := if decide (a < b) then b else a.
Definition fmin (a b : Qc) : Qc := if decide (b < a) then b else a.
Definition vmaximum (x : list Qc) (c : Qc) : list Qc := map (λ a, fmax a c) x.
Definition vminimum (x : list Qc) (c : Qc) : list Qc := map (λ a, fmin a c) x.
Definition vabs (x : list Qc) : list Qc := map Qcabs x.
Definition vscale (c : Qc) (x : list Qc) : list Qc := map (λ a, c * a) x.
Definition vdiv (x : list Qc) (c : Qc) : list Qc := map (λ a, a / c) x.

Section Initializer.

(** Collaborators: [np.sqrt]; [normalize] of [enstop.utils];
    [randomized_svd] and [non_negative_factorization] of scikit-learn;
    [np.random.random], given the position of the call in the stream of
    draws and the shape asked for. *)
Variable sqrt : Qc → Qc.
Variable normalize : matrix → matrix.
Variable randomized_svd : sparse → nat → matrix * list Qc * matrix.
Variable non_negative_factorization : sparse → nat → matrix * matrix.
Variable np_random_random : nat → nat → nat → matrix.

(** [norm] *)
Definition norm (x : list Qc) : Qc :=
  sqrt (foldl (λ result xi, result + xi * xi) 0 x).

(** The quantities of one pass of the loop of the "nndsvd" branch
    (lines 329-351), from the two singular vectors. *)
Record nndsvd_parts : Type := Parts {
  x_p : list Qc; y_p : list Qc; x_n : list Qc; y_n : list Qc;
  x_p_nrm : Qc; y_p_nrm : Qc; x_n_nrm : Qc; y_n_nrm : Qc;
  m_p : Qc; m_n : Qc
}.

Definition nndsvd_split (x y : list Qc) : nndsvd_parts :=
  let x_p := vmaximum x 0 in
  let y_p := vmaximum y 0 in
  let x_n := vabs (vminimum x 0) in
  let y_n := vabs (vminimum y 0) in
  let x_p_nrm := norm x_p in
  let y_p_nrm := norm y_p in
  let x_n_nrm := norm x_n in
  let y_n_nrm := norm y_n in
  Parts x_p y_p x_n y_n x_p_nrm y_p_nrm x_n_nrm y_n_nrm
    (x_p_nrm * y_p_nrm) (x_n_nrm * y_n_nrm).

(** The body of the loop over [j] in [range(1, k)]; the loop carries the
    two arrays being filled. *)
Definition nndsvd_component (U V : matrix) (Sv : list Qc) (j : nat)
    (acc : matrix * matrix) : Init (matrix * matrix) :=
  let (pzd, pwz) := acc in
  x <- kopt (mcol U j) ;;
  y <- kopt (mrow V j) ;;
  let q := nndsvd_split x y in
  let '(u, v, sigma) :=
    if decide (m_n q < m_p q)
    then (vdiv (x_p q) (x_p_nrm q), vdiv (y_p q) (y_p_nrm q), m_p q)
    else (vdiv (x_n q) (x_n_nrm q), vdiv (y_n q) (y_n_nrm q), m_n q) in
  s_j <- index Sv j ;;
  let lbd := sqrt (s_j * sigma) in
  pzd' <- kopt (mset_col pzd j (vscale lbd u)) ;;
  pwz' <- kopt (mset_row pwz j (vscale lbd v)) ;;
  kret (pzd', pwz').

(** The "nndsvd" branch (lines 320-353); [Sv] is the vector [S] of
    singular values. *)
Definition nndsvd_init (X : sparse) (k : nat) : Init (matrix * matrix) :=
  let '(U, Sv, V) := randomized_svd X k in
  allocated (shape0 U) (shape1 U) ;;;
  allocated (shape0 V) (shape1 V) ;;;
  let pzd := zeros2 (shape0 U) (shape1 U) in
  let pwz := zeros2 (shape0 V) (shape1 V) in
  s_0 <- index Sv 0 ;;
  u_0 <- kopt (mcol U 0) ;;
  pzd <- kopt (mset_col pzd 0 (vscale (sqrt s_0) (vabs u_0))) ;;
  s_0 <- index Sv 0 ;;
  v_0 <- kopt (mrow V 0) ;;
  pwz <- kopt (mset_row pwz 0 (vscale (sqrt s_0) (vabs v_0))) ;;
  for_in (seq 1 (k - 1)) (nndsvd_component U V Sv) (pzd, pwz).

(** [p_z_given_d, p_w_given_z = init]: unpacking anything but two values
    is a [ValueError]. *)
Definition unpack_pair (l : list matrix) : Init (matrix * matrix) :=
  match l with
  | [a; b] => kret (a, b)
  | _ => kraise (ValueError "wrong number of values to unpack")
  end.

(** The chain of tests on [init] (lines 314-368): the pair
    [(p_z_given_d, p_w_given_z)] before normalisation. *)
Definition init_dispatch (X : sparse) (k : nat) (init : init_arg)
    : Init (matrix * matrix) :=
  let n := (sp_shape X).1 in
  let m := (sp_shape X).2 in
  let unrecognized := kraise (ValueError "Unrecognized init") in
  match init with
  | InitStr s =>
      if decide (s = "random") then
        allocated k m ;;;
        allocated n k ;;;
        kret (np_random_random 1 n k, np_random_random 0 k m)
      else if decide (s = "nndsvd") then nndsvd_init X k
      else if decide (s = "nmf") then
        let (W, H) := non_negative_factorization X k in
        allocated (shape0 W) (shape1 W) ;;;
        allocated (shape0 H) (shape1 H) ;;;
        kret (W, H)
      else unrecognized
  | InitTuple l => unpack_pair l
  | InitList l => unpack_pair l
  | InitOther => unrecognized
  end.

(** [plsa_init] *)
Definition plsa_init (X : sparse) (k : nat) (init : init_arg)
    : Init (matrix * matrix) :=
  r <- init_dispatch X k init ;;
  let (pzd, pwz) := r in
  kret (normalize pzd, normalize pwz).

End Initializer.

(** ** The entry points *)

(** Computations that only end with a value or a failure. *)
Definition obind {A B} (o : outcome A) (f : A → outcome B) : outcome B :=
  match o with
  | Ok a => f a
  | Raise e => Raise e
  end.
Notation "x <~ c ;; k" := (obind c (λ x, k))
  (at level 100, c at next level, right associativity,
   format "'[v' x  <~  c  ;;  '/' k ']'").

(** The values that reach a call of [plsa_refit]. *)
Inductive pyval : Type :=
  | PyIntArray (l : list nat)
  | PyFloatArray (l : list Qc)
  | PyMatrix (a : matrix)
  | PyInt (z : Z)
  | PyFloat (q : Qc).

(** The attributes of a coordinate sparse matrix that hold its entries:
    [row], [col] and [data].  Any other name read off it for an array of
    entries is an [AttributeError]. *)
Definition coo_getattr (X : sparse) (name : string) : outcome pyval :=
  if decide (name = "row") then Ok (PyIntArray (sp_row X))
  else if decide (name = "col") then Ok (PyIntArray (sp_col X))
  else if decide (name = "data") then Ok (PyFloatArray (sp_data X))
  else Raise (AttributeError name).

(** The parameters of [plsa_refit], in order (lines 637-647). *)
Definition plsa_refit_params : list string :=
  ["X_rows"; "X_cols"; "X_vals"; "topics"; "n_documents"; "n_iter";
   "n_iter_per_test"; "tolerance"; "e_step_thresh"].

(** Binding the arguments of a call to the parameters of the callee:
    positional arguments in order, then keyword arguments by name. *)
Definition bind_positional {A} (params : list string) (args : list A)
    : outcome (list (string * A)) :=
  if decide (length args ≤ length params)%nat then Ok (zip params args)
  else Raise (TypeError "too many positional arguments").

Fixpoint bind_keywords {A} (params : list string) (bound kwargs : list (string * A))
    : outcome (list (string * A)) :=
  match kwargs with
  | [] => Ok bound
  | (name, v) :: rest =>
      if decide (name ∈ params) then
        if decide (name ∈ bound.*1)
        then Raise (TypeError "multiple values for argument")
        else bind_keywords params (bound ++ [(name, v)]) rest
      else Raise (TypeError "unexpected keyword argument")
  end.

Definition bind_call {A} (params : list string) (args : list A)
    (kwargs : list (string * A)) : outcome (list (string * A)) :=
  bound <~ bind_positional params args ;;
  bind_keywords params bound kwargs.

(** The value bound to a parameter, or its default, or a [TypeError] when
    it has neither. *)
Definition argument (bound : list (string * pyval)) (name : string)
    (dflt : option pyval) : outcome pyval :=
  match list_find (λ b, b.1 = name) bound, dflt with
  | Some (_, (_, v)), _ => Ok v
  | None, Some v => Ok v
  | None, None => Raise (TypeError "missing a required argument")
  end.

(** The types the compiled [plsa_refit] accepts. *)
Definition as_int_array (v : pyval) : outcome (list nat) :=
  match v with PyIntArray l => Ok l | _ => Raise (TypeError "int array expected") end.
Definition as_float_array (v : pyval) : outcome (list Qc) :=
  match v with PyFloatArray l => Ok l | _ => Raise (TypeError "float array expected") end.
Definition as_matrix (v : pyval) : outcome matrix :=
  match v with PyMatrix a => Ok a | _ => Raise (TypeError "2d array expected") end.
Definition as_int (v : pyval) : outcome Z :=
  match v with PyInt z => Ok z | _ => Raise (TypeError "int expected") end.
Definition as_float (v : pyval) : outcome Qc :=
  match v with PyFloat q => Ok q | _ => Raise (TypeError "float expected") end.

(** The input of [transform] once validated: a dense or a sparse matrix. *)
Inductive py_input : Type :=
  | DenseInput (a : matrix)
  | SparseInput (X : sparse).

(** The positional arguments of the call of [plsa_refit] in
    [PLSA.transform] (lines 792-798), as written. *)
Inductive arg_expr : Type :=
  | AttributeOfX (name : string)   (* X.name *)
  | Name_n                         (* n *)
  | Name_m                         (* m *)
  | Components.                    (* self.components_ *)

Definition transform_args : list arg_expr :=
  [AttributeOfX "row"; AttributeOfX "col"; AttributeOfX "vals";
   Name_n; Name_m; Components].

Definition transform_kwargs : list (string * pyval) :=
  [("n_iter", PyInt 50); ("n_iter_per_test", PyInt 5);
   ("tolerance", PyFloat (Q2Qc (1 # 1000)))].

Section EntryPoints.

Variable ln : Qc → Qc.
Variable sqrt : Qc → Qc.
Variable normalize : matrix → matrix.
Variable randomized_svd : sparse → nat → matrix * list Qc * matrix.
Variable non_negative_factorization : sparse → nat → matrix * matrix.
Variable np_random_random : nat → nat → nat → matrix.

(** [check_array] of scikit-learn and [coo_matrix] of scipy. *)
Variable check_array : py_input → outcome py_input.
Variable coo_matrix : matrix → sparse.

(** [plsa_fit]; [X.tocoo()] is [X] itself, kept in coordinate form. *)
Definition plsa_fit (X : sparse) (k : nat) (init : init_arg)
    (n_iter n_iter_per_test : Z) (tolerance e_step_thresh : Qc)
    : outcome (matrix * matrix) :=
  match plsa_init sqrt normalize randomized_svd non_negative_factorization
          np_random_random X k init [] with
  | (Ok (pzd, pwz), _) =>
      (plsa_fit_inner (sp_row X) (sp_col X) (sp_data X) ln pwz pzd
         n_iter n_iter_per_test tolerance e_step_thresh).1
  | (Raise e, _) => Raise e
  end.

(** The call of the compiled [plsa_refit] on bound arguments. *)
Definition call_plsa_refit (bound : list (string * pyval)) : outcome matrix :=
  v <~ argument bound "X_rows" None ;; X_rows <~ as_int_array v ;;
  v <~ argument bound "X_cols" None ;; X_cols <~ as_int_array v ;;
  v <~ argument bound "X_vals" None ;; X_vals <~ as_float_array v ;;
  v <~ argument bound "topics" None ;; topics <~ as_matrix v ;;
  v <~ argument bound "n_documents" None ;; n_documents <~ as_int v ;;
  v <~ argument bound "n_iter" (Some (PyInt 50)) ;; n_iter <~ as_int v ;;
  v <~ argument bound "n_iter_per_test" (Some (PyInt 5)) ;;
  n_iter_per_test <~ as_int v ;;
  v <~ argument bound "tolerance" (Some (PyFloat (Q2Qc (1 # 1000)))) ;;
  tolerance <~ as_float v ;;
  v <~ argument bound "e_step_thresh"
         (Some (PyFloat (Q2Qc (1 # 10000000000000000)))) ;;
  e_step_thresh <~ as_float v ;;
  if decide (n_documents < 0)%Z
  then Raise (ValueError "negative dimensions are not allowed")
  else
    let n := Z.to_nat n_documents in
    (plsa_refit X_rows X_cols X_vals ln normalize topics
       (np_random_random 0 n (shape0 topics)) n
       n_iter n_iter_per_test tolerance e_step_thresh).1.

(** The value of one argument expression of the call in [transform]. *)
Definition eval_arg (X : sparse) (components_ : matrix) (e : arg_expr)
    : outcome pyval :=
  match e with
  | AttributeOfX name => coo_getattr X name
  | Name_n => Ok (PyInt (Z.of_nat (sp_shape X).1))
  | Name_m => Ok (PyInt (Z.of_nat (sp_shape X).2))
  | Components => Ok (PyMatrix components_)
  end.

(** Arguments are evaluated from left to right, before the call. *)
Fixpoint eval_args (X : sparse) (components_ : matrix) (es : list arg_expr)
    : outcome (list pyval) :=
  match es with
  | [] => Ok []
  | e :: es' =>
      v <~ eval_arg X components_ e ;;
      vs <~ eval_args X components_ es' ;;
      Ok (v :: vs)
  end.

(** [PLSA.transform] *)
Definition transform (components_ : matrix) (X : py_input) : outcome matrix :=
  X <~ check_array X ;;
  let X := match X with
           | DenseInput a => coo_matrix a
           | SparseInput X => X
           end in
  args <~ eval_args X components_ transform_args ;;
  bound <~ bind_call plsa_refit_params args transform_kwargs ;;
  call_plsa_refit bound.

End EntryPoints.

(** ** Reference definitions for the statements *)

(** [a[i, j]] where it exists, 0 elsewhere. *)
Definition at2 (a : matrix) (i j : nat) : Qc := default 0 (mget a i j).

(** The expectation step with the test [v > probability_threshold]
    replaced by an arbitrary decidable test on the product [v]. *)
Definition e_step_with (X_rows X_cols : list nat) (X_vals : list Qc)
    (keep : Qc → Prop) {dec : ∀ v, Decision (keep v)} : Kern unit :=
  k <- shape0_of PWZ ;;
  for_range (length X_vals) (λ nz_idx,
    d <- index X_rows nz_idx ;;
    w <- index X_cols nz_idx ;;
    norm <- for_acc k (λ z norm,
      a <- load2 PWZ z w ;;
      b <- load2 PZD d z ;;
      let v := a * b in
      if decide (keep v) then
        store2 PZWD nz_idx z v ;;;
        c <- load2 PZWD nz_idx z ;;
        kret (norm + c)
      else
        store2 PZWD nz_idx z 0 ;;;
        kret norm) 0 ;;
    for_range k (λ z,
      if decide (0 < norm) then
        c <- load2 PZWD nz_idx z ;;
        q <- fdiv c norm ;;
        store2 PZWD nz_idx z q
      else kret tt)).

(** The expectation step that never thresholds, after the words of the
    design document: for every nonzero entry and every topic it stores the
    product P(w|z)·P(z|d) and adds it to the row sum, then divides the row
    by the sum, leaving the row as it is when the sum is not positive. *)
Definition unthresholded_e_step (X_rows X_cols : list nat) (X_vals : list Qc)
    : Kern unit :=
  k <- shape0_of PWZ ;;
  for_range (length X_vals) (λ nz_idx,
    d <- index X_rows nz_idx ;;
    w <- index X_cols nz_idx ;;
    norm <- for_acc k (λ z norm,
      a <- load2 PWZ z w ;;
      b <- load2 PZD d z ;;
      let v := a * b in
      store2 PZWD nz_idx z v ;;;
      kret (norm + v)) 0 ;;
    for_range k (λ z,
      if decide (0 < norm) then
        c <- load2 PZWD nz_idx z ;;
        q <- fdiv c norm ;;
        store2 PZWD nz_idx z q
      else kret tt)).

(** The row the expectation step computes for an entry at document [d] and
    word [w], as a function of the model: the products that pass the test,
    0 for the others, divided by their sum when it is positive. *)
Definition e_products (keep : Qc → Prop) {dec : ∀ v, Decision (keep v)}
    (pwz pzd : matrix) (d w k : nat) : list Qc :=
  map (λ z, let v := at2 pwz z w * at2 pzd d z in
            if decide (keep v) then v else 0) (seq 0 k).

Definition scale_row (c : Qc) (r : list Qc) : list Qc :=
  if decide (0 < c) then map (λ x, x / c) r else r.

Definition e_row (keep : Qc → Prop) {dec : ∀ v, Decision (keep v)}
    (pwz pzd : matrix) (d w k : nat) : list Qc :=
  let r := e_products keep pwz pzd d w k in
  scale_row (vsum r) r.

(** A probability distribution; a row of zeros; an array of non-negative
    numbers. *)
Definition distribution (r : list Qc) : Prop :=
  Forall (λ x, 0 <= x) r ∧ vsum r = 1.
Definition all_zero (r : list Qc) : Prop := Forall (λ x, x = 0) r.
Definition nonneg (a : matrix) : Prop :=
  Forall (Forall (λ x, 0 <= x)) (rowsOf a).

(** The entries are within an [n] by [m] matrix. *)
Definition entries_in (X_rows X_cols : list nat) (X_vals : list Qc) (n m : nat)
    : Prop :=
  length X_rows = length X_vals ∧ length X_cols = length X_vals ∧
  Forall (λ d, d < n)%nat X_rows ∧ Forall (λ w, w < m)%nat X_cols.

(** The store of a fit of [k] topics to an [n] by [m] matrix with [nnz]
    entries: every array has the shape the kernels expect. *)
Definition shaped (σ : arrays) (n m k nnz : nat) : Prop :=
  has_shape (p_w_given_z σ) k m ∧ has_shape (p_z_given_d σ) n k ∧
  has_shape (p_z_given_wd σ) nnz k ∧
  length (norm_pwz σ) = k ∧ length (norm_pdz σ) = n.

(** The list [l] with [f] applied to its first [z] elements: a row in the
    middle of a loop that rewrites it from left to right. *)
Definition partial_map (f : Qc → Qc) (z : nat) (l : list Qc) : list Qc :=
  map f (take z l) ++ drop z l.

(** A computation ends with a value, in a state, that satisfy [Q]. *)
Definition wp {Σ A} (c : Comp Σ A) (Q : A → Σ → Prop) (σ : Σ) : Prop :=
  ∃ a σ', c σ = (Ok a, σ') ∧ Q a σ'.

(** Between [σ] and [σ'] only the posterior array was written. *)
Definition only_posterior (σ σ' : arrays) : Prop :=
  p_w_given_z σ' = p_w_given_z σ ∧ p_z_given_d σ' = p_z_given_d σ ∧
  norm_pwz σ' = norm_pwz σ ∧ norm_pdz σ' = norm_pdz σ.

(** A computation keeps a property of the state, whether it ends with a
    value or with a failure. *)
Definition preserves {Σ A} (I : Σ → Prop) (c : Comp Σ A) : Prop :=
  ∀ σ, I σ → I (c σ).2.

(** The arrays after [a[i, j] += s] and [b[i] += s], and the store after
    the four additions of the maximisation step for one entry and one
    topic [z], at word [w] and document [d]. *)
Definition madd (a : matrix) (i j : nat) (s : Qc) : matrix :=
  Matrix (ncols a) (<[i := <[j := at2 a i j + s]> (row a i)]> (rowsOf a)).
Definition vadd (b : list Qc) (i : nat) (s : Qc) : list Qc :=
  <[i := default 0 (b !! i) + s]> b.
Definition m_add (σ : arrays) (z w d : nat) (s : Qc) : arrays :=
  Arrays (madd (p_w_given_z σ) z w s) (madd (p_z_given_d σ) d z s)
         (p_z_given_wd σ) (vadd (norm_pwz σ) z s) (vadd (norm_pdz σ) d s).

(** The same for the constrained step, which adds to the document side
    only. *)
Definition refit_add (σ : arrays) (z d : nat) (s : Qc) : arrays :=
  Arrays (p_w_given_z σ) (madd (p_z_given_d σ) d z s)
         (p_z_given_wd σ) (norm_pwz σ) (vadd (norm_pdz σ) d s).

(** A row of which the first [z] elements were divided by [c], when [c]
    is positive: a row in the middle of a guarded normalisation. *)
Definition scaled (c : Qc) (z : nat) (r : list Qc) : list Qc :=
  if decide (0 < c) then partial_map (λ x, x / c) z r else r.

(** The accumulator of index [i], 0 when there is none. *)
Definition vat (b : list Qc) (i : nat) : Qc := default 0 (b !! i).

(** The store after the four assignments [a[:] = 0.0] that open the
    maximisation step, and after the two that open the constrained one. *)
Definition m_zeroed (σ : arrays) : arrays :=
  Arrays (mfill (p_w_given_z σ) 0) (mfill (p_z_given_d σ) 0) (p_z_given_wd σ)
         (vfill (norm_pwz σ) 0) (vfill (norm_pdz σ) 0).
Definition refit_zeroed (σ : arrays) : arrays :=
  Arrays (p_w_given_z σ) (mfill (p_z_given_d σ) 0) (p_z_given_wd σ)
         (norm_pwz σ) (vfill (norm_pdz σ) 0).

(** Every row of the array sums to 1. *)
Definition row_stochastic (a : matrix) : Prop :=
  ∀ i, (i < shape0 a)%nat → vsum (row a i) = 1.

(** Equality of failures, results, arrays and stores is decidable. *)
#[global] Instance exn_eq_dec : EqDecision exn.
Proof. solve_decision. Defined.
#[global] Instance outcome_eq_dec {A} `{EqDecision A} : EqDecision (outcome A).
Proof. solve_decision. Defined.
#[global] Instance matrix_eq_dec : EqDecision matrix.
Proof. solve_decision. Defined.
#[global] Instance arrays_eq_dec : EqDecision arrays.
Proof. solve_decision. Defined.
#[global] Instance loop_exit_eq_dec : EqDecision loop_exit.
Proof. solve_decision. Defined.
#[global] Instance event_eq_dec : EqDecision event.
Proof. solve_decision. Defined.

(** A closed equation or inequation between computed values. *)
Ltac by_compute :=
  first [ apply (bool_decide_eq_true_1 _) | apply (bool_decide_eq_false_1 _) ];
  vm_compute; reflexivity.

(** ** Examples *)

(** Two documents, two words, two topics; three nonzero entries, at
    (0,0), (0,1) and (1,1), with counts 1, 2 and 1. *)
Definition ex_rows : list nat := [0; 0; 1]%nat.
Definition ex_cols : list nat := [0; 1; 1]%nat.
Definition ex_vals : list Qc := [1; 2; 1].

Definition ex_store : arrays :=
  Arrays (Matrix 2 [[Q2Qc (1 # 2); Q2Qc (1 # 2)]; [Q2Qc (1 # 4); Q2Qc (3 # 4)]])
         (Matrix 2 [[Q2Qc (1 # 2); Q2Qc (1 # 2)]; [1; 0]])
         (zeros2 3 2) (zeros1 2) (zeros1 2).

(** Two entries, both of document 0, and posteriors that give all their
    weight to topic 0: document 1 and topic 1 receive nothing. *)
Definition ex2_rows : list nat := [0; 0]%nat.
Definition ex2_cols : list nat := [0; 1]%nat.
Definition ex2_vals : list Qc := [1; 1].

Definition ex2_store : arrays :=
  Arrays (Matrix 2 [[Q2Qc (1 # 2); Q2Qc (1 # 2)]; [Q2Qc (1 # 4); Q2Qc (3 # 4)]])
         (Matrix 2 [[Q2Qc (1 # 2); Q2Qc (1 # 2)]; [1; 0]])
         (Matrix 2 [[1; 0]; [1; 0]]) (zeros1 2) (zeros1 2).

(** Closed facts about shapes, ranges and signs, by evaluation. *)
Ltac by_decide :=
  unfold shaped, has_shape, entries_in, nonneg; simpl;
  apply (bool_decide_eq_true_1 _); vm_compute; reflexivity.

(** The store of a refit: as [shaped], without the per-topic accumulator,
    which a refit does not allocate. *)
Definition refit_shaped (σ : arrays) (n m k nnz : nat) : Prop :=
  has_shape (p_w_given_z σ) k m ∧ has_shape (p_z_given_d σ) n k ∧
  has_shape (p_z_given_wd σ) nnz k ∧ length (norm_pdz σ) = n.

(** One pass of expectation and maximisation, for a fit and for a refit,
    and [j] passes in a row. *)
Definition fit_em (X_rows X_cols : list nat) (X_vals : list Qc) (thr : Qc)
    : Kern unit :=
  plsa_e_step X_rows X_cols X_vals thr ;;; plsa_m_step X_rows X_cols X_vals.
Definition refit_em (X_rows X_cols : list nat) (X_vals : list Qc) (thr : Qc)
    : Kern unit :=
  plsa_e_step X_rows X_cols X_vals thr ;;; plsa_refit_m_step X_rows X_cols X_vals.
Definition em_passes (em : Kern unit) (j : nat) : Kern unit :=
  for_range j (λ _, em).

(** ** The fit engine as a state machine *)

(** The iteration of the design document (section 4.6), for a pass [em] of
    expectation and maximisation and an evaluation [ll] of the
    log-likelihood.  [fit_run em ll n_iter t tol i L σ e j σf]: from the
    state Iterating at pass [i], with previous log-likelihood [L] and
    store [σ], the engine reaches the terminal state [e] with the store
    [σf], after [j] more passes.

    - MaxIterReached: [i] is [n_iter], no pass is left.
    - A pass with [i mod t ≠ 0] runs [em] and goes on with [L] unchanged.
    - A pass with [i mod t = 0] runs [em], computes the log-likelihood
      [Li], and either stops in Converged, when |Li − L| / |Li| < tol, or
      goes on with [Li] as the previous log-likelihood.

    The remainder and the ratio must be defined: [t ≠ 0] and [Li ≠ 0]. *)
Inductive fit_end : Type := Converged (i : nat) | MaxIterReached.

Inductive fit_run (em : Kern unit) (ll : Kern Qc) (n_iter : nat) (t : Z) (tol : Qc)
    : nat → Qc → arrays → fit_end → nat → arrays → Prop :=
  | run_max L σ :
      fit_run em ll n_iter t tol n_iter L σ MaxIterReached 0 σ
  | run_plain i L σ σ' e j σf :
      (i < n_iter)%nat → t ≠ 0%Z → (Z.of_nat i mod t)%Z ≠ 0%Z →
      em σ = (Ok tt, σ') →
      fit_run em ll n_iter t tol (S i) L σ' e j σf →
      fit_run em ll n_iter t tol i L σ e (S j) σf
  | run_continue i L σ σ' Li e j σf :
      (i < n_iter)%nat → t ≠ 0%Z → (Z.of_nat i mod t)%Z = 0%Z →
      em σ = (Ok tt, σ') → ll σ' = (Ok Li, σ') → Li ≠ 0 →
      ¬ Qcabs (Li - L) / Qcabs Li < tol →
      fit_run em ll n_iter t tol (S i) Li σ' e j σf →
      fit_run em ll n_iter t tol i L σ e (S j) σf
  | run_converged i L σ σ' Li :
      (i < n_iter)%nat → t ≠ 0%Z → (Z.of_nat i mod t)%Z = 0%Z →
      em σ = (Ok tt, σ') → ll σ' = (Ok Li, σ') → Li ≠ 0 →
      Qcabs (Li - L) / Qcabs Li < tol →
      fit_run em ll n_iter t tol i L σ (Converged i) 1 σ'.

(** How the loop was left, as a terminal state. *)
Definition end_of (x : loop_exit) : fit_end :=
  match x with
  | Exhausted => MaxIterReached
  | BrokeAt i => Converged i
  end.

(** The body of the loop of [plsa_fit_inner] over a pass [em] and an
    evaluation [ll]. *)
Definition loop_body (em : Kern unit) (ll : Kern Qc) (t : Z) (tol : Qc)
    (i : nat) (L : Qc) : Kern (flow * Qc) :=
  em ;;;
  r <- pymod (Z.of_nat i) t ;;
  if decide (r = 0%Z) then
    cur <- ll ;;
    q <- fdiv (Qcabs (cur - L)) (Qcabs cur) ;;
    if decide (q < tol) then kret (Break, L) else kret (Continue, cur)
  else kret (Continue, L).

(** A stand-in for the logarithm in the examples: its tangent at 1. *)
Definition ex_ln (x : Qc) : Qc := x - 1.

(** The component [j ≥ 1] of the "nndsvd" initialisation, after the words
    of the design document (section 4.1): from the [j]-th left and right
    singular vectors [x] and [y] and the singular value [s_j], split each
    vector into its positive and negative parts, take the Euclidean norms
    of the parts, let [m_p] and [m_n] be the products of the norms of the
    positive and of the negative parts, select the parts with the larger
    product, and scale their unit vectors by the square root of
    [s_j · max(m_p, m_n)].  The result is the column of the document-topic
    array and the row of the topic-word array. *)
Definition nndsvd_scaled (sqrt : Qc → Qc) (x y : list Qc) (s_j : Qc)
    : list Qc * list Qc :=
  let pos_left := vmaximum x 0 in
  let pos_right := vmaximum y 0 in
  let neg_left := vabs (vminimum x 0) in
  let neg_right := vabs (vminimum y 0) in
  let m_p := norm sqrt pos_left * norm sqrt pos_right in
  let m_n := norm sqrt neg_left * norm sqrt neg_right in
  let scale := sqrt (s_j * fmax m_p m_n) in
  if decide (m_n < m_p)
  then (vscale scale (vdiv pos_left (norm sqrt pos_left)),
        vscale scale (vdiv pos_right (norm sqrt pos_right)))
  else (vscale scale (vdiv neg_left (norm sqrt neg_left)),
        vscale scale (vdiv neg_right (norm sqrt neg_right))).

(** The factors of a rank-[k] decomposition of an [n] by [m] matrix. *)
Definition svd_shaped (usv : matrix * list Qc * matrix) (n m k : nat) : Prop :=
  has_shape usv.1.1 n k ∧ length usv.1.2 = k ∧ has_shape usv.2 k m.

(** The column and the row of the design document for component [j] of
    the factors [(U, Sv, V)]. *)
Definition nndsvd_target (sqrt : Qc → Qc) (U V : matrix) (Sv : list Qc) (j : nat)
    : list Qc * list Qc :=
  nndsvd_scaled sqrt (default [] (mcol U j)) (default [] (mrow V j))
    (default 0 (Sv !! j)).

(** The modes of initialisation the initializer recognises: the three
    strings, and a pair of arrays. *)
Definition recognized (init : init_arg) : Prop :=
  init = InitStr "random" ∨ init = InitStr "nndsvd" ∨ init = InitStr "nmf" ∨
  (∃ a b, init = InitTuple [a; b]) ∨ (∃ a b, init = InitList [a; b]).

(** Example factors of rank 2 for a 2 by 2 matrix, and stand-ins for the
    collaborators of the initializer in the examples. *)
Definition ex_U : matrix := Matrix 2 [[Q2Qc (3 # 5); Q2Qc (4 # 5)]; [Q2Qc (4 # 5); - Q2Qc (3 # 5)]].
Definition ex_V : matrix := Matrix 2 [[Q2Qc (4 # 5); Q2Qc (3 # 5)]; [Q2Qc (3 # 5); - Q2Qc (4 # 5)]].
Definition ex_S : list Qc := [2; 1].
Definition ex_svd (X : sparse) (k : nat) : matrix * list Qc * matrix := (ex_U, ex_S, ex_V).
Definition ex_sqrt (x : Qc) : Qc := x.
Definition ex_normalize (a : matrix) : matrix := a.
Definition ex_nmf (X : sparse) (k : nat) : matrix * matrix := (zeros2 2 k, zeros2 k 2).
Definition ex_random (call n m : nat) : matrix := zeros2 n m.
Definition ex_X : sparse := Sparse (2, 2)%nat ex_rows ex_cols ex_vals.

(** Stand-ins for the collaborators of [transform] in the examples. *)
Definition ex_check_array (X : py_input) : outcome py_input := Ok X.
Definition ex_coo_matrix (a : matrix) : sparse := ex_X.

(** ** Further reference definitions *)

(** Between [σ] and [σ'] the posterior array was not written. *)
Definition same_posterior (σ σ' : arrays) : Prop :=
  p_z_given_wd σ' = p_z_given_wd σ.

(** Between [σ] and [σ'] only the document-topic array and the
    per-document accumulator were written. *)
Definition only_documents (σ σ' : arrays) : Prop :=
  p_w_given_z σ' = p_w_given_z σ ∧ p_z_given_wd σ' = p_z_given_wd σ ∧
  norm_pwz σ' = norm_pwz σ.

(** The sum of [f 0], ..., [f (n - 1)]. *)
Definition sum_upto (f : nat → Qc) (n : nat) : Qc := vsum (map f (seq 0 n)).

(** The weight of entry [nz] for topic [z] in the maximisation step: its
    value times its posterior. *)
Definition m_weight (X_vals : list Qc) (P : matrix) (nz z : nat) : Qc :=
  vat X_vals nz * at2 P nz z.

(** The weight that the first [i] entries give to word [w] under topic
    [z], and to topic [z] in document [d]. *)
Definition word_mass (X_cols : list nat) (X_vals : list Qc) (P : matrix)
    (i z w : nat) : Qc :=
  sum_upto (λ nz, if decide (X_cols !! nz = Some w) then m_weight X_vals P nz z else 0) i.
Definition doc_mass (X_rows : list nat) (X_vals : list Qc) (P : matrix)
    (i d z : nat) : Qc :=
  sum_upto (λ nz, if decide (X_rows !! nz = Some d) then m_weight X_vals P nz z else 0) i.

(** Every row of the array is a probability distribution or is
    identically zero. *)
Definition stochastic_or_zero (a : matrix) : Prop :=
  ∀ i, (i < shape0 a)%nat → distribution (row a i) ∨ all_zero (row a i).

(** The probability of word [w] in document [d] under the model: the sum
    over the [k] topics of P(w|z) P(z|d); and the sum over the entries of
    the value of the entry times the logarithm of that probability. *)
Definition mixture (pwz pzd : matrix) (k d w : nat) : Qc :=
  sum_upto (λ z, at2 pwz z w * at2 pzd d z) k.
Definition weighted_log_sum (ln : Qc → Qc) (X_rows X_cols : list nat)
    (X_vals : list Qc) (pwz pzd : matrix) (k : nat) : Qc :=
  sum_upto (λ nz, vat X_vals nz *
                  ln (mixture pwz pzd k (default 0%nat (X_rows !! nz))
                                        (default 0%nat (X_cols !! nz))))
           (length X_vals).

(** A computation ends with a value, in a state, that satisfy [Q], or
    with a failure that satisfies [E]. *)
Definition wpx {Σ A} (c : Comp Σ A) (Q : A → Σ → Prop) (E : exn → Prop) (σ : Σ)
    : Prop :=
  match c σ with
  | (Ok a, σ') => Q a σ'
  | (Raise e, _) => E e
  end.

(** ** The estimator *)

(** The [topic_num] argument of the two measures of the estimator: [None],
    an instance of [int] (a boolean is one, with value 0 or 1), or a value
    of any other type. *)
Inductive topic_arg : Type :=
  | TopicNone
  | TopicInt (z : Z)
  | TopicOther.

Module PLSA.

(** An instance of the class [PLSA]: the six attributes that [__init__]
    sets, and the three that a fit adds, absent before it.  The number of
    components is a natural number here, as [plsa_fit] takes it. *)
Record t : Type := Estimator {
  n_components : nat;
  init : init_arg;
  n_iter : Z;
  n_iter_per_test : Z;
  tolerance : Qc;
  e_step_thresh : Qc;
  components_ : option matrix;
  embedding_ : option matrix;
  training_data_ : option sparse
}.

(** [PLSA.__init__] (lines 739-754) *)
Definition __init__ (n_components : nat) (init : init_arg)
    (n_iter n_iter_per_test : Z) (tolerance e_step_thresh : Qc) : t :=
  Estimator n_components init n_iter n_iter_per_test tolerance e_step_thresh
            None None None.

(** Reading an attribute that a fit sets: an [AttributeError] before it. *)
Definition getattr {A} (name : string) (v : option A) : outcome A :=
  match v with
  | Some a => Ok a
  | None => Raise (AttributeError name)
  end.

Section Methods.

Variable ln : Qc → Qc.
Variable sqrt : Qc → Qc.
Variable normalize : matrix → matrix.
Variable randomized_svd : sparse → nat → matrix * list Qc * matrix.
Variable non_negative_factorization : sparse → nat → matrix * matrix.
Variable np_random_random : nat → nat → nat → matrix.

(** [check_array] of scikit-learn and [csr_matrix] of scipy. *)
Variable check_array : py_input → outcome py_input.
Variable csr_matrix : matrix → sparse.

(** The measures of [enstop.utils], which is not part of the sources at
    hand, with their arguments in the order of the calls. *)
Variable mean_coherence : matrix → sparse → Z → outcome Qc.
Variable coherence_of : matrix → Z → sparse → Z → outcome Qc.
Variable mean_log_lift : matrix → sparse → Z → outcome Qc.
Variable log_lift_of : matrix → Z → sparse → Z → outcome Qc.



(** [PLSA.coherence] (lines 806-819).  The message of the second failure
    is the template, before [format] fills in the number of components. *)
Definition coherence (self : t) (topic_num : topic_arg) (n_words : Z)
    : outcome Qc :=
  match topic_num with
  | TopicOther => Raise (ValueError "Topic number must be an integer or None.")
  | TopicNone =>
      c <~ getattr "components_" (components_ self) ;;
      d <~ getattr "training_data_" (training_data_ self) ;;
      mean_coherence c d n_words
  | TopicInt z =>
      if decide (0 ≤ z ∧ z < Z.of_nat (n_components self))%Z then
        c <~ getattr "components_" (components_ self) ;;
        d <~ getattr "training_data_" (training_data_ self) ;;
        coherence_of c z d n_words
      else Raise (ValueError "Topic number must be in range 0 to {}")
  end.

(** [PLSA.log_lift] (lines 821-834) *)
Definition log_lift (self : t) (topic_num : topic_arg) (n_words : Z)
    : outcome Qc :=
  match topic_num with
  | TopicOther => Raise (ValueError "Topic number must be an integer or None.")
  | TopicNone =>
      c <~ getattr "components_" (components_ self) ;;
      d <~ getattr "training_data_" (training_data_ self) ;;
      mean_log_lift c d n_words
  | TopicInt z =>
      if decide (0 ≤ z ∧ z < Z.of_nat (n_components self))%Z then
        c <~ getattr "components_" (components_ self) ;;
        d <~ getattr "training_data_" (training_data_ self) ;;
        log_lift_of c z d n_words
      else Raise (ValueError "Topic number must be in range 0 to {}")
  end.

End Methods.

End PLSA.

(** The failures of the validation of [topic_num]. *)
Definition topic_type_error : exn :=
  ValueError "Topic number must be an integer or None.".
Definition topic_range_error : exn :=
  ValueError "Topic number must be in range 0 to {}".

(** An estimator with the default parameters, not fitted, and stand-ins
    for the measures. *)
Definition ex_estimator : PLSA.t :=
  PLSA.__init__ 10 (InitStr "nndsvd") 100 10 (Q2Qc (1 # 1000)) 0.
Definition ex_mean (c : matrix) (d : sparse) (n_words : Z) : outcome Qc := Ok 0.
Definition ex_one (c : matrix) (z : Z) (d : sparse) (n_words : Z) : outcome Qc := Ok 0.

(** The posterior mass that the entries give to topic [z], and the mass
    that the entries of document [d] give to the [k] topics: sums of the
    weights [x · P(z|w,d)] of the entries. *)
Definition topic_mass (X_vals : list Qc) (P : matrix) (z : nat) : Qc :=
  sum_upto (λ nz, m_weight X_vals P nz z) (length X_vals).
Definition document_mass (X_rows : list nat) (X_vals : list Qc) (P : matrix)
    (k d : nat) : Qc :=
  sum_upto (λ nz, if decide (X_rows !! nz = Some d)
                  then sum_upto (m_weight X_vals P nz) k else 0)
           (length X_vals).


(** * Properties *)

(** ** Rules for computations *)

Section Rules.
Context {Σ : Type}.
Implicit Types σ : Σ.

Lemma wp_ret {A} (a : A) (Q : A → Σ → Prop) σ : Q a σ → wp (kret a) Q σ.
Proof. intros H. by exists a, σ. Qed.

Lemma wp_bind {A B} (c : Comp Σ A) (f : A → Comp Σ B) Q σ :
  wp c (λ a σ', wp (f a) Q σ') σ → wp (kbind c f) Q σ.
Proof.
  intros (a & σ' & Hc & b & σ'' & Hf & HQ).
  exists b, σ''. unfold kbind. by rewrite Hc.
Qed.

Lemma wp_mono {A} (c : Comp Σ A) (Q Q' : A → Σ → Prop) σ :
  wp c Q σ → (∀ a σ', Q a σ' → Q' a σ') → wp c Q' σ.
Proof. intros (a & σ' & Hc & HQ) H. exists a, σ'. eauto. Qed.

Lemma wp_kopt {A} (o : option A) (a : A) (Q : A → Σ → Prop) σ :
  o = Some a → Q a σ → wp (kopt o) Q σ.
Proof. intros -> H. by apply wp_ret. Qed.

Lemma wp_index {A} (X : list A) i (a : A) (Q : A → Σ → Prop) σ :
  X !! i = Some a → Q a σ → wp (index X i) Q σ.
Proof. apply wp_kopt. Qed.

Lemma wp_kget {A} (f : Σ → A) (Q : A → Σ → Prop) σ : Q (f σ) σ → wp (kget f) Q σ.
Proof. intros H. by exists (f σ), σ. Qed.

Lemma wp_fdiv (a b : Qc) (Q : Qc → Σ → Prop) σ :
  b ≠ 0 → Q (a / b) σ → wp (fdiv a b) Q σ.
Proof. intros Hb H. unfold fdiv. case_decide; [done|]. by apply wp_ret. Qed.

Lemma wp_for_in {S} (I : nat → S → Σ → Prop) (body : nat → S → Comp Σ S) n :
  ∀ a s σ,
    I a s σ →
    (∀ i s σ, (a ≤ i < a + n)%nat → I i s σ → wp (body i s) (I (Datatypes.S i)) σ) →
    wp (for_in (seq a n) body s) (I (a + n)%nat) σ.
Proof.
  induction n as [|n IH]; intros a s σ H0 Hstep; simpl.
  - apply wp_ret. by rewrite Nat.add_0_r.
  - apply wp_bind. eapply wp_mono; [apply Hstep; [lia|done]|].
    intros s' σ' H'. simpl. replace (a + Datatypes.S n)%nat with (Datatypes.S a + n)%nat by lia.
    apply IH; [done|]. intros i s'' σ'' Hi. apply Hstep. lia.
Qed.

Lemma wp_for_acc {S} (I : nat → S → Σ → Prop) (body : nat → S → Comp Σ S) n s σ :
  I 0%nat s σ →
  (∀ i s σ, (i < n)%nat → I i s σ → wp (body i s) (I (Datatypes.S i)) σ) →
  wp (for_acc n body s) (I n) σ.
Proof.
  intros H0 Hstep. apply (wp_for_in I body n 0%nat); [done|].
  intros i s' σ' Hi. apply Hstep. lia.
Qed.

Lemma wp_for_range (I : nat → Σ → Prop) (body : nat → Comp Σ unit) n σ :
  I 0%nat σ →
  (∀ i σ, (i < n)%nat → I i σ → wp (body i) (λ _, I (Datatypes.S i)) σ) →
  wp (for_range n body) (λ _, I n) σ.
Proof.
  intros H0 Hstep. unfold for_range.
  apply (wp_for_acc (λ i _, I i)); [done|]. intros i [] σ' Hi. by apply Hstep.
Qed.

End Rules.

(** ** Arrays *)

(** The array after [a[i, j] = v]. *)
Lemma mset_lt a i j v :
  (j < length (row a i))%nat →
  mset a i j v = Some (Matrix (ncols a) (<[i := <[j := v]> (row a i)]> (rowsOf a))).
Proof.
  unfold mset, row. destruct (rowsOf a !! i) as [r|]; simpl; [|lia].
  intros H. by rewrite decide_True.
Qed.

Lemma mget_row a i j : mget a i j = row a i !! j.
Proof. unfold mget, row. by destruct (rowsOf a !! i). Qed.

Lemma row_length a n m i : has_shape a n m → (i < n)%nat → length (row a i) = m.
Proof.
  intros (_ & Hn & Hall) Hi. unfold row.
  destruct (rowsOf a !! i) as [r|] eqn:E.
  - simpl. by apply (Forall_lookup_1 _ _ _ _ Hall E).
  - apply lookup_ge_None in E. lia.
Qed.

Lemma mget_at2 a n m i j :
  has_shape a n m → (i < n)%nat → (j < m)%nat → mget a i j = Some (at2 a i j).
Proof.
  intros Ha Hi Hj. unfold at2. rewrite mget_row.
  destruct (row a i !! j) eqn:E; [done|].
  apply lookup_ge_None in E. rewrite (row_length a n m) in E; [lia|done..].
Qed.

Lemma row_insert a i r i' :
  (i < length (rowsOf a))%nat →
  row (Matrix (ncols a) (<[i := r]> (rowsOf a))) i' =
  if decide (i' = i) then r else row a i'.
Proof.
  intros Hi. unfold row; simpl. case_decide as E.
  - subst. by rewrite list_lookup_insert_eq.
  - by rewrite list_lookup_insert_ne.
Qed.

Lemma has_shape_insert a n m i r :
  has_shape a n m → length r = m →
  has_shape (Matrix (ncols a) (<[i := r]> (rowsOf a))) n m.
Proof.
  intros (Hc & Hn & Hall) Hr. split; [done|]. split; simpl.
  - by rewrite length_insert.
  - apply Forall_insert; done.
Qed.

Lemma has_shape_zeros2 n m : has_shape (zeros2 n m) n m.
Proof.
  split; [done|]. split; simpl.
  - by rewrite length_replicate.
  - apply Forall_replicate. by rewrite length_replicate.
Qed.

Lemma has_shape_mfill a n m v : has_shape a n m → has_shape (mfill a v) n m.
Proof.
  intros (Hc & Hn & Hall). split; [done|]. split; simpl.
  - by rewrite length_map.
  - apply Forall_map. eapply Forall_impl; [exact Hall|].
    intros r Hr. simpl. by rewrite length_map.
Qed.

Lemma row_mfill a n m v i :
  has_shape a n m → (i < n)%nat → row (mfill a v) i = replicate m v.
Proof.
  intros Ha Hi. pose proof (row_length a n m i Ha Hi) as Hl.
  unfold row in *. simpl. rewrite list_lookup_fmap.
  destruct (rowsOf a !! i) as [r|] eqn:E; simpl in *.
  - subst m. clear. induction r; simpl; [done|]. by f_equal.
  - apply lookup_ge_None in E. destruct Ha as (_ & Hn & _). lia.
Qed.

Lemma vfill_replicate (b : list Qc) v : vfill b v = replicate (length b) v.
Proof. unfold vfill. induction b; simpl; [done|]. by f_equal. Qed.

(** ** Sums *)

Lemma vsum_app l1 l2 : vsum (l1 ++ l2) = vsum l1 + vsum l2.
Proof.
  unfold vsum. induction l1 as [|x l1 IH]; simpl.
  - by rewrite Qcplus_0_l.
  - rewrite IH. ring.
Qed.

Lemma vsum_replicate_0 n : vsum (replicate n 0) = 0.
Proof. unfold vsum. induction n; simpl; [done|]. rewrite IHn. ring. Qed.

Lemma vsum_insert l i x y :
  l !! i = Some x → vsum (<[i := y]> l) = vsum l - x + y.
Proof.
  unfold vsum. revert i. induction l as [|a l IH]; intros [|i] H; simpl in *; try done.
  - injection H as ->. ring.
  - rewrite (IH i H). ring.
Qed.

Lemma vsum_div l c : vsum (map (λ x, x / c) l) = vsum l / c.
Proof.
  unfold vsum. induction l as [|a l IH]; simpl.
  - unfold Qcdiv. ring.
  - rewrite IH. unfold Qcdiv. ring.
Qed.

Lemma vsum_nonneg l : Forall (λ x, 0 <= x) l → 0 <= vsum l.
Proof.
  unfold vsum. induction 1 as [|x l Hx Hl IH]; simpl; [done|].
  by apply Qcplus_nonneg_nonneg.
Qed.

Lemma Qc_nonneg_sum_0 (x y : Qc) : 0 <= x → 0 <= y → x + y = 0 → x = 0 ∧ y = 0.
Proof.
  intros Hx Hy H.
  assert (x <= 0) as Hx'.
  { rewrite <- H. rewrite <- (Qcplus_0_r x) at 1. by apply Qcplus_le_mono_l. }
  assert (x = 0) as -> by (by apply Qcle_antisym).
  split; [done|]. by rewrite Qcplus_0_l in H.
Qed.

Lemma vsum_nonneg_0 l : Forall (λ x, 0 <= x) l → vsum l = 0 → all_zero l.
Proof.
  unfold vsum, all_zero. induction 1 as [|x l Hx Hl IH]; simpl; intros H; [done|].
  destruct (Qc_nonneg_sum_0 x (foldr Qcplus 0 l) Hx (vsum_nonneg l Hl) H) as [-> H0].
  constructor; [done|]. by apply IH.
Qed.

(** ** Rules for the accesses to the store *)

Lemma wp_shape0_of r (Q : nat → arrays → Prop) σ :
  Q (shape0 (rd2 r σ)) σ → wp (shape0_of r) Q σ.
Proof. intros H. by eexists _, σ. Qed.

Lemma wp_shape1_of r (Q : nat → arrays → Prop) σ :
  Q (shape1 (rd2 r σ)) σ → wp (shape1_of r) Q σ.
Proof. intros H. by eexists _, σ. Qed.

Lemma wp_load2 r i j v (Q : Qc → arrays → Prop) σ :
  row (rd2 r σ) i !! j = Some v → Q v σ → wp (load2 r i j) Q σ.
Proof.
  intros Hv H. unfold wp, load2. exists v, σ. by rewrite mget_row, Hv.
Qed.

Lemma wp_store2 r i j v (Q : unit → arrays → Prop) σ :
  (j < length (row (rd2 r σ) i))%nat →
  Q tt (wr2 r (Matrix (ncols (rd2 r σ))
                 (<[i := <[j := v]> (row (rd2 r σ) i)]> (rowsOf (rd2 r σ)))) σ) →
  wp (store2 r i j v) Q σ.
Proof.
  intros Hj H. unfold wp, store2. rewrite (mset_lt _ _ _ _ Hj). by eexists tt, _.
Qed.

Lemma wp_load1 r i v (Q : Qc → arrays → Prop) σ :
  rd1 r σ !! i = Some v → Q v σ → wp (load1 r i) Q σ.
Proof. intros Hv H. unfold wp, load1. exists v, σ. by rewrite Hv. Qed.

Lemma wp_store1 r i v (Q : unit → arrays → Prop) σ :
  (i < length (rd1 r σ))%nat →
  Q tt (wr1 r (<[i := v]> (rd1 r σ)) σ) → wp (store1 r i v) Q σ.
Proof.
  intros Hi H. unfold wp, store1, vset. rewrite decide_True by done. by eexists tt, _.
Qed.

Lemma wp_fill2 r v (Q : unit → arrays → Prop) σ :
  Q tt (wr2 r (mfill (rd2 r σ) v) σ) → wp (fill2 r v) Q σ.
Proof. intros H. by eexists tt, _. Qed.

Lemma wp_fill1 r v (Q : unit → arrays → Prop) σ :
  Q tt (wr1 r (vfill (rd1 r σ) v) σ) → wp (fill1 r v) Q σ.
Proof. intros H. by eexists tt, _. Qed.

Lemma wp_iadd2 r i j s x (Q : unit → arrays → Prop) σ :
  row (rd2 r σ) i !! j = Some x →
  Q tt (wr2 r (Matrix (ncols (rd2 r σ))
                 (<[i := <[j := x + s]> (row (rd2 r σ) i)]> (rowsOf (rd2 r σ)))) σ) →
  wp (iadd2 r i j s) Q σ.
Proof.
  intros Hx H. unfold iadd2. apply wp_bind. eapply wp_load2; [done|].
  apply wp_store2; [|done]. by apply lookup_lt_Some in Hx.
Qed.

Lemma wp_iadd1 r i s x (Q : unit → arrays → Prop) σ :
  rd1 r σ !! i = Some x →
  Q tt (wr1 r (<[i := x + s]> (rd1 r σ)) σ) → wp (iadd1 r i s) Q σ.
Proof.
  intros Hx H. unfold iadd1. apply wp_bind. eapply wp_load1; [done|].
  apply wp_store1; [|done]. by apply lookup_lt_Some in Hx.
Qed.

(** ** A list with a function applied to its first [z] elements *)

Lemma partial_map_0 f l : partial_map f 0 l = l.
Proof. done. Qed.

Lemma partial_map_all f z l : (length l ≤ z)%nat → partial_map f z l = map f l.
Proof.
  intros H. unfold partial_map. rewrite take_ge, drop_ge by done. apply app_nil_r.
Qed.

Lemma partial_map_length f z l : length (partial_map f z l) = length l.
Proof.
  unfold partial_map. rewrite length_app, length_map, length_take, length_drop. lia.
Qed.

Lemma partial_map_lookup f z l : partial_map f z l !! z = l !! z.
Proof.
  unfold partial_map. revert z. induction l as [|a l IH]; intros [|z]; simpl; done.
Qed.

Lemma partial_map_step f z l x :
  l !! z = Some x → <[z := f x]> (partial_map f z l) = partial_map f (S z) l.
Proof.
  unfold partial_map. revert z. induction l as [|a l IH]; intros [|z] H; simpl in *; try done.
  - injection H as ->. by rewrite drop_0.
  - f_equal. by apply IH.
Qed.

(** ** The expectation step *)

Lemma shaped_refit_shaped σ n m k nnz : shaped σ n m k nnz → refit_shaped σ n m k nnz.
Proof. intros (? & ? & ? & ? & ?). unfold refit_shaped. auto. Qed.

Lemma row_at2 a n m i j :
  has_shape a n m → (i < n)%nat → (j < m)%nat → row a i !! j = Some (at2 a i j).
Proof. intros. rewrite <- mget_row. by eapply mget_at2. Qed.

Lemma only_posterior_refl σ : only_posterior σ σ.
Proof. by repeat split. Qed.

Lemma only_posterior_trans σ1 σ2 σ3 :
  only_posterior σ1 σ2 → only_posterior σ2 σ3 → only_posterior σ1 σ3.
Proof. intros (?&?&?&?) (?&?&?&?). repeat split; congruence. Qed.

Lemma only_posterior_wr σ a : only_posterior σ (wr2 PZWD a σ).
Proof. by repeat split. Qed.

Section ExpectationStep.

Variables (X_rows X_cols : list nat) (X_vals : list Qc).
Variable keep : Qc → Prop.
Context {dec : ∀ v, Decision (keep v)}.
Variables (n m k nnz : nat).

Lemma e_products_S pwz pzd d w z :
  e_products keep pwz pzd d w (S z) =
  e_products keep pwz pzd d w z ++
    [let v := at2 pwz z w * at2 pzd d z in if decide (keep v) then v else 0].
Proof. unfold e_products. by rewrite seq_S, map_app. Qed.

Lemma e_products_length pwz pzd d w z : length (e_products keep pwz pzd d w z) = z.
Proof. unfold e_products. by rewrite length_map, length_seq. Qed.

(** The first inner loop writes the products that pass the test into the
    row of the entry and returns their sum. *)
Lemma e_products_loop σ nz d w :
  has_shape (p_w_given_z σ) k m → has_shape (p_z_given_d σ) n k →
  has_shape (p_z_given_wd σ) nnz k →
  (nz < nnz)%nat → (d < n)%nat → (w < m)%nat →
  wp (for_acc k (λ z norm,
        a <- load2 PWZ z w ;;
        b <- load2 PZD d z ;;
        let v := a * b in
        if decide (keep v) then
          store2 PZWD nz z v ;;;
          c <- load2 PZWD nz z ;;
          kret (norm + c)
        else
          store2 PZWD nz z 0 ;;;
          kret norm) 0)
     (λ norm σ',
        only_posterior σ σ' ∧ has_shape (p_z_given_wd σ') nnz k ∧
        (∀ i, i ≠ nz → row (p_z_given_wd σ') i = row (p_z_given_wd σ) i) ∧
        row (p_z_given_wd σ') nz = e_products keep (p_w_given_z σ) (p_z_given_d σ) d w k ∧
        norm = vsum (e_products keep (p_w_given_z σ) (p_z_given_d σ) d w k)) σ.
Proof.
  intros Hpwz Hpzd Hpost Hnz Hd Hw.
  set (P := e_products keep (p_w_given_z σ) (p_z_given_d σ) d w).
  eapply wp_mono.
  - apply (wp_for_acc (λ z norm σ',
      only_posterior σ σ' ∧ has_shape (p_z_given_wd σ') nnz k ∧
      (∀ i, i ≠ nz → row (p_z_given_wd σ') i = row (p_z_given_wd σ) i) ∧
      take z (row (p_z_given_wd σ') nz) = P z ∧ norm = vsum (P z))).
    { split; [apply only_posterior_refl|]. split; [done|]. split; [done|]. by split. }
    intros z norm σ' Hz (Hfr & Hsh & Hoth & Htake & Hnorm).
    pose proof Hfr as (Ew & Ed & _).
    pose proof (row_length _ _ _ _ Hsh Hnz) as Hlen.
    assert (nz < length (rowsOf (p_z_given_wd σ')))%nat as Hnz' by (destruct Hsh as (_ & -> & _); done).
    apply wp_bind. eapply wp_load2.
    { simpl. rewrite Ew. by eapply row_at2. }
    apply wp_bind. eapply wp_load2.
    { simpl. rewrite Ed. by eapply row_at2. }
    cbv zeta. unfold P in *. rewrite e_products_S, vsum_app.
    set (v := at2 (p_w_given_z σ) z w * at2 (p_z_given_d σ) d z).
    cbv zeta. unfold vsum at 2. simpl foldr. rewrite Qcplus_0_r.
    case_decide.
    + apply wp_bind. apply wp_store2; [simpl; lia|].
      apply wp_bind. eapply wp_load2.
      { simpl. rewrite row_insert, decide_True by done.
        apply list_lookup_insert_eq. lia. }
      apply wp_ret. simpl. split; [eapply only_posterior_trans; [done|apply only_posterior_wr]|].
      split; [apply has_shape_insert; [done|by rewrite length_insert]|].
      split; [intros i Hi; rewrite row_insert, decide_False by done; by apply Hoth|].
      rewrite row_insert, decide_True by done. split.
      * erewrite take_S_r by (apply list_lookup_insert_eq; lia).
        rewrite take_insert, decide_False by lia. by rewrite Htake.
      * by rewrite Hnorm.
    + apply wp_bind. apply wp_store2; [simpl; lia|].
      apply wp_ret. simpl. split; [eapply only_posterior_trans; [done|apply only_posterior_wr]|].
      split; [apply has_shape_insert; [done|by rewrite length_insert]|].
      split; [intros i Hi; rewrite row_insert, decide_False by done; by apply Hoth|].
      rewrite row_insert, decide_True by done. split.
      * erewrite take_S_r by (apply list_lookup_insert_eq; lia).
        rewrite take_insert, decide_False by lia. by rewrite Htake.
      * rewrite Hnorm. ring.
  - intros norm σ' (Hfr & Hsh & Hoth & Htake & Hnorm).
    split; [done|]. split; [done|]. split; [done|]. split; [|done].
    rewrite <- Htake. symmetry. apply take_ge.
      by rewrite (row_length _ _ _ _ Hsh Hnz).
Qed.

(** The second inner loop divides the row of the entry by [c] when [c]
    is positive, and leaves it as it is otherwise. *)
Lemma e_scale_loop σ nz c :
  has_shape (p_z_given_wd σ) nnz k → (nz < nnz)%nat →
  wp (for_range k (λ z,
        if decide (0 < c) then
          x <- load2 PZWD nz z ;;
          q <- fdiv x c ;;
          store2 PZWD nz z q
        else kret tt))
     (λ _ σ',
        only_posterior σ σ' ∧ has_shape (p_z_given_wd σ') nnz k ∧
        (∀ i, i ≠ nz → row (p_z_given_wd σ') i = row (p_z_given_wd σ) i) ∧
        row (p_z_given_wd σ') nz = scale_row c (row (p_z_given_wd σ) nz)) σ.
Proof.
  intros Hpost Hnz.
  set (r0 := row (p_z_given_wd σ) nz).
  assert (length r0 = k) as Hr0 by (by eapply row_length).
  eapply wp_mono.
  - apply (wp_for_range (λ z σ',
      only_posterior σ σ' ∧ has_shape (p_z_given_wd σ') nnz k ∧
      (∀ i, i ≠ nz → row (p_z_given_wd σ') i = row (p_z_given_wd σ) i) ∧
      row (p_z_given_wd σ') nz =
        if decide (0 < c) then partial_map (λ x, x / c) z r0 else r0)).
    { split; [apply only_posterior_refl|]. split; [done|]. split; [done|].
      by case_decide. }
    intros z σ' Hz (Hfr & Hsh & Hoth & Hrow).
    case_decide as Hc; [|by apply wp_ret].
    assert (nz < length (rowsOf (p_z_given_wd σ')))%nat as Hnz'
      by (destruct Hsh as (_ & -> & _); done).
    destruct (lookup_lt_is_Some_2 r0 z) as [x Hx]; [lia|].
    apply wp_bind. eapply wp_load2.
    { simpl. rewrite Hrow, partial_map_lookup. exact Hx. }
    apply wp_bind. apply wp_fdiv.
    { intros ->. by apply Qclt_not_eq in Hc. }
    apply wp_store2.
    { simpl. rewrite Hrow, partial_map_length. lia. }
    simpl. split; [eapply only_posterior_trans; [done|apply only_posterior_wr]|].
    split.
    { apply has_shape_insert; [done|].
      by rewrite length_insert, Hrow, partial_map_length. }
    split; [intros i Hi; rewrite row_insert, decide_False by done; by apply Hoth|].
    rewrite row_insert, decide_True by done.
    rewrite Hrow. by apply (partial_map_step (λ x, x / c)).
  - intros _ σ' (Hfr & Hsh & Hoth & Hrow).
    split; [done|]. split; [done|]. split; [done|].
    rewrite Hrow. unfold scale_row. case_decide; [|done].
    apply partial_map_all. fold r0. lia.
Qed.

(** The expectation step: it succeeds on well-shaped arrays, writes only
    the posterior array, and the row of every entry is [e_row] of the
    model. *)
Lemma e_step_with_spec σ :
  refit_shaped σ n m k nnz → nnz = length X_vals →
  entries_in X_rows X_cols X_vals n m →
  wp (e_step_with X_rows X_cols X_vals keep)
     (λ _ σ',
        only_posterior σ σ' ∧ has_shape (p_z_given_wd σ') nnz k ∧
        ∀ nz d w, X_rows !! nz = Some d → X_cols !! nz = Some w →
          row (p_z_given_wd σ') nz =
          e_row keep (p_w_given_z σ) (p_z_given_d σ) d w k) σ.
Proof.
  intros (Hpwz & Hpzd & Hpost & _) Hnnz (Hlr & Hlc & Hrows & Hcols).
  unfold e_step_with. apply wp_bind, wp_shape0_of. simpl.
  replace (shape0 (p_w_given_z σ)) with k by (symmetry; apply Hpwz).
  rewrite <- Hnnz.
  eapply wp_mono.
  - apply (wp_for_range (λ nz σ',
      only_posterior σ σ' ∧ has_shape (p_z_given_wd σ') nnz k ∧
      ∀ i d w, (i < nz)%nat → X_rows !! i = Some d → X_cols !! i = Some w →
        row (p_z_given_wd σ') i =
        e_row keep (p_w_given_z σ) (p_z_given_d σ) d w k)).
    { split; [apply only_posterior_refl|]. split; [done|]. intros; lia. }
    intros nz σ1 Hnz (Hfr & Hsh & Hdone).
    destruct (lookup_lt_is_Some_2 X_rows nz) as [d Hd]; [lia|].
    destruct (lookup_lt_is_Some_2 X_cols nz) as [w Hw]; [lia|].
    pose proof (Forall_lookup_1 _ _ _ _ Hrows Hd) as Hdn.
    pose proof (Forall_lookup_1 _ _ _ _ Hcols Hw) as Hwm.
    pose proof Hfr as (Ew & Ed & _).
    apply wp_bind. eapply wp_index; [exact Hd|].
    apply wp_bind. eapply wp_index; [exact Hw|].
    apply wp_bind. eapply wp_mono.
    { apply (e_products_loop σ1 nz d w); rewrite ?Ew, ?Ed; done. }
    intros norm σ2 (Hfr2 & Hsh2 & Hoth2 & Hrow2 & Hnorm). simpl.
    eapply wp_mono; [by apply (e_scale_loop σ2 nz norm)|].
    intros _ σ3 (Hfr3 & Hsh3 & Hoth3 & Hrow3). simpl.
    split; [eauto using only_posterior_trans|]. split; [done|].
    intros i d' w' Hi Hd' Hw'.
    destruct (decide (i = nz)) as [->|Hne].
    + rewrite Hd in Hd'. rewrite Hw in Hw'. injection Hd' as <-. injection Hw' as <-.
      rewrite Hrow3, Hrow2, Hnorm, Ew, Ed. done.
    + rewrite Hoth3, Hoth2 by done. apply Hdone; [lia|done..].
  - intros _ σ' (Hfr & Hsh & Hdone). split; [done|]. split; [done|].
    intros nz d w Hd Hw. apply (Hdone nz d w); [|done..].
    apply lookup_lt_Some in Hd. lia.
Qed.

End ExpectationStep.

(** The source's step is the general one with the test [threshold < v]. *)
Lemma plsa_e_step_with X_rows X_cols X_vals thr :
  plsa_e_step X_rows X_cols X_vals thr =
  e_step_with X_rows X_cols X_vals (λ v, thr < v).
Proof. reflexivity. Qed.

(** *** Rows of the expectation step *)

Lemma at2_nonneg a i j : nonneg a → 0 <= at2 a i j.
Proof.
  intros Ha. unfold at2, mget.
  destruct (rowsOf a !! i) as [r|] eqn:Er; [|done].
  destruct (r !! j) as [x|] eqn:Ex; [|done]. simpl.
  pose proof (Forall_lookup_1 _ _ _ _ Ha Er) as Hr.
  apply (Forall_lookup_1 _ _ _ _ Hr Ex).
Qed.

Lemma e_products_nonneg thr pwz pzd d w k :
  0 <= thr ∨ (nonneg pwz ∧ nonneg pzd) →
  Forall (λ x, 0 <= x) (e_products (λ v, thr < v) pwz pzd d w k).
Proof.
  intros H. unfold e_products. apply Forall_map, Forall_forall. intros z _. simpl.
  case_decide as Hv; [|done].
  destruct H as [Hthr|[Hw Hd]].
  - apply Qclt_le_weak. by eapply Qcle_lt_trans.
  - apply Qcmult_nonneg_nonneg; by apply at2_nonneg.
Qed.

Lemma e_products_below thr pwz pzd d w k :
  (∀ z, (z < k)%nat → at2 pwz z w * at2 pzd d z <= thr) →
  e_products (λ v, thr < v) pwz pzd d w k = replicate k 0.
Proof.
  intros H. unfold e_products.
  apply list_eq. intros i. rewrite list_lookup_fmap.
  destruct (decide (i < k)%nat) as [Hi|Hi].
  - rewrite lookup_replicate_2 by done.
    rewrite (proj2 (lookup_seq 0 k i i)) by done. simpl.
    case_decide as Hv; [|done]. exfalso. apply Qclt_not_le in Hv. by apply Hv, H.
  - rewrite (lookup_ge_None_2 (seq 0 k)) by (rewrite length_seq; lia).
    symmetry. apply lookup_ge_None_2. rewrite length_replicate. lia.
Qed.

Lemma scale_row_distribution c r :
  Forall (λ x, 0 <= x) r → c = vsum r →
  distribution (scale_row c r) ∨ (all_zero (scale_row c r) ∧ ¬ 0 < c).
Proof.
  intros Hr ->. unfold scale_row. case_decide as Hc.
  - left. split.
    + apply Forall_map. eapply Forall_impl; [exact Hr|]. intros x Hx. simpl.
      unfold Qcdiv. apply Qcmult_nonneg_nonneg; [done|].
      apply Qclt_le_weak. by apply Qcinv_pos.
    + rewrite vsum_div. unfold Qcdiv. apply Qcmult_inv_r.
      intros E. rewrite E in Hc. by apply Qclt_not_eq in Hc.
  - right. split; [|done]. apply vsum_nonneg_0; [done|].
    apply Qcle_antisym; [by apply Qcnot_lt_le|by apply vsum_nonneg].
Qed.

Lemma scale_row_zeros c k : scale_row c (replicate k 0) = replicate k 0.
Proof.
  unfold scale_row. case_decide; [|done].
  induction k; simpl; [done|]. f_equal; [|done]. unfold Qcdiv. ring.
Qed.

Lemma all_zero_replicate k : all_zero (replicate k 0).
Proof. by apply Forall_replicate. Qed.

(** C2.  On well-shaped arrays, with a non-negative threshold or a
    non-negative model, the expectation step ends without a failure (so
    without a division by zero), and the posterior row of every nonzero
    entry is a probability distribution over the [k] topics or identically
    zero; it is identically zero when every product P(w|z)·P(z|d) of the
    entry is at or below the threshold. *)
Theorem e_step_rows X_rows X_cols X_vals thr n m k σ :
  shaped σ n m k (length X_vals) →
  entries_in X_rows X_cols X_vals n m →
  0 <= thr ∨ (nonneg (p_w_given_z σ) ∧ nonneg (p_z_given_d σ)) →
  ∃ σ', plsa_e_step X_rows X_cols X_vals thr σ = (Ok tt, σ') ∧
    ∀ nz d w, X_rows !! nz = Some d → X_cols !! nz = Some w →
      let r := row (p_z_given_wd σ') nz in
      length r = k ∧
      (distribution r ∨ all_zero r) ∧
      ((∀ z, (z < k)%nat →
          at2 (p_w_given_z σ) z w * at2 (p_z_given_d σ) d z <= thr) →
       all_zero r).
Proof.
  intros Hsh Hent Hpos. rewrite plsa_e_step_with.
  destruct (e_step_with_spec X_rows X_cols X_vals (λ v, thr < v) n m k _ σ
              (shaped_refit_shaped _ _ _ _ _ Hsh) eq_refl Hent) as ([] & σ' & Hrun & Hfr & Hshape & Hrows).
  exists σ'. split; [done|]. intros nz d w Hd Hw. simpl.
  rewrite (Hrows nz d w Hd Hw). split; [|split].
  - eapply row_length in Hshape; [|by apply lookup_lt_Some in Hd; destruct Hent as (<- & _)].
    by rewrite (Hrows nz d w Hd Hw) in Hshape.
  - unfold e_row.
    destruct (scale_row_distribution
                (vsum (e_products (λ v, thr < v) (p_w_given_z σ) (p_z_given_d σ) d w k))
                (e_products (λ v, thr < v) (p_w_given_z σ) (p_z_given_d σ) d w k))
      as [?|[? _]]; auto using e_products_nonneg.
  - intros Hbelow. unfold e_row. rewrite e_products_below by done.
    rewrite scale_row_zeros. apply all_zero_replicate.
Qed.

(** ** What a computation leaves alone *)

Section Preserves.
Context {Σ : Type} (I : Σ → Prop).

Lemma preserves_ret {A} (a : A) : preserves I (kret a).
Proof. by intros σ H. Qed.

Lemma preserves_raise {A} e : preserves I (@kraise Σ A e).
Proof. by intros σ H. Qed.

Lemma preserves_bind {A B} (c : Comp Σ A) (f : A → Comp Σ B) :
  preserves I c → (∀ a, preserves I (f a)) → preserves I (kbind c f).
Proof.
  intros Hc Hf σ H. unfold kbind. specialize (Hc σ H).
  destruct (c σ) as [[a|e] σ']; simpl in *; [by apply Hf|done].
Qed.

Lemma preserves_kopt {A} (o : option A) : preserves I (kopt o).
Proof. destruct o; [apply preserves_ret|apply preserves_raise]. Qed.

Lemma preserves_fdiv a b : preserves I (fdiv a b).
Proof. unfold fdiv. case_decide; [apply preserves_raise|apply preserves_ret]. Qed.

Lemma preserves_pymod i n : preserves I (pymod i n).
Proof. unfold pymod. case_decide; [apply preserves_raise|apply preserves_ret]. Qed.

Lemma preserves_kget {A} (f : Σ → A) : preserves I (kget f).
Proof. by intros σ H. Qed.

Lemma preserves_for_in {S} l (body : nat → S → Comp Σ S) s :
  (∀ i s, preserves I (body i s)) → preserves I (for_in l body s).
Proof.
  intros Hb. revert s. induction l as [|i l IH]; intros s; simpl.
  - apply preserves_ret.
  - apply preserves_bind; [apply Hb|]. intros s'. apply IH.
Qed.

Lemma preserves_for_acc {S} n (body : nat → S → Comp Σ S) s :
  (∀ i s, preserves I (body i s)) → preserves I (for_acc n body s).
Proof. apply preserves_for_in. Qed.

Lemma preserves_for_range n (body : nat → Comp Σ unit) :
  (∀ i, preserves I (body i)) → preserves I (for_range n body).
Proof. intros H. apply preserves_for_acc. intros i _. apply H. Qed.

Lemma preserves_for_break {S} n (body : nat → S → Comp Σ (flow * S)) s :
  (∀ i s, preserves I (body i s)) → preserves I (for_break n body s).
Proof.
  intros Hb. unfold for_break. generalize (seq 0 n). intros l. revert s.
  induction l as [|i l IH]; intros s; simpl.
  - apply preserves_ret.
  - apply preserves_bind; [apply Hb|]. intros [[] s']; [apply IH|apply preserves_ret].
Qed.

(** Two loops whose bodies agree on the states that satisfy [I] agree on
    those states. *)
Lemma kbind_ext {A B} (c : Comp Σ A) (f g : A → Comp Σ B) σ :
  I σ → preserves I c → (∀ a σ', I σ' → f a σ' = g a σ') →
  kbind c f σ = kbind c g σ.
Proof.
  intros H Hc Hfg. unfold kbind. specialize (Hc σ H).
  destruct (c σ) as [[a|e] σ']; simpl in *; [by apply Hfg|done].
Qed.

Lemma for_in_ext {S} l (b1 b2 : nat → S → Comp Σ S) s σ :
  I σ → (∀ i s, preserves I (b1 i s)) →
  (∀ i s σ, I σ → b1 i s σ = b2 i s σ) →
  for_in l b1 s σ = for_in l b2 s σ.
Proof.
  intros H Hp Hb. revert s σ H. induction l as [|i l IH]; intros s σ H; simpl; [done|].
  unfold kbind. rewrite <- (Hb i s σ H). specialize (Hp i s σ H).
  destruct (b1 i s σ) as [[s'|e] σ']; simpl in *; [by apply IH|done].
Qed.

End Preserves.

(** Reads keep every property of the store; a write to an array keeps the
    properties that do not depend on that array. *)
Lemma preserves_shape0_of I r : preserves I (shape0_of r).
Proof. by intros σ H. Qed.

Lemma preserves_shape1_of I r : preserves I (shape1_of r).
Proof. by intros σ H. Qed.

Lemma preserves_load2 I r i j : preserves I (load2 r i j).
Proof. intros σ H. unfold load2. by destruct (mget (rd2 r σ) i j). Qed.

Lemma preserves_load1 I r i : preserves I (load1 r i).
Proof. intros σ H. unfold load1. by destruct (rd1 r σ !! i). Qed.

Lemma preserves_store2 (I : arrays → Prop) r i j v :
  (∀ a σ, I σ → I (wr2 r a σ)) → preserves I (store2 r i j v).
Proof. intros HI σ H. unfold store2. destruct (mset (rd2 r σ) i j v); simpl; auto. Qed.

Lemma preserves_store1 (I : arrays → Prop) r i v :
  (∀ b σ, I σ → I (wr1 r b σ)) → preserves I (store1 r i v).
Proof. intros HI σ H. unfold store1. destruct (vset (rd1 r σ) i v); simpl; auto. Qed.

Lemma preserves_fill2 (I : arrays → Prop) r v :
  (∀ a σ, I σ → I (wr2 r a σ)) → preserves I (fill2 r v).
Proof. intros HI σ H. by apply HI. Qed.

Lemma preserves_fill1 (I : arrays → Prop) r v :
  (∀ b σ, I σ → I (wr1 r b σ)) → preserves I (fill1 r v).
Proof. intros HI σ H. by apply HI. Qed.

Lemma preserves_iadd2 (I : arrays → Prop) r i j s :
  (∀ a σ, I σ → I (wr2 r a σ)) → preserves I (iadd2 r i j s).
Proof.
  intros HI. apply preserves_bind; [apply preserves_load2|].
  intros a. by apply preserves_store2.
Qed.

Lemma preserves_iadd1 (I : arrays → Prop) r i s :
  (∀ b σ, I σ → I (wr1 r b σ)) → preserves I (iadd1 r i s).
Proof.
  intros HI. apply preserves_bind; [apply preserves_load1|].
  intros a. by apply preserves_store1.
Qed.

Lemma preserves_idiv2 (I : arrays → Prop) r i j b l :
  (∀ a σ, I σ → I (wr2 r a σ)) → preserves I (idiv2 r i j b l).
Proof.
  intros HI. apply preserves_bind; [apply preserves_load2|]. intros a.
  apply preserves_bind; [apply preserves_load1|]. intros c.
  apply preserves_bind; [apply preserves_fdiv|]. intros q.
  by apply preserves_store2.
Qed.

(** The expectation step writes the posterior array only. *)
Lemma preserves_e_step_with (I : arrays → Prop) X_rows X_cols X_vals
    keep `{∀ v, Decision (keep v)} :
  (∀ a σ, I σ → I (wr2 PZWD a σ)) →
  preserves I (e_step_with X_rows X_cols X_vals keep).
Proof.
  intros HI. unfold e_step_with.
  apply preserves_bind; [apply preserves_shape0_of|]. intros k.
  apply preserves_for_range. intros nz.
  apply preserves_bind; [apply preserves_kopt|]. intros d.
  apply preserves_bind; [apply preserves_kopt|]. intros w.
  apply preserves_bind.
  - apply preserves_for_acc. intros z norm.
    apply preserves_bind; [apply preserves_load2|]. intros a.
    apply preserves_bind; [apply preserves_load2|]. intros b.
    cbv zeta. case_decide.
    + apply preserves_bind; [by apply preserves_store2|]. intros _.
      apply preserves_bind; [apply preserves_load2|]. intros c.
      apply preserves_ret.
    + apply preserves_bind; [by apply preserves_store2|]. intros _.
      apply preserves_ret.
  - intros norm. apply preserves_for_range. intros z.
    case_decide; [|apply preserves_ret].
    apply preserves_bind; [apply preserves_load2|]. intros c.
    apply preserves_bind; [apply preserves_fdiv|]. intros q.
    by apply preserves_store2.
Qed.

(** ** Zero threshold *)

Lemma mget_nonneg a i j x : nonneg a → mget a i j = Some x → 0 <= x.
Proof.
  intros Ha H. pose proof (at2_nonneg a i j Ha) as H0.
  unfold at2 in H0. by rewrite H in H0.
Qed.

Lemma kbind_cong_l {Σ A B} (c c' : Comp Σ A) (f : A → Comp Σ B) σ :
  c σ = c' σ → kbind c f σ = kbind c' f σ.
Proof. intros H. unfold kbind. by rewrite H. Qed.

Lemma kbind_load2 {B} r i j (f : Qc → Kern B) σ :
  (a <- load2 r i j ;; f a) σ =
  match mget (rd2 r σ) i j with
  | Some a => f a σ
  | None => (Raise OutOfBounds, σ)
  end.
Proof. unfold kbind, load2. by destruct (mget (rd2 r σ) i j). Qed.

(** Reading back the cell just written gives the value written. *)
Lemma store2_load2 {B} r i j v (f : Qc → Kern B) σ :
  (store2 r i j v ;;; c <- load2 r i j ;; f c) σ = (store2 r i j v ;;; f v) σ.
Proof.
  unfold kbind, store2, load2, mset.
  destruct (rowsOf (rd2 r σ) !! i) as [x|] eqn:E; [|done].
  case_decide as Hj; [|done].
  assert (mget (rd2 r (wr2 r (Matrix (ncols (rd2 r σ))
            (<[i := <[j := v]> x]> (rowsOf (rd2 r σ)))) σ)) i j = Some v) as ->; [|done].
  assert (∀ a, rd2 r (wr2 r a σ) = a) as -> by (by destruct r).
  unfold mget. simpl. apply lookup_lt_Some in E as Hi.
  rewrite list_lookup_insert_eq by done. by apply list_lookup_insert_eq.
Qed.

(** C6.  On a non-negative model, the expectation step run with the
    threshold 0 and the expectation step that never thresholds end in the
    same way and with the same store: the same posterior value for every
    nonzero entry and every topic. *)
Theorem zero_threshold_equivalence X_rows X_cols X_vals σ :
  nonneg (p_w_given_z σ) → nonneg (p_z_given_d σ) →
  plsa_e_step X_rows X_cols X_vals 0 σ = unthresholded_e_step X_rows X_cols X_vals σ.
Proof.
  intros Hw Hd.
  set (I := λ σ : arrays, nonneg (p_w_given_z σ) ∧ nonneg (p_z_given_d σ)).
  assert (∀ a σ, I σ → I (wr2 PZWD a σ)) as HI by done.
  assert (I σ) as H by done. clear Hw Hd.
  unfold plsa_e_step, unthresholded_e_step.
  apply (kbind_ext I); [done|apply preserves_shape0_of|].
  clear σ H. intros k σ H.
  unfold for_range, for_acc.
  apply (for_in_ext I); [done| |].
  { intros nz _. apply (preserves_bind I); [apply preserves_kopt|]. intros d.
    apply preserves_bind; [apply preserves_kopt|]. intros w.
    apply preserves_bind.
    - apply preserves_for_in. intros z norm.
      apply preserves_bind; [apply preserves_load2|]. intros a.
      apply preserves_bind; [apply preserves_load2|]. intros b.
      cbv zeta. case_decide.
      + apply preserves_bind; [by apply preserves_store2|]. intros _.
        apply preserves_bind; [apply preserves_load2|]. intros c.
        apply preserves_ret.
      + apply preserves_bind; [by apply preserves_store2|]. intros _.
        apply preserves_ret.
    - intros norm. apply preserves_for_in. intros z _.
      case_decide; [|apply preserves_ret].
      apply preserves_bind; [apply preserves_load2|]. intros c.
      apply preserves_bind; [apply preserves_fdiv|]. intros q.
      by apply preserves_store2. }
  clear σ H. intros nz [] σ H.
  apply (kbind_ext I); [done|apply preserves_kopt|]. clear σ H. intros d σ H.
  apply (kbind_ext I); [done|apply preserves_kopt|]. clear σ H. intros w σ H.
  assert (for_in (seq 0 k) (λ z norm,
            a <- load2 PWZ z w ;;
            b <- load2 PZD d z ;;
            let v := a * b in
            if decide (0 < v) then
              store2 PZWD nz z v ;;; c <- load2 PZWD nz z ;; kret (norm + c)
            else store2 PZWD nz z 0 ;;; kret norm) 0 σ =
          for_in (seq 0 k) (λ z norm,
            a <- load2 PWZ z w ;;
            b <- load2 PZD d z ;;
            let v := a * b in
            store2 PZWD nz z v ;;; kret (norm + v)) 0 σ) as Hloop.
  { apply (for_in_ext I); [done| |].
    - intros z norm.
      apply preserves_bind; [apply preserves_load2|]. intros a.
      apply preserves_bind; [apply preserves_load2|]. intros b.
      cbv zeta. case_decide.
      + apply preserves_bind; [by apply preserves_store2|]. intros _.
        apply preserves_bind; [apply preserves_load2|]. intros c.
        apply preserves_ret.
      + apply preserves_bind; [by apply preserves_store2|]. intros _.
        apply preserves_ret.
    - clear σ H. intros z norm σ H.
      rewrite !kbind_load2. simpl rd2.
      destruct (mget (p_w_given_z σ) z w) as [a|] eqn:Ea; [|done].
      rewrite !kbind_load2. simpl rd2.
      destruct (mget (p_z_given_d σ) d z) as [b|] eqn:Eb; [|done].
      cbv zeta.
      assert (0 <= a * b) as Hab.
      { destruct H as [Hw Hd].
        apply Qcmult_nonneg_nonneg; [exact (mget_nonneg _ _ _ _ Hw Ea)|exact (mget_nonneg _ _ _ _ Hd Eb)]. }
      case_decide as Hv.
      + apply (store2_load2 PZWD nz z (a * b) (λ c, kret (norm + c))).
      + assert (a * b = 0) as ->
          by (apply Qcle_antisym; [by apply Qcnot_lt_le|done]).
        by rewrite Qcplus_0_r. }
  by apply kbind_cong_l.
Qed.

(** ** The fixed topics of a refit *)

Section RefitFrame.

Variables (X_rows X_cols : list nat) (X_vals : list Qc).
Variable ln : Qc → Qc.
Variable normalize : matrix → matrix.

(** A property of the store that no write of a refit can break: it does
    not depend on the document-topic array, on the posterior array or on
    the accumulators. *)
Variable I : arrays → Prop.
Hypothesis I_pzd : ∀ a σ, I σ → I (wr2 PZD a σ).
Hypothesis I_pzwd : ∀ a σ, I σ → I (wr2 PZWD a σ).
Hypothesis I_norm : ∀ r b σ, I σ → I (wr1 r b σ).

Lemma preserves_refit_m_step : preserves I (plsa_refit_m_step X_rows X_cols X_vals).
Proof.
  unfold plsa_refit_m_step.
  apply preserves_bind; [apply preserves_shape1_of|]. intros k.
  apply preserves_bind; [apply preserves_shape0_of|]. intros n.
  apply preserves_bind; [apply preserves_fill2, I_pzd|]. intros _.
  apply preserves_bind; [apply preserves_fill1, I_norm|]. intros _.
  apply preserves_bind.
  - apply preserves_for_range. intros nz.
    apply preserves_bind; [apply preserves_kopt|]. intros d.
    apply preserves_bind; [apply preserves_kopt|]. intros w.
    apply preserves_bind; [apply preserves_kopt|]. intros x.
    apply preserves_for_range. intros z.
    apply preserves_bind; [apply preserves_load2|]. intros p.
    cbv zeta. apply preserves_bind; [apply preserves_iadd2, I_pzd|]. intros _.
    apply preserves_iadd1, I_norm.
  - intros _. apply preserves_for_range. intros z.
    apply preserves_for_range. intros d.
    apply preserves_bind; [apply preserves_load1|]. intros c.
    case_decide; [apply preserves_idiv2, I_pzd|apply preserves_ret].
Qed.

Lemma preserves_log_likelihood J :
  preserves J (log_likelihood X_rows X_cols X_vals ln).
Proof.
  unfold log_likelihood.
  apply preserves_bind; [apply preserves_shape0_of|]. intros k.
  apply preserves_for_acc. intros nz result.
  apply preserves_bind; [apply preserves_kopt|]. intros d.
  apply preserves_bind; [apply preserves_kopt|]. intros w.
  apply preserves_bind; [apply preserves_kopt|]. intros x.
  apply preserves_bind; [|intros p; apply preserves_ret].
  apply preserves_for_acc. intros z p.
  apply preserves_bind; [apply preserves_load2|]. intros a.
  apply preserves_bind; [apply preserves_load2|]. intros b.
  apply preserves_ret.
Qed.

Lemma preserves_refit_iteration t tol thr i prev :
  preserves I (refit_iteration X_rows X_cols X_vals ln t tol thr i prev).
Proof.
  unfold refit_iteration.
  apply preserves_bind.
  { rewrite plsa_e_step_with. apply preserves_e_step_with, I_pzwd. }
  intros _. apply preserves_bind; [apply preserves_refit_m_step|]. intros _.
  apply preserves_bind; [apply preserves_pymod|]. intros r.
  case_decide; [|apply preserves_ret].
  apply preserves_bind; [apply preserves_log_likelihood|]. intros cur.
  case_decide; [|apply preserves_ret].
  cbv zeta. apply preserves_bind; [apply preserves_fdiv|]. intros q.
  case_decide; apply preserves_ret.
Qed.

Lemma preserves_refit_body n_iter t tol thr :
  preserves I (refit_body X_rows X_cols X_vals ln normalize n_iter t tol thr).
Proof.
  unfold refit_body.
  apply preserves_bind; [intros σ H; by apply I_pzd|]. intros _.
  apply preserves_bind; [apply preserves_log_likelihood|]. intros prev.
  apply preserves_bind; [|intros _; apply preserves_kget].
  apply preserves_for_break. intros i s. apply preserves_refit_iteration.
Qed.

End RefitFrame.

(** C9.  Whatever its arguments, and however it ends, a refit leaves the
    topic-word array it was given as it was: the array at the end is the
    array at entry.  (The proof goes through every write of the
    initialisation, of the expectation steps, of the constrained
    maximisation steps and of the log-likelihood evaluations.) *)
Theorem refit_keeps_topics X_rows X_cols X_vals ln normalize topics draw
    n_documents n_iter n_iter_per_test tolerance e_step_thresh :
  p_w_given_z
    (plsa_refit X_rows X_cols X_vals ln normalize topics draw n_documents
       n_iter n_iter_per_test tolerance e_step_thresh).2 = topics.
Proof.
  unfold plsa_refit.
  apply (preserves_refit_body X_rows X_cols X_vals ln normalize
           (λ σ, p_w_given_z σ = topics)); try done.
  by intros [] b σ.
Qed.

(** ** The maximisation step: accumulation *)

Lemma vlookup_default (b : list Qc) i :
  (i < length b)%nat → b !! i = Some (default 0 (b !! i)).
Proof. intros H. by destruct (lookup_lt_is_Some_2 b i H) as [x ->]. Qed.

Section Accumulate.

Variables (X_rows X_cols : list nat) (X_vals : list Qc).
Variables (n m k nnz : nat).
Hypothesis Hnnz : nnz = length X_vals.
Hypothesis Hentries : entries_in X_rows X_cols X_vals n m.

Lemma m_add_exec σ z w d s :
  shaped σ n m k nnz → (z < k)%nat → (w < m)%nat → (d < n)%nat →
  wp (iadd2 PWZ z w s ;;; iadd2 PZD d z s ;;; iadd1 NPWZ z s ;;; iadd1 NPDZ d s)
     (λ _ σ', σ' = m_add σ z w d s) σ.
Proof.
  intros (Hpwz & Hpzd & Hpost & Hnw & Hnd) Hz Hw Hd.
  apply wp_bind. eapply wp_iadd2; [by eapply row_at2|].
  apply wp_bind. eapply wp_iadd2; [simpl; by eapply row_at2|].
  apply wp_bind. eapply wp_iadd1; [simpl; apply vlookup_default; lia|].
  eapply wp_iadd1; [simpl; apply vlookup_default; lia|]. done.
Qed.

Lemma refit_add_exec σ z d s :
  has_shape (p_z_given_d σ) n k → length (norm_pdz σ) = n →
  (z < k)%nat → (d < n)%nat →
  wp (iadd2 PZD d z s ;;; iadd1 NPDZ d s) (λ _ σ', σ' = refit_add σ z d s) σ.
Proof.
  intros Hpzd Hnd Hz Hd.
  apply wp_bind. eapply wp_iadd2; [by eapply row_at2|].
  eapply wp_iadd1; [simpl; apply vlookup_default; lia|]. done.
Qed.

(** The accumulation loop keeps every property [J] of the store that
    implies the shapes and that each group of four additions keeps. *)
Lemma m_accumulate (J : arrays → Prop) σ :
  (∀ σ, J σ → shaped σ n m k nnz) →
  (∀ σ nz d w x z, J σ →
     X_rows !! nz = Some d → X_cols !! nz = Some w → X_vals !! nz = Some x →
     (z < k)%nat → J (m_add σ z w d (x * at2 (p_z_given_wd σ) nz z))) →
  J σ →
  wp (for_range (length X_vals) (λ nz_idx,
        d <- index X_rows nz_idx ;;
        w <- index X_cols nz_idx ;;
        x <- index X_vals nz_idx ;;
        for_range k (λ z,
          p <- load2 PZWD nz_idx z ;;
          let s := x * p in
          iadd2 PWZ z w s ;;;
          iadd2 PZD d z s ;;;
          iadd1 NPWZ z s ;;;
          iadd1 NPDZ d s)))
     (λ _ σ', J σ') σ.
Proof.
  intros Hshape Hstep H0. destruct Hentries as (Hlr & Hlc & Hrows & Hcols).
  apply (wp_for_range (λ _, J)); [done|].
  intros nz σ1 Hnz H1.
  destruct (lookup_lt_is_Some_2 X_rows nz) as [d Hd]; [lia|].
  destruct (lookup_lt_is_Some_2 X_cols nz) as [w Hw]; [lia|].
  destruct (lookup_lt_is_Some_2 X_vals nz) as [x Hx]; [lia|].
  pose proof (Forall_lookup_1 _ _ _ _ Hrows Hd) as Hdn.
  pose proof (Forall_lookup_1 _ _ _ _ Hcols Hw) as Hwm.
  apply wp_bind. eapply wp_index; [exact Hd|].
  apply wp_bind. eapply wp_index; [exact Hw|].
  apply wp_bind. eapply wp_index; [exact Hx|].
  apply (wp_for_range (λ _, J)); [done|].
  intros z σ2 Hz H2. pose proof (Hshape σ2 H2) as Hsh2.
  apply wp_bind. eapply wp_load2.
  { simpl. eapply row_at2; [apply Hsh2|lia|done]. }
  cbv zeta. eapply wp_mono; [by apply m_add_exec|].
  intros _ σ3 ->. by apply Hstep.
Qed.

Lemma refit_accumulate (J : arrays → Prop) σ :
  (∀ σ, J σ → refit_shaped σ n m k nnz) →
  (∀ σ nz d x z, J σ →
     X_rows !! nz = Some d → X_vals !! nz = Some x →
     (z < k)%nat → J (refit_add σ z d (x * at2 (p_z_given_wd σ) nz z))) →
  J σ →
  wp (for_range (length X_vals) (λ nz_idx,
        d <- index X_rows nz_idx ;;
        w <- index X_cols nz_idx ;;
        x <- index X_vals nz_idx ;;
        for_range k (λ z,
          p <- load2 PZWD nz_idx z ;;
          let s := x * p in
          iadd2 PZD d z s ;;;
          iadd1 NPDZ d s)))
     (λ _ σ', J σ') σ.
Proof.
  intros Hshape Hstep H0. destruct Hentries as (Hlr & Hlc & Hrows & Hcols).
  apply (wp_for_range (λ _, J)); [done|].
  intros nz σ1 Hnz H1.
  destruct (lookup_lt_is_Some_2 X_rows nz) as [d Hd]; [lia|].
  destruct (lookup_lt_is_Some_2 X_cols nz) as [w Hw]; [lia|].
  destruct (lookup_lt_is_Some_2 X_vals nz) as [x Hx]; [lia|].
  pose proof (Forall_lookup_1 _ _ _ _ Hrows Hd) as Hdn.
  apply wp_bind. eapply wp_index; [exact Hd|].
  apply wp_bind. eapply wp_index; [exact Hw|].
  apply wp_bind. eapply wp_index; [exact Hx|].
  apply (wp_for_range (λ _, J)); [done|].
  intros z σ2 Hz H2. pose proof (Hshape σ2 H2) as Hsh2.
  apply wp_bind. eapply wp_load2.
  { simpl. eapply row_at2; [apply Hsh2|lia|done]. }
  cbv zeta. eapply wp_mono.
  { apply refit_add_exec; [apply Hsh2|apply Hsh2|done..]. }
  intros _ σ3 ->. by apply Hstep.
Qed.

End Accumulate.

(** ** The maximisation step: normalisation *)

Lemma scaled_0 c r : scaled c 0 r = r.
Proof. unfold scaled. by case_decide. Qed.

Lemma scaled_all c z r : (length r ≤ z)%nat → scaled c z r = scale_row c r.
Proof.
  intros H. unfold scaled, scale_row. case_decide; [|done]. by apply partial_map_all.
Qed.

Lemma scaled_length c z r : length (scaled c z r) = length r.
Proof. unfold scaled. case_decide; [|done]. apply partial_map_length. Qed.

Lemma vat_lookup (b : list Qc) i : (i < length b)%nat → b !! i = Some (vat b i).
Proof. apply vlookup_default. Qed.

Section Normalise.

Variables (n m k : nat).

(** The loop over the words of topic [z]: row [z] of the topic-word array
    is divided by the accumulator of the topic when it is positive. *)
Lemma m_scale_pwz_row σ z :
  has_shape (p_w_given_z σ) k m → length (norm_pwz σ) = k → (z < k)%nat →
  wp (for_range m (λ w,
        c <- load1 NPWZ z ;;
        if decide (0 < c) then idiv2 PWZ z w NPWZ z else kret tt))
     (λ _ σ', ∃ a, σ' = wr2 PWZ a σ ∧ has_shape a k m ∧
        (∀ i, i ≠ z → row a i = row (p_w_given_z σ) i) ∧
        row a z = scale_row (vat (norm_pwz σ) z) (row (p_w_given_z σ) z)) σ.
Proof.
  intros Hsh Hlen Hz.
  set (c := vat (norm_pwz σ) z). set (r0 := row (p_w_given_z σ) z).
  assert (length r0 = m) as Hr0 by (by eapply row_length).
  eapply wp_mono.
  - apply (wp_for_range (λ w σ', ∃ a, σ' = wr2 PWZ a σ ∧ has_shape a k m ∧
        (∀ i, i ≠ z → row a i = row (p_w_given_z σ) i) ∧
        row a z = scaled c w r0)).
    { exists (p_w_given_z σ). split; [by destruct σ|]. split; [done|].
      split; [done|]. by rewrite scaled_0. }
    intros w σ' Hw (a & -> & Ha & Hoth & Hrow).
    assert (z < length (rowsOf a))%nat as Hz' by (destruct Ha as (_ & -> & _); done).
    apply wp_bind. eapply wp_load1; [simpl; by apply vat_lookup; lia|]. fold c.
    unfold scaled in *. case_decide as Hc; [|apply wp_ret; by exists a].
    destruct (lookup_lt_is_Some_2 r0 w) as [x Hx]; [lia|].
    unfold idiv2. apply wp_bind. eapply wp_load2.
    { simpl. rewrite Hrow, partial_map_lookup. exact Hx. }
    apply wp_bind. eapply wp_load1; [simpl; by apply vat_lookup; lia|]. fold c.
    apply wp_bind. apply wp_fdiv.
    { intros E. rewrite E in Hc. by apply Qclt_not_eq in Hc. }
    apply wp_store2.
    { simpl. rewrite Hrow, partial_map_length. lia. }
    simpl. eexists. split; [reflexivity|]. split.
    { apply has_shape_insert; [done|].
      by rewrite length_insert, Hrow, partial_map_length. }
    split; [intros i Hi; rewrite row_insert, decide_False by done; by apply Hoth|].
    rewrite row_insert, decide_True by done.
    rewrite Hrow. by apply (partial_map_step (λ x, x / c)).
  - intros _ σ' (a & -> & Ha & Hoth & Hrow). exists a.
    split; [done|]. split; [done|]. split; [done|].
    rewrite Hrow. apply scaled_all. lia.
Qed.

(** The loop over the documents for topic [z]: in every row of the
    document-topic array, the element of the topic is divided by the
    accumulator of the document when it is positive. *)
Lemma m_scale_pzd_col σ z (R : nat → list Qc) :
  has_shape (p_z_given_d σ) n k → length (norm_pdz σ) = n → (z < k)%nat →
  (∀ d, (d < n)%nat → length (R d) = k) →
  (∀ d, (d < n)%nat → row (p_z_given_d σ) d = scaled (vat (norm_pdz σ) d) z (R d)) →
  wp (for_range n (λ d,
        c <- load1 NPDZ d ;;
        if decide (0 < c) then idiv2 PZD d z NPDZ d else kret tt))
     (λ _ σ', ∃ b, σ' = wr2 PZD b σ ∧ has_shape b n k ∧
        ∀ d, (d < n)%nat → row b d = scaled (vat (norm_pdz σ) d) (S z) (R d)) σ.
Proof.
  intros Hsh Hlen Hz HR Hrows.
  eapply wp_mono.
  - apply (wp_for_range (λ d σ', ∃ b, σ' = wr2 PZD b σ ∧ has_shape b n k ∧
        ∀ d', (d' < n)%nat →
          row b d' = scaled (vat (norm_pdz σ) d')
                       (if decide (d' < d)%nat then S z else z) (R d'))).
    { exists (p_z_given_d σ). split; [by destruct σ|]. split; [done|].
      intros d' Hd'. rewrite decide_False by lia. by apply Hrows. }
    intros d σ' Hd (b & -> & Hb & Hrow').
    assert (d < length (rowsOf b))%nat as Hd' by (destruct Hb as (_ & -> & _); done).
    pose proof (Hrow' d Hd) as Hrd. rewrite decide_False in Hrd by lia.
    set (c := vat (norm_pdz σ) d) in *.
    apply wp_bind. eapply wp_load1; [simpl; by apply vat_lookup; lia|]. fold c.
    case_decide as Hc.
    + unfold scaled in Hrd. rewrite decide_True in Hrd by done.
      destruct (lookup_lt_is_Some_2 (R d) z) as [x Hx]; [rewrite HR; lia|].
      unfold idiv2. apply wp_bind. eapply wp_load2.
      { simpl. rewrite Hrd, partial_map_lookup. exact Hx. }
      apply wp_bind. eapply wp_load1; [simpl; by apply vat_lookup; lia|]. fold c.
      apply wp_bind. apply wp_fdiv.
      { intros E. rewrite E in Hc. by apply Qclt_not_eq in Hc. }
      apply wp_store2.
      { simpl. rewrite Hrd, partial_map_length, HR; lia. }
      simpl. eexists. split; [reflexivity|]. split.
      { apply has_shape_insert; [done|].
        rewrite length_insert, Hrd, partial_map_length. by apply HR. }
      intros d' Hd'n. rewrite row_insert by done.
      destruct (decide (d' = d)) as [->|Hne].
      * rewrite decide_True by lia. rewrite Hrd.
        unfold scaled. rewrite decide_True by done.
        by apply (partial_map_step (λ x, x / c)).
      * rewrite (Hrow' d' Hd'n).
        destruct (decide (d' < d)%nat); [rewrite decide_True by lia|rewrite decide_False by lia]; done.
    + apply wp_ret. exists b. split; [done|]. split; [done|].
      intros d' Hd'n. destruct (decide (d' = d)) as [->|Hne].
      * rewrite Hrd. unfold scaled. fold c. by rewrite !decide_False by done.
      * rewrite (Hrow' d' Hd'n).
        destruct (decide (d' < d)%nat); [rewrite decide_True by lia|rewrite decide_False by lia]; done.
  - intros _ σ' (b & -> & Hb & Hrow'). exists b. split; [done|]. split; [done|].
    intros d Hd. rewrite (Hrow' d Hd). by rewrite decide_True by lia.
Qed.

End Normalise.

Section NormaliseAll.

Variables (n m k nnz : nat).

(** The normalisation of the maximisation step: every row of each array
    is divided by its accumulator when the accumulator is positive. *)
Lemma m_normalise σ :
  shaped σ n m k nnz →
  wp (for_range k (λ z,
        for_range m (λ w,
          c <- load1 NPWZ z ;;
          if decide (0 < c) then idiv2 PWZ z w NPWZ z else kret tt) ;;;
        for_range n (λ d,
          c <- load1 NPDZ d ;;
          if decide (0 < c) then idiv2 PZD d z NPDZ d else kret tt)))
     (λ _ σ', ∃ a b, σ' = wr2 PZD b (wr2 PWZ a σ) ∧
        has_shape a k m ∧ has_shape b n k ∧
        (∀ z, (z < k)%nat →
           row a z = scale_row (vat (norm_pwz σ) z) (row (p_w_given_z σ) z)) ∧
        (∀ d, (d < n)%nat →
           row b d = scale_row (vat (norm_pdz σ) d) (row (p_z_given_d σ) d))) σ.
Proof.
  intros (Hpwz & Hpzd & Hpost & Hnw & Hnd).
  eapply wp_mono.
  - apply (wp_for_range (λ z σ', ∃ a b, σ' = wr2 PZD b (wr2 PWZ a σ) ∧
        has_shape a k m ∧ has_shape b n k ∧
        (∀ i, (i < k)%nat →
           row a i = if decide (i < z)%nat
                     then scale_row (vat (norm_pwz σ) i) (row (p_w_given_z σ) i)
                     else row (p_w_given_z σ) i) ∧
        (∀ d, (d < n)%nat →
           row b d = scaled (vat (norm_pdz σ) d) z (row (p_z_given_d σ) d)))).
    { exists (p_w_given_z σ), (p_z_given_d σ). split; [by destruct σ|].
      split; [done|]. split; [done|]. split.
      - intros i Hi. by rewrite decide_False by lia.
      - intros d Hd. by rewrite scaled_0. }
    intros z σ' Hz (a & b & -> & Ha & Hb & Hra & Hrb).
    apply wp_bind. eapply wp_mono.
    { apply (m_scale_pwz_row m k); [exact Ha|exact Hnw|exact Hz]. }
    intros _ σ1 (a' & -> & Ha' & Hoth & Hrz). simpl.
    eapply wp_mono.
    { apply (m_scale_pzd_col n k _ z (λ d, row (p_z_given_d σ) d));
        [exact Hb|exact Hnd|exact Hz| |exact Hrb].
      intros d Hd. by eapply row_length. }
    intros _ σ2 (b' & -> & Hb' & Hrb'). simpl.
    exists a', b'. split; [done|]. split; [done|]. split; [done|]. split; [|done].
    intros i Hi. destruct (decide (i = z)) as [->|Hne].
    + rewrite decide_True by lia. rewrite Hrz, Hra by done.
      by rewrite decide_False by lia.
    + rewrite Hoth, Hra by done.
      destruct (decide (i < z)%nat); [rewrite decide_True by lia|rewrite decide_False by lia]; done.
  - intros _ σ' (a & b & -> & Ha & Hb & Hra & Hrb). exists a, b.
    split; [done|]. split; [done|]. split; [done|]. split.
    + intros z Hz. rewrite Hra by done. by rewrite decide_True by lia.
    + intros d Hd. rewrite Hrb by done. apply scaled_all.
      by rewrite (row_length _ _ _ _ Hpzd Hd).
Qed.

(** The normalisation of the constrained step: the document side only. *)
Lemma refit_normalise σ :
  refit_shaped σ n m k nnz →
  wp (for_range k (λ z,
        for_range n (λ d,
          c <- load1 NPDZ d ;;
          if decide (0 < c) then idiv2 PZD d z NPDZ d else kret tt)))
     (λ _ σ', ∃ b, σ' = wr2 PZD b σ ∧ has_shape b n k ∧
        (∀ d, (d < n)%nat →
           row b d = scale_row (vat (norm_pdz σ) d) (row (p_z_given_d σ) d))) σ.
Proof.
  intros (Hpwz & Hpzd & Hpost & Hnd).
  eapply wp_mono.
  - apply (wp_for_range (λ z σ', ∃ b, σ' = wr2 PZD b σ ∧ has_shape b n k ∧
        (∀ d, (d < n)%nat →
           row b d = scaled (vat (norm_pdz σ) d) z (row (p_z_given_d σ) d)))).
    { exists (p_z_given_d σ). split; [by destruct σ|]. split; [done|].
      intros d Hd. by rewrite scaled_0. }
    intros z σ' Hz (b & -> & Hb & Hrb).
    eapply wp_mono.
    { apply (m_scale_pzd_col n k _ z (λ d, row (p_z_given_d σ) d));
        [exact Hb|exact Hnd|exact Hz| |exact Hrb].
      intros d Hd. by eapply row_length. }
    intros _ σ2 (b' & -> & Hb' & Hrb'). simpl.
    exists b'. split; [done|]. split; done.
  - intros _ σ' (b & -> & Hb & Hrb). exists b.
    split; [done|]. split; [done|].
    intros d Hd. rewrite Hrb by done. apply scaled_all.
    by rewrite (row_length _ _ _ _ Hpzd Hd).
Qed.

End NormaliseAll.

(** ** The maximisation step as a whole *)

Lemma matrix_ext a b n m :
  has_shape a n m → has_shape b n m →
  (∀ i, (i < n)%nat → row a i = row b i) → a = b.
Proof.
  destruct a as [ca ra], b as [cb rb]. unfold has_shape, row. simpl.
  intros (-> & Hna & _) (-> & Hnb & _) H. f_equal.
  apply list_eq. intros i. destruct (decide (i < n)%nat) as [Hi|Hi].
  - specialize (H i Hi).
    destruct (lookup_lt_is_Some_2 ra i) as [x Hx]; [lia|].
    destruct (lookup_lt_is_Some_2 rb i) as [y Hy]; [lia|].
    rewrite Hx, Hy in *. simpl in H. by rewrite H.
  - rewrite !lookup_ge_None_2 by lia. done.
Qed.

Lemma row_zeros2 n m i : (i < n)%nat → row (zeros2 n m) i = replicate m 0.
Proof. intros Hi. unfold row, zeros2. simpl. by rewrite lookup_replicate_2. Qed.

Lemma mfill_zeros a n m : has_shape a n m → mfill a 0 = zeros2 n m.
Proof.
  intros Ha. apply (matrix_ext _ _ n m).
  - by apply has_shape_mfill.
  - apply has_shape_zeros2.
  - intros i Hi. rewrite (row_mfill a n m) by done. by rewrite row_zeros2.
Qed.

Lemma shaped_m_zeroed σ n m k nnz : shaped σ n m k nnz → shaped (m_zeroed σ) n m k nnz.
Proof.
  intros (Hpwz & Hpzd & Hpost & Hnw & Hnd). unfold shaped, m_zeroed. simpl.
  split; [by apply has_shape_mfill|]. split; [by apply has_shape_mfill|].
  split; [done|]. unfold vfill. by rewrite !length_map.
Qed.

Lemma shaped_refit_zeroed σ n m k nnz :
  refit_shaped σ n m k nnz → refit_shaped (refit_zeroed σ) n m k nnz.
Proof.
  intros (Hpwz & Hpzd & Hpost & Hnd). unfold refit_shaped, refit_zeroed. simpl.
  split; [done|]. split; [by apply has_shape_mfill|].
  split; [done|]. unfold vfill. by rewrite !length_map.
Qed.

Section MaximisationStep.

Variables (X_rows X_cols : list nat) (X_vals : list Qc).
Variables (n m k nnz : nat).
Hypothesis Hnnz : nnz = length X_vals.
Hypothesis Hentries : entries_in X_rows X_cols X_vals n m.

(** The maximisation step succeeds on well-shaped arrays.  Its result is
    the normalisation of a store that satisfies every property [J] that
    holds once the arrays are zeroed and that the additions keep. *)
Lemma m_step_inv (J : arrays → Prop) σ :
  shaped σ n m k nnz →
  (∀ σ, J σ → shaped σ n m k nnz) →
  (∀ σ nz d w x z, J σ →
     X_rows !! nz = Some d → X_cols !! nz = Some w → X_vals !! nz = Some x →
     (z < k)%nat → J (m_add σ z w d (x * at2 (p_z_given_wd σ) nz z))) →
  J (m_zeroed σ) →
  wp (plsa_m_step X_rows X_cols X_vals)
     (λ _ σ', ∃ σ1 a b, J σ1 ∧ σ' = wr2 PZD b (wr2 PWZ a σ1) ∧
        has_shape a k m ∧ has_shape b n k ∧
        (∀ z, (z < k)%nat →
           row a z = scale_row (vat (norm_pwz σ1) z) (row (p_w_given_z σ1) z)) ∧
        (∀ d, (d < n)%nat →
           row b d = scale_row (vat (norm_pdz σ1) d) (row (p_z_given_d σ1) d))) σ.
Proof.
  intros Hsh HJ Hstep H0. pose proof Hsh as (Hpwz & Hpzd & Hpost & Hnw & Hnd).
  unfold plsa_m_step.
  apply wp_bind, wp_shape1_of. simpl.
  replace (shape1 (p_z_given_wd σ)) with k by (symmetry; apply Hpost).
  apply wp_bind, wp_shape0_of. simpl.
  replace (shape0 (p_z_given_d σ)) with n by (symmetry; apply Hpzd).
  apply wp_bind, wp_shape1_of. simpl.
  replace (shape1 (p_w_given_z σ)) with m by (symmetry; apply Hpwz).
  apply wp_bind, wp_fill2. apply wp_bind, wp_fill2.
  apply wp_bind, wp_fill1. apply wp_bind, wp_fill1. simpl.
  match goal with |- wp _ _ ?s => change s with (m_zeroed σ) end.
  apply wp_bind. eapply wp_mono.
  { by apply (m_accumulate X_rows X_cols X_vals n m k nnz Hnnz Hentries J). }
  intros [] σ1 H1. simpl in H1 |- *.
  eapply wp_mono; [apply (m_normalise n m k nnz), HJ, H1|].
  intros _ σ' (a & b & E & Ha & Hb & Hra & Hrb). by exists σ1, a, b.
Qed.

Lemma refit_m_step_inv (J : arrays → Prop) σ :
  refit_shaped σ n m k nnz →
  (∀ σ, J σ → refit_shaped σ n m k nnz) →
  (∀ σ nz d x z, J σ →
     X_rows !! nz = Some d → X_vals !! nz = Some x →
     (z < k)%nat → J (refit_add σ z d (x * at2 (p_z_given_wd σ) nz z))) →
  J (refit_zeroed σ) →
  wp (plsa_refit_m_step X_rows X_cols X_vals)
     (λ _ σ', ∃ σ1 b, J σ1 ∧ σ' = wr2 PZD b σ1 ∧ has_shape b n k ∧
        (∀ d, (d < n)%nat →
           row b d = scale_row (vat (norm_pdz σ1) d) (row (p_z_given_d σ1) d))) σ.
Proof.
  intros Hsh HJ Hstep H0. pose proof Hsh as (Hpwz & Hpzd & Hpost & Hnd).
  unfold plsa_refit_m_step.
  apply wp_bind, wp_shape1_of. simpl.
  replace (shape1 (p_z_given_wd σ)) with k by (symmetry; apply Hpost).
  apply wp_bind, wp_shape0_of. simpl.
  replace (shape0 (p_z_given_d σ)) with n by (symmetry; apply Hpzd).
  apply wp_bind, wp_fill2. apply wp_bind, wp_fill1. simpl.
  match goal with |- wp _ _ ?s => change s with (refit_zeroed σ) end.
  apply wp_bind. eapply wp_mono.
  { by apply (refit_accumulate X_rows X_cols X_vals n m k nnz Hnnz Hentries J). }
  intros [] σ1 H1. simpl in H1 |- *.
  eapply wp_mono; [apply (refit_normalise n m k nnz), HJ, H1|].
  intros _ σ' (b & E & Hb & Hrb). by exists σ1, b.
Qed.

End MaximisationStep.

(** *** Additions *)

Lemma nonneg_row a i : nonneg a → Forall (λ x, 0 <= x) (row a i).
Proof.
  intros Ha. unfold row. destruct (rowsOf a !! i) as [r|] eqn:E; simpl; [|done].
  apply (Forall_lookup_1 _ _ _ _ Ha E).
Qed.

Lemma nonneg_madd a i j s : nonneg a → 0 <= s → nonneg (madd a i j s).
Proof.
  intros Ha Hs. unfold nonneg, madd. simpl.
  apply Forall_insert; [done|]. apply Forall_insert; [by apply nonneg_row|].
  apply Qcplus_nonneg_nonneg; [by apply at2_nonneg|done].
Qed.

Lemma has_shape_madd a n m i j s :
  has_shape a n m → (i < n)%nat → has_shape (madd a i j s) n m.
Proof.
  intros Ha Hi. apply has_shape_insert; [done|].
  rewrite length_insert. by eapply row_length.
Qed.

Lemma row_madd a n m i j s i' :
  has_shape a n m → (i < n)%nat →
  row (madd a i j s) i' =
  if decide (i' = i) then <[j := at2 a i j + s]> (row a i) else row a i'.
Proof. intros Ha Hi. apply row_insert. destruct Ha as (_ & -> & _). done. Qed.

Lemma vsum_row_madd a n m i j s :
  has_shape a n m → (i < n)%nat → (j < m)%nat →
  vsum (row (madd a i j s) i) = vsum (row a i) + s.
Proof.
  intros Ha Hi Hj. rewrite (row_madd a n m) by done. rewrite decide_True by done.
  rewrite (vsum_insert _ _ (at2 a i j)) by (by eapply row_at2). ring.
Qed.

Lemma vat_vadd b i s i' :
  (i < length b)%nat →
  vat (vadd b i s) i' = if decide (i' = i) then vat b i + s else vat b i'.
Proof.
  intros Hi. unfold vat, vadd. case_decide as E.
  - subst. by rewrite list_lookup_insert_eq.
  - by rewrite list_lookup_insert_ne.
Qed.

Lemma shaped_m_add σ n m k nnz z w d s :
  shaped σ n m k nnz → (z < k)%nat → (d < n)%nat →
  shaped (m_add σ z w d s) n m k nnz.
Proof.
  intros (Hpwz & Hpzd & Hpost & Hnw & Hnd) Hz Hd. unfold shaped, m_add, vadd. simpl.
  split; [by apply has_shape_madd|]. split; [by apply has_shape_madd|].
  split; [done|]. by rewrite !length_insert.
Qed.

Lemma shaped_refit_add σ n m k nnz z d s :
  refit_shaped σ n m k nnz → (d < n)%nat →
  refit_shaped (refit_add σ z d s) n m k nnz.
Proof.
  intros (Hpwz & Hpzd & Hpost & Hnd) Hd. unfold refit_shaped, refit_add, vadd. simpl.
  split; [done|]. split; [by apply has_shape_madd|].
  split; [done|]. by rewrite !length_insert.
Qed.

(** ** A threshold above every product *)

Lemma at2_zeros2 n m i j : at2 (zeros2 n m) i j = 0.
Proof.
  unfold at2, mget, zeros2. simpl.
  destruct (replicate n (replicate m 0) !! i) as [r|] eqn:E; [|done].
  apply lookup_replicate in E as [-> _].
  destruct (replicate m 0 !! j) as [x|] eqn:E'; [|done].
  by apply lookup_replicate in E' as [-> _].
Qed.

Lemma madd_zeros2 n m i j : madd (zeros2 n m) i j 0 = zeros2 n m.
Proof.
  unfold madd. rewrite at2_zeros2, Qcplus_0_r.
  destruct (decide (i < n)%nat) as [Hi|Hi].
  - rewrite row_zeros2 by done. unfold zeros2. simpl. by rewrite !insert_replicate.
  - unfold zeros2. simpl. f_equal. apply list_insert_ge. rewrite length_replicate. lia.
Qed.

Lemma vadd_zeros1 n i : vadd (zeros1 n) i 0 = zeros1 n.
Proof.
  unfold vadd, zeros1. destruct (decide (i < n)%nat) as [Hi|Hi].
  - rewrite lookup_replicate_2 by done. simpl. rewrite Qcplus_0_r.
    apply insert_replicate.
  - apply list_insert_ge. rewrite length_replicate. lia.
Qed.

(** C1, amended.  When the threshold is larger than every product
    P(w|z)·P(z|d) of the model, the expectation step writes an all-zero
    posterior array and leaves the model as it was; the maximisation step
    run on it then ends without a failure, every guarded division being
    skipped, and leaves both the topic-word array and the document-topic
    array all zero (it zeroes them first and adds nothing to them). *)
Theorem degenerate_threshold X_rows X_cols X_vals thr n m k σ :
  shaped σ n m k (length X_vals) →
  entries_in X_rows X_cols X_vals n m →
  (∀ z d w, (z < k)%nat → (d < n)%nat → (w < m)%nat →
     at2 (p_w_given_z σ) z w * at2 (p_z_given_d σ) d z < thr) →
  ∃ σ1 σ2,
    plsa_e_step X_rows X_cols X_vals thr σ = (Ok tt, σ1) ∧
    p_z_given_wd σ1 = zeros2 (length X_vals) k ∧
    p_w_given_z σ1 = p_w_given_z σ ∧ p_z_given_d σ1 = p_z_given_d σ ∧
    plsa_m_step X_rows X_cols X_vals σ1 = (Ok tt, σ2) ∧
    p_w_given_z σ2 = zeros2 k m ∧ p_z_given_d σ2 = zeros2 n k.
Proof.
  intros Hsh Hent Hthr. pose proof Hent as (Hlr & Hlc & Hrows & Hcols).
  rewrite plsa_e_step_with.
  destruct (e_step_with_spec X_rows X_cols X_vals (λ v, thr < v) n m k _ σ
              (shaped_refit_shaped _ _ _ _ _ Hsh) eq_refl Hent) as ([] & σ1 & Hrun & Hfr & Hshape & Hrow).
  assert (p_z_given_wd σ1 = zeros2 (length X_vals) k) as Hpost.
  { apply (matrix_ext _ _ (length X_vals) k); [done|apply has_shape_zeros2|].
    intros nz Hnz. rewrite row_zeros2 by done.
    destruct (lookup_lt_is_Some_2 X_rows nz) as [d Hd]; [lia|].
    destruct (lookup_lt_is_Some_2 X_cols nz) as [w Hw]; [lia|].
    pose proof (Forall_lookup_1 _ _ _ _ Hrows Hd) as Hdn.
    pose proof (Forall_lookup_1 _ _ _ _ Hcols Hw) as Hwm.
    rewrite (Hrow nz d w Hd Hw). unfold e_row.
    rewrite e_products_below; [apply scale_row_zeros|].
    intros z Hz. apply Qclt_le_weak. by apply Hthr. }
  destruct Hfr as (Ew & Ed & Enw & End).
  assert (shaped σ1 n m k (length X_vals)) as Hsh1.
  { destruct Hsh as (? & ? & ? & ? & ?). unfold shaped.
    rewrite Ew, Ed, Enw, End. done. }
  set (Z := Arrays (zeros2 k m) (zeros2 n k) (zeros2 (length X_vals) k)
                   (zeros1 k) (zeros1 n)).
  assert (shaped Z n m k (length X_vals)) as HshZ.
  { unfold shaped, Z, zeros1. simpl. rewrite !length_replicate.
    auto using has_shape_zeros2. }
  destruct (m_step_inv X_rows X_cols X_vals n m k _ eq_refl Hent (λ σ', σ' = Z) σ1 Hsh1)
    as ([] & σ2 & Hrun2 & σ' & a & b & -> & -> & Ha & Hb & Hra & Hrb).
  - by intros ? ->.
  - intros ? nz d w x z -> _ _ _ _. unfold m_add, Z. simpl.
    rewrite at2_zeros2, Qcmult_0_r.
    by rewrite !madd_zeros2, !vadd_zeros1.
  - destruct Hsh1 as (Hpwz & Hpzd & _ & Hnw & Hnd). unfold m_zeroed, Z.
    rewrite (mfill_zeros _ _ _ Hpwz), (mfill_zeros _ _ _ Hpzd), !vfill_replicate.
    by rewrite Hpost, Hnw, Hnd.
  - exists σ1, (wr2 PZD b (wr2 PWZ a Z)).
    split; [done|]. split; [done|]. split; [done|]. split; [done|].
    split; [done|]. simpl. split.
    + apply (matrix_ext _ _ k m); [done|apply has_shape_zeros2|].
      intros z Hz. rewrite Hra by done. simpl.
      rewrite !row_zeros2 by done. apply scale_row_zeros.
    + apply (matrix_ext _ _ n k); [done|apply has_shape_zeros2|].
      intros d Hd. rewrite Hrb by done. simpl.
      rewrite !row_zeros2 by done. apply scale_row_zeros.
Qed.

(** ** Examples of the steps *)

Lemma ex_store_shaped : shaped ex_store 2 2 2 (length ex_vals).
Proof. by_decide. Qed.

Lemma ex_entries_in : entries_in ex_rows ex_cols ex_vals 2 2.
Proof. by_decide. Qed.

Lemma ex2_store_shaped : shaped ex2_store 2 2 2 (length ex2_vals).
Proof. by_decide. Qed.

Lemma ex2_entries_in : entries_in ex2_rows ex2_cols ex2_vals 2 2.
Proof. by_decide. Qed.

(** The expectation step on the example, with the threshold 0: the row of
    each entry is the products P(w|z)·P(z|d) over their sum. *)
Example e_step_example :
  plsa_e_step ex_rows ex_cols ex_vals 0 ex_store =
  (Ok tt, wr2 PZWD (Matrix 2 [[Q2Qc (2 # 3); Q2Qc (1 # 3)];
                             [Q2Qc (2 # 5); Q2Qc (3 # 5)];
                             [1; 0]]) ex_store).
Proof. by_compute. Qed.

(** The maximisation step on those posteriors: the rows of both arrays sum
    to 1, and the accumulators hold the mass of each topic and document. *)
Example m_step_example :
  (plsa_e_step ex_rows ex_cols ex_vals 0 ;;; plsa_m_step ex_rows ex_cols ex_vals)
    ex_store =
  (Ok tt,
   Arrays (Matrix 2 [[Q2Qc (10 # 37); Q2Qc (27 # 37)];
                     [Q2Qc (5 # 23); Q2Qc (18 # 23)]])
          (Matrix 2 [[Q2Qc (22 # 45); Q2Qc (23 # 45)]; [1; 0]])
          (Matrix 2 [[Q2Qc (2 # 3); Q2Qc (1 # 3)];
                     [Q2Qc (2 # 5); Q2Qc (3 # 5)];
                     [1; 0]])
          [Q2Qc (37 # 15); Q2Qc (23 # 15)] [Q2Qc 3; 1]).
Proof. by_compute. Qed.

(** An entry outside the arrays is a failure, and the store is kept. *)
Example e_step_out_of_bounds :
  plsa_e_step [5; 0]%nat [0; 0]%nat [1; 1] 0 ex_store = (Raise OutOfBounds, ex_store).
Proof. by_compute. Qed.

Lemma ex_products_below_2 z d w :
  (z < 2)%nat → (d < 2)%nat → (w < 2)%nat →
  at2 (p_w_given_z ex_store) z w * at2 (p_z_given_d ex_store) d z < 2.
Proof.
  intros Hz Hd Hw.
  destruct z as [|[|]]; [| |lia]; (destruct d as [|[|]]; [| |lia]);
    (destruct w as [|[|]]; [| |lia]); by_compute.
Qed.

(** C1 as stated fails: with the threshold 2, above every product of the
    example model, the two steps end without a failure but the
    maximisation step does not leave the two arrays as they were; it
    zeroes them. *)
Lemma degenerate_threshold_changes_model :
  (∀ z d w, (z < 2)%nat → (d < 2)%nat → (w < 2)%nat →
     at2 (p_w_given_z ex_store) z w * at2 (p_z_given_d ex_store) d z < 2) ∧
  ∃ σ1 σ2,
    plsa_e_step ex_rows ex_cols ex_vals 2 ex_store = (Ok tt, σ1) ∧
    plsa_m_step ex_rows ex_cols ex_vals σ1 = (Ok tt, σ2) ∧
    p_w_given_z σ2 ≠ p_w_given_z σ1 ∧ p_z_given_d σ2 ≠ p_z_given_d σ1.
Proof.
  split; [apply ex_products_below_2|].
  exists (plsa_e_step ex_rows ex_cols ex_vals 2 ex_store).2.
  exists (plsa_m_step ex_rows ex_cols ex_vals
            (plsa_e_step ex_rows ex_cols ex_vals 2 ex_store).2).2.
  split; [by_compute|]. split; [by_compute|]. split; by_compute.
Qed.

Lemma degenerate_threshold_witness :
  shaped ex_store 2 2 2 (length ex_vals) ∧
  entries_in ex_rows ex_cols ex_vals 2 2 ∧
  (∀ z d w, (z < 2)%nat → (d < 2)%nat → (w < 2)%nat →
     at2 (p_w_given_z ex_store) z w * at2 (p_z_given_d ex_store) d z < 2) ∧
  ∃ σ1 σ2,
    plsa_e_step ex_rows ex_cols ex_vals 2 ex_store = (Ok tt, σ1) ∧
    p_z_given_wd σ1 = zeros2 (length ex_vals) 2 ∧
    p_w_given_z σ1 = p_w_given_z ex_store ∧ p_z_given_d σ1 = p_z_given_d ex_store ∧
    plsa_m_step ex_rows ex_cols ex_vals σ1 = (Ok tt, σ2) ∧
    p_w_given_z σ2 = zeros2 2 2 ∧ p_z_given_d σ2 = zeros2 2 2.
Proof.
  split; [by_decide|]. split; [by_decide|]. split; [apply ex_products_below_2|].
  apply (degenerate_threshold ex_rows ex_cols ex_vals 2 2 2 2 ex_store).
  - by_decide.
  - by_decide.
  - apply ex_products_below_2.
Defined.

Lemma e_step_rows_witness :
  shaped ex_store 2 2 2 (length ex_vals) ∧
  entries_in ex_rows ex_cols ex_vals 2 2 ∧
  (0 <= 0 ∨ (nonneg (p_w_given_z ex_store) ∧ nonneg (p_z_given_d ex_store))) ∧
  ∃ σ', plsa_e_step ex_rows ex_cols ex_vals 0 ex_store = (Ok tt, σ') ∧
    ∀ nz d w, ex_rows !! nz = Some d → ex_cols !! nz = Some w →
      let r := row (p_z_given_wd σ') nz in
      length r = 2%nat ∧
      (distribution r ∨ all_zero r) ∧
      ((∀ z, (z < 2)%nat →
          at2 (p_w_given_z ex_store) z w * at2 (p_z_given_d ex_store) d z <= 0) →
       all_zero r).
Proof.
  split; [by_decide|]. split; [by_decide|]. split; [left; by_compute|].
  apply (e_step_rows ex_rows ex_cols ex_vals 0 2 2 2 ex_store).
  - by_decide.
  - by_decide.
  - left. by_compute.
Defined.

(** C3 as stated fails: the maximisation step of the second example ends
    without a failure, and neither array is then row-stochastic; the row of
    document 1 and the row of topic 1 are zero. *)
Lemma m_step_not_row_stochastic :
  ∃ σ', plsa_m_step ex2_rows ex2_cols ex2_vals ex2_store = (Ok tt, σ') ∧
    ¬ row_stochastic (p_z_given_d σ') ∧ ¬ row_stochastic (p_w_given_z σ').
Proof.
  exists (plsa_m_step ex2_rows ex2_cols ex2_vals ex2_store).2.
  split; [by_compute|]. split.
  - intros H. specialize (H 1%nat). revert H.
    assert (¬ vsum (row (p_z_given_d
              (plsa_m_step ex2_rows ex2_cols ex2_vals ex2_store).2) 1) = 1) as E
      by by_compute.
    intros H. apply E, H. vm_compute. lia.
  - intros H. specialize (H 1%nat). revert H.
    assert (¬ vsum (row (p_w_given_z
              (plsa_m_step ex2_rows ex2_cols ex2_vals ex2_store).2) 1) = 1) as E
      by by_compute.
    intros H. apply E, H. vm_compute. lia.
Qed.

Lemma zero_threshold_equivalence_witness :
  nonneg (p_w_given_z ex_store) ∧ nonneg (p_z_given_d ex_store) ∧
  plsa_e_step ex_rows ex_cols ex_vals 0 ex_store =
  unthresholded_e_step ex_rows ex_cols ex_vals ex_store.
Proof.
  split; [by_decide|]. split; [by_decide|].
  apply (zero_threshold_equivalence ex_rows ex_cols ex_vals ex_store).
  - by_decide.
  - by_decide.
Defined.

(** ** The steps keep the shapes *)

Section Safety.

Variables (X_rows X_cols : list nat) (X_vals : list Qc).
Variable ln : Qc → Qc.
Variables (n m k nnz : nat).
Hypothesis Hnnz : nnz = length X_vals.
Hypothesis Hentries : entries_in X_rows X_cols X_vals n m.

Lemma e_step_safe thr σ :
  refit_shaped σ n m k nnz →
  ∃ σ', plsa_e_step X_rows X_cols X_vals thr σ = (Ok tt, σ') ∧
        refit_shaped σ' n m k nnz ∧ only_posterior σ σ'.
Proof.
  intros Hsh. rewrite plsa_e_step_with.
  destruct (e_step_with_spec X_rows X_cols X_vals (λ v, thr < v) n m k _ σ
              Hsh Hnnz Hentries) as ([] & σ' & Hrun & (Ew & Ed & Enw & End) & Hpost & _).
  exists σ'. split; [done|]. split; [|done].
  destruct Hsh as (? & ? & ? & ?). unfold refit_shaped. by rewrite Ew, Ed, End.
Qed.

Lemma e_step_safe_shaped thr σ :
  shaped σ n m k nnz →
  ∃ σ', plsa_e_step X_rows X_cols X_vals thr σ = (Ok tt, σ') ∧ shaped σ' n m k nnz.
Proof.
  intros Hsh.
  destruct (e_step_safe thr σ (shaped_refit_shaped _ _ _ _ _ Hsh))
    as (σ' & Hrun & (? & ? & ? & ?) & (Ew & Ed & Enw & End)).
  exists σ'. split; [done|]. unfold shaped. rewrite Enw.
  destruct Hsh as (_ & _ & _ & ? & _). auto.
Qed.

Lemma m_step_safe σ :
  shaped σ n m k nnz →
  ∃ σ', plsa_m_step X_rows X_cols X_vals σ = (Ok tt, σ') ∧ shaped σ' n m k nnz.
Proof.
  intros Hsh.
  destruct (m_step_inv X_rows X_cols X_vals n m k nnz Hnnz Hentries
              (λ σ1, shaped σ1 n m k nnz) σ Hsh)
    as ([] & σ' & Hrun & σ1 & a & b & H1 & -> & Ha & Hb & _); [done| |by apply shaped_m_zeroed|].
  - intros σ1 nz d w x z H1 Hd _ _ Hz. apply shaped_m_add; [done..|].
    destruct Hentries as (_ & _ & Hrows & _). apply (Forall_lookup_1 _ _ _ _ Hrows Hd).
  - exists (wr2 PZD b (wr2 PWZ a σ1)). split; [done|].
    destruct H1 as (_ & _ & ? & ? & ?). unfold shaped. simpl. auto.
Qed.

Lemma refit_m_step_safe σ :
  refit_shaped σ n m k nnz →
  ∃ σ', plsa_refit_m_step X_rows X_cols X_vals σ = (Ok tt, σ') ∧
        refit_shaped σ' n m k nnz.
Proof.
  intros Hsh.
  destruct (refit_m_step_inv X_rows X_cols X_vals n m k nnz Hnnz Hentries
              (λ σ1, refit_shaped σ1 n m k nnz) σ Hsh)
    as ([] & σ' & Hrun & σ1 & b & H1 & -> & Hb & _); [done| |by apply shaped_refit_zeroed|].
  - intros σ1 nz d x z H1 Hd _ Hz. apply shaped_refit_add; [done|].
    destruct Hentries as (_ & _ & Hrows & _). apply (Forall_lookup_1 _ _ _ _ Hrows Hd).
  - exists (wr2 PZD b σ1). split; [done|].
    destruct H1 as (? & _ & ? & ?). unfold refit_shaped. simpl. auto.
Qed.

(** The log-likelihood is evaluated without a failure and without a write. *)
Lemma log_likelihood_safe σ :
  refit_shaped σ n m k nnz →
  ∃ L, log_likelihood X_rows X_cols X_vals ln σ = (Ok L, σ).
Proof.
  intros (Hpwz & Hpzd & _). destruct Hentries as (Hlr & Hlc & Hrows & Hcols).
  assert (wp (log_likelihood X_rows X_cols X_vals ln) (λ _ σ', σ' = σ) σ) as (L & σ' & Hrun & ->);
    [|by exists L].
  unfold log_likelihood. apply wp_bind, wp_shape0_of. simpl.
  replace (shape0 (p_w_given_z σ)) with k by (symmetry; apply Hpwz).
  apply (wp_for_acc (λ _ _ σ', σ' = σ)); [done|].
  intros nz result ? Hnz ->.
  destruct (lookup_lt_is_Some_2 X_rows nz) as [d Hd]; [lia|].
  destruct (lookup_lt_is_Some_2 X_cols nz) as [w Hw]; [lia|].
  destruct (lookup_lt_is_Some_2 X_vals nz) as [x Hx]; [lia|].
  pose proof (Forall_lookup_1 _ _ _ _ Hrows Hd) as Hdn.
  pose proof (Forall_lookup_1 _ _ _ _ Hcols Hw) as Hwm.
  apply wp_bind. eapply wp_index; [exact Hd|].
  apply wp_bind. eapply wp_index; [exact Hw|].
  apply wp_bind. eapply wp_index; [exact Hx|].
  apply wp_bind. eapply wp_mono.
  - apply (wp_for_acc (λ _ _ σ', σ' = σ)); [done|].
    intros z p ? Hz ->.
    apply wp_bind. eapply wp_load2; [by eapply row_at2|].
    apply wp_bind. eapply wp_load2; [by eapply row_at2|].
    by apply wp_ret.
  - intros p ? ->. by apply wp_ret.
Qed.

End Safety.

(** ** Loops with [break] *)

Lemma for_in_app {Σ S} l1 l2 (body : nat → S → Comp Σ S) s σ :
  for_in (l1 ++ l2) body s σ = (s' <- for_in l1 body s ;; for_in l2 body s') σ.
Proof.
  revert s σ. induction l1 as [|i l1 IH]; intros s σ; simpl; [reflexivity|].
  unfold kbind. destruct (body i s σ) as [[s'|e] σ']; [|done].
  rewrite IH. done.
Qed.

Lemma em_passes_S (em : Kern unit) j σ :
  em_passes em (S j) σ = (em_passes em j ;;; em) σ.
Proof.
  unfold em_passes, for_range, for_acc. rewrite seq_S, for_in_app. simpl.
  apply (kbind_ext (λ _, True)); [done|done|]. intros [] σ' _.
  unfold kbind. by destruct (em σ') as [[[]|e] σ''].
Qed.

Lemma em_passes_step (em : Kern unit) j σ0 σ σ' :
  em_passes em j σ0 = (Ok tt, σ) → em σ = (Ok tt, σ') →
  em_passes em (S j) σ0 = (Ok tt, σ').
Proof. intros Hj Hem. rewrite em_passes_S. unfold kbind. by rewrite Hj. Qed.

Lemma em_passes_cons (em : Kern unit) j : ∀ σ σ' σf,
  em σ = (Ok tt, σ') → em_passes em j σ' = (Ok tt, σf) →
  em_passes em (S j) σ = (Ok tt, σf).
Proof.
  induction j as [|j IH]; intros σ σ' σf Hem Hp.
  - injection Hp as <-. by apply (em_passes_step em 0%nat σ σ).
  - rewrite em_passes_S in Hp. unfold kbind in Hp.
    destruct (em_passes em j σ') as [[[]|e] σm] eqn:Hj; [|done].
    eapply em_passes_step; [|exact Hp]. by eapply IH.
Qed.

Lemma wp_for_in_break {Σ S} (I : nat → S → Σ → Prop) (Q : loop_exit * S → Σ → Prop)
    (body : nat → S → Comp Σ (flow * S)) n :
  ∀ a s σ,
    I a s σ →
    (∀ i s σ, (a ≤ i < a + n)%nat → I i s σ →
       wp (body i s) (λ r σ', match r with
                              | (Continue, s') => I (Datatypes.S i) s' σ'
                              | (Break, s') => Q (BrokeAt i, s') σ'
                              end) σ) →
    (∀ s σ, I (a + n)%nat s σ → Q (Exhausted, s) σ) →
    wp (for_in_break (seq a n) body s) Q σ.
Proof.
  induction n as [|n IH]; intros a s σ H0 Hstep Hend; simpl.
  - apply wp_ret. apply Hend. by rewrite Nat.add_0_r.
  - apply wp_bind. eapply wp_mono; [apply Hstep; [lia|done]|].
    intros [[] s'] σ' H'; simpl in H'.
    + apply IH; [done| |].
      * intros i s'' σ'' Hi. apply Hstep. lia.
      * intros s'' σ''. replace (Datatypes.S a + n)%nat with (a + Datatypes.S n)%nat by lia.
        apply Hend.
    + by apply wp_ret.
Qed.

(** ** The loop of a refit *)

Section RefitLoop.

Variables (X_rows X_cols : list nat) (X_vals : list Qc).
Variable ln : Qc → Qc.
Variables (n m k nnz : nat).
Hypothesis Hnnz : nnz = length X_vals.
Hypothesis Hentries : entries_in X_rows X_cols X_vals n m.

(** A pass at which the log-likelihood is not computed, or is computed and
    is not positive, goes on with the next pass and keeps
    [previous_log_likelihood]: the relative change is not computed. *)
Lemma refit_iteration_no_test t tol thr i prev σ σ' :
  refit_em X_rows X_cols X_vals thr σ = (Ok tt, σ') →
  t ≠ 0%Z →
  ((Z.of_nat i mod t)%Z = 0%Z →
     ∃ L, log_likelihood X_rows X_cols X_vals ln σ' = (Ok L, σ') ∧ L <= 0) →
  refit_iteration X_rows X_cols X_vals ln t tol thr i prev σ =
    (Ok (Continue, prev), σ').
Proof.
  intros Hem Ht HL. unfold refit_iteration, refit_em in *.
  unfold kbind in Hem |- *.
  destruct (plsa_e_step X_rows X_cols X_vals thr σ) as [[[]|e] σ1]; [|done].
  rewrite Hem. unfold pymod. rewrite decide_False by done.
  unfold kret at 1. case_decide as Hr; [|done].
  destruct (HL Hr) as (L & -> & HL0).
  rewrite decide_False; [done|]. by apply Qcle_not_lt.
Qed.

(** C4.  In a refit on well-shaped arrays, if the log-likelihood is not
    positive at any checkpoint (a pass [i] with [i mod n_iter_per_test = 0]),
    the loop is left by exhaustion after all [n_iter] passes of
    expectation and constrained maximisation, never by [break], with
    [previous_log_likelihood] as it was at entry: the relative-change test
    is computed at no checkpoint. *)
Theorem refit_never_breaks n_iter t tol thr prev σ0 :
  refit_shaped σ0 n m k nnz →
  t ≠ 0%Z →
  (∀ i σ L, (i < Z.to_nat n_iter)%nat → (Z.of_nat i mod t)%Z = 0%Z →
     em_passes (refit_em X_rows X_cols X_vals thr) (S i) σ0 = (Ok tt, σ) →
     log_likelihood X_rows X_cols X_vals ln σ = (Ok L, σ) → L <= 0) →
  ∃ σf,
    refit_loop X_rows X_cols X_vals ln n_iter t tol thr prev σ0 =
      (Ok (Exhausted, prev), σf) ∧
    em_passes (refit_em X_rows X_cols X_vals thr) (Z.to_nat n_iter) σ0 = (Ok tt, σf).
Proof.
  intros Hsh Ht Hneg.
  set (em := refit_em X_rows X_cols X_vals thr) in *.
  assert (wp (refit_loop X_rows X_cols X_vals ln n_iter t tol thr prev)
             (λ r σf, r = (Exhausted, prev) ∧
                em_passes em (Z.to_nat n_iter) σ0 = (Ok tt, σf)) σ0)
    as (r & σf & Hrun & -> & Hpasses); [|by exists σf].
  unfold refit_loop, for_break.
  apply (wp_for_in_break (λ i s σ, s = prev ∧ em_passes em i σ0 = (Ok tt, σ) ∧
                            refit_shaped σ n m k nnz)).
  - done.
  - intros i s σ Hi (-> & Hp & Hshσ).
    destruct (e_step_safe X_rows X_cols X_vals n m k nnz Hnnz Hentries thr σ Hshσ)
      as (σ1 & HE & Hsh1 & _).
    destruct (refit_m_step_safe X_rows X_cols X_vals n m k nnz Hnnz Hentries σ1 Hsh1)
      as (σ2 & HM & Hsh2).
    assert (em σ = (Ok tt, σ2)) as Hem.
    { unfold em, refit_em, kbind. by rewrite HE. }
    pose proof (em_passes_step em i σ0 σ σ2 Hp Hem) as Hp2.
    exists (Continue, prev), σ2. split; [|done].
    apply refit_iteration_no_test; [done..|].
    intros Hr.
    destruct (log_likelihood_safe X_rows X_cols X_vals ln n m k nnz Hnnz Hentries σ2 Hsh2)
      as (L & HL).
    exists L. split; [done|]. apply (Hneg i σ2 L); [lia|done..].
  - intros s σ (-> & Hp & _). done.
Qed.

End RefitLoop.

(** ** The loop of a fit *)

Lemma kbind_assoc {Σ A B C} (c : Comp Σ A) (f : A → Comp Σ B) (g : B → Comp Σ C) σ :
  kbind (kbind c f) g σ = kbind c (λ a, kbind (f a) g) σ.
Proof. unfold kbind. by destruct (c σ) as [[a|e] σ']. Qed.

Lemma Qcabs_0_iff x : Qcabs x = 0 ↔ x = 0.
Proof. split; [apply Qcabs_null|]. intros ->. by apply Qcabs_pos. Qed.

Section FitLoop.

Variables (em : Kern unit) (ll : Kern Qc).
Variables (n_iter : nat) (t : Z) (tol : Qc).

(** Evaluating the log-likelihood writes nothing. *)
Hypothesis ll_pure : ∀ σ, (ll σ).2 = σ.

Lemma ll_result σ : ∃ o, ll σ = (o, σ).
Proof. specialize (ll_pure σ). destruct (ll σ) as [o σ']. simpl in *. subst. by exists o. Qed.

(** From the loop to the machine. *)
Lemma loop_to_run rem : ∀ i L σ x L' σf,
  (i + rem = n_iter)%nat →
  for_in_break (seq i rem) (loop_body em ll t tol) L σ = (Ok (x, L'), σf) →
  ∃ j, fit_run em ll n_iter t tol i L σ (end_of x) j σf.
Proof.
  induction rem as [|rem IH]; intros i L σ x L' σf Hi Hrun; simpl in Hrun.
  - injection Hrun as <- <- <-. exists 0%nat. replace i with n_iter by lia. constructor.
  - unfold kbind at 1, loop_body at 1 in Hrun. unfold kbind at 1 in Hrun.
    destruct (em σ) as [[[]|e] σ'] eqn:Hem; [|done].
    unfold kbind at 1, pymod in Hrun. destruct (decide (t = 0%Z)) as [|Ht]; [done|].
    unfold kret at 1 in Hrun.
    destruct (decide ((Z.of_nat i mod t)%Z = 0%Z)) as [Hr|Hr].
    + unfold kbind at 1 in Hrun.
      destruct (ll_result σ') as [[Li|e] HL]; rewrite HL in Hrun; [|done].
      unfold kbind at 1, fdiv in Hrun.
      destruct (decide (Qcabs Li = 0)) as [|HLi]; [done|].
      unfold kret at 1 in Hrun.
      assert (Li ≠ 0) as HLi' by (by rewrite <- Qcabs_0_iff).
      destruct (decide (Qcabs (Li - L) / Qcabs Li < tol)) as [Hq|Hq].
      * injection Hrun as <- <- <-. exists 1%nat. simpl.
        eapply run_converged; [lia|done..].
      * destruct (IH (S i) Li σ' x L' σf) as [j Hj]; [lia|done|].
        exists (S j). eapply run_continue; [lia|done..].
    + destruct (IH (S i) L σ' x L' σf) as [j Hj]; [lia|done|].
      exists (S j). eapply run_plain; [lia|done..].
Qed.

(** From the machine to the loop. *)
Lemma run_to_loop i L σ e j σf :
  fit_run em ll n_iter t tol i L σ e j σf →
  ∃ x L', e = end_of x ∧
    for_in_break (seq i (n_iter - i)) (loop_body em ll t tol) L σ = (Ok (x, L'), σf).
Proof.
  induction 1 as [L σ|i L σ σ' e j σf Hi Ht Hr Hem _ IH
                 |i L σ σ' Li e j σf Hi Ht Hr Hem HL HLi Hq _ IH
                 |i L σ σ' Li Hi Ht Hr Hem HL HLi Hq].
  - exists Exhausted, L. split; [done|]. by rewrite Nat.sub_diag.
  - destruct IH as (x & L' & -> & Hrun). exists x, L'. split; [done|].
    replace (n_iter - i)%nat with (S (n_iter - S i)) by lia. simpl.
    unfold kbind at 1, loop_body at 1. unfold kbind at 1. rewrite Hem.
    unfold kbind at 1, pymod. rewrite decide_False by done. unfold kret at 1.
    by rewrite decide_False by done.
  - destruct IH as (x & L' & -> & Hrun). exists x, L'. split; [done|].
    replace (n_iter - i)%nat with (S (n_iter - S i)) by lia. simpl.
    unfold kbind at 1, loop_body at 1. unfold kbind at 1. rewrite Hem.
    unfold kbind at 1, pymod. rewrite decide_False by done. unfold kret at 1.
    rewrite decide_True by done. unfold kbind at 1. rewrite HL.
    unfold kbind at 1, fdiv. rewrite decide_False by (by rewrite Qcabs_0_iff).
    unfold kret at 1. by rewrite decide_False by done.
  - exists (BrokeAt i), L. split; [done|].
    replace (n_iter - i)%nat with (S (n_iter - S i)) by lia. simpl.
    unfold kbind at 1, loop_body at 1. unfold kbind at 1. rewrite Hem.
    unfold kbind at 1, pymod. rewrite decide_False by done. unfold kret at 1.
    rewrite decide_True by done. unfold kbind at 1. rewrite HL.
    unfold kbind at 1, fdiv. rewrite decide_False by (by rewrite Qcabs_0_iff).
    unfold kret at 1. by rewrite decide_True by done.
Qed.

(** The machine runs at most the passes that are left, and its store is
    the store after that many passes. *)
Lemma fit_run_passes i L σ e j σf :
  fit_run em ll n_iter t tol i L σ e j σf →
  (i + j ≤ n_iter)%nat ∧ em_passes em j σ = (Ok tt, σf) ∧
  match e with
  | MaxIterReached => (i + j = n_iter)%nat
  | Converged c => (i + j = S c)%nat
  end.
Proof.
  pose proof (em_passes_cons em) as Hcons.
  induction 1 as [L σ|i L σ σ' e j σf Hi Ht Hr Hem _ IH
                 |i L σ σ' Li e j σf Hi Ht Hr Hem HL HLi Hq _ IH
                 |i L σ σ' Li Hi Ht Hr Hem HL HLi Hq].
  - split; [lia|]. split; [done|lia].
  - destruct IH as (Hle & Hp & He). split; [lia|]. split; [by eapply Hcons|].
    destruct e; lia.
  - destruct IH as (Hle & Hp & He). split; [lia|]. split; [by eapply Hcons|].
    destruct e; lia.
  - split; [lia|]. split; [by eapply (Hcons 0%nat)|lia].
Qed.

End FitLoop.

Lemma for_in_break_ext {Σ S} l (b1 b2 : nat → S → Comp Σ (flow * S)) :
  (∀ i s σ, b1 i s σ = b2 i s σ) →
  ∀ s σ, for_in_break l b1 s σ = for_in_break l b2 s σ.
Proof.
  intros Hb. induction l as [|i l IH]; intros s σ; simpl; [done|].
  unfold kbind. rewrite Hb. destruct (b2 i s σ) as [[[[] s']|e] σ']; auto.
Qed.

Lemma log_likelihood_pure X_rows X_cols X_vals ln σ :
  (log_likelihood X_rows X_cols X_vals ln σ).2 = σ.
Proof. by apply (preserves_log_likelihood X_rows X_cols X_vals ln (λ σ', σ' = σ)). Qed.

Lemma fit_iteration_body X_rows X_cols X_vals ln t tol thr i L σ :
  fit_iteration X_rows X_cols X_vals ln t tol thr i L σ =
  loop_body (fit_em X_rows X_cols X_vals thr) (log_likelihood X_rows X_cols X_vals ln)
    t tol i L σ.
Proof. unfold fit_iteration, loop_body, fit_em. by rewrite kbind_assoc. Qed.

(** C5.  The loop of [plsa_fit_inner] is the state machine of the design
    document.  A call returns a pair exactly when the machine, started in
    Iterating at pass 0 with the log-likelihood of the initial arrays,
    reaches a terminal state, and the pair is then the current
    [(p_z_given_d, p_w_given_z)] of that state.  In the machine the
    log-likelihood is recomputed exactly at the passes [i] with
    [i mod n_iter_per_test = 0]; the run stops early exactly when, at such a
    pass, |L_i − L_prev| / |L_i| < tolerance, and otherwise goes on with
    L_prev = L_i.  Every run makes at most [n_iter] passes of expectation
    and maximisation: [n_iter] of them to MaxIterReached, and [c + 1] of
    them when it converges at the checkpoint [c]. *)
Theorem fit_inner_state_machine X_rows X_cols X_vals ln pwz pzd
    n_iter n_iter_per_test tolerance e_step_thresh :
  let σ0 := fit_store X_vals pwz pzd in
  let em := fit_em X_rows X_cols X_vals e_step_thresh in
  let ll := log_likelihood X_rows X_cols X_vals ln in
  (∀ r σf,
     plsa_fit_inner X_rows X_cols X_vals ln pwz pzd n_iter n_iter_per_test
       tolerance e_step_thresh = (Ok r, σf) ↔
     ∃ L0 e j,
       ll σ0 = (Ok L0, σ0) ∧
       fit_run em ll (Z.to_nat n_iter) n_iter_per_test tolerance 0 L0 σ0 e j σf ∧
       r = (p_z_given_d σf, p_w_given_z σf)) ∧
  (∀ L0 e j σf,
     fit_run em ll (Z.to_nat n_iter) n_iter_per_test tolerance 0 L0 σ0 e j σf →
     (j ≤ Z.to_nat n_iter)%nat ∧ em_passes em j σ0 = (Ok tt, σf) ∧
     match e with
     | MaxIterReached => j = Z.to_nat n_iter
     | Converged c => j = S c ∧ (Z.of_nat c mod n_iter_per_test)%Z = 0%Z
     end).
Proof.
  intros σ0 em ll. split.
  - intros r σf. unfold plsa_fit_inner. fold σ0.
    unfold kbind at 1. fold ll.
    destruct (ll_result ll (log_likelihood_pure X_rows X_cols X_vals ln) σ0) as [o HL].
    rewrite HL. unfold fit_loop, for_break.
    destruct o as [L0|e0]; [|split; [done|by intros (? & ? & ? & ? & _)]].
    unfold kbind at 1.
    rewrite (for_in_break_ext _ _ (loop_body em ll n_iter_per_test tolerance)
               (fit_iteration_body X_rows X_cols X_vals ln n_iter_per_test
                  tolerance e_step_thresh)).
    split.
    + intros Hrun.
      destruct (for_in_break (seq 0 (Z.to_nat n_iter))
                  (loop_body em ll n_iter_per_test tolerance) L0 σ0)
        as [[[x L']|e] σ1] eqn:Hloop; [|done].
      unfold kget in Hrun. injection Hrun as <- <-.
      destruct (loop_to_run em ll (Z.to_nat n_iter) n_iter_per_test tolerance
                  (log_likelihood_pure X_rows X_cols X_vals ln)
                  (Z.to_nat n_iter) 0%nat L0 σ0 x L' σ1) as [j Hj]; [lia|done|].
      by exists L0, (end_of x), j.
    + intros (L1 & e & j & HL0 & Hj & ->). injection HL0 as <-.
      destruct (run_to_loop em ll (Z.to_nat n_iter) n_iter_per_test tolerance
                  0%nat L0 σ0 e j σf Hj) as (x & L' & -> & Hloop).
      rewrite Nat.sub_0_r in Hloop. by rewrite Hloop.
  - intros L0 e j σf Hj.
    destruct (fit_run_passes em ll (Z.to_nat n_iter) n_iter_per_test tolerance
                0%nat L0 σ0 e j σf Hj) as (Hle & Hp & He).
    split; [lia|]. split; [done|]. destruct e as [c|]; [|lia].
    split; [lia|].
    assert (∀ i L σ c' j' σ', fit_run em ll (Z.to_nat n_iter) n_iter_per_test
              tolerance i L σ (Converged c') j' σ' →
              (Z.of_nat c' mod n_iter_per_test)%Z = 0%Z) as Hc.
    { intros i L σ c' j' σ' Hr. remember (Converged c') as e eqn:Ee.
      induction Hr; try done; auto. by injection Ee as ->. }
    by eapply Hc.
Qed.

(** ** Examples of the loops *)

Lemma ex_refit_checkpoints i σ L :
  (i < Z.to_nat 2)%nat → (Z.of_nat i mod 1)%Z = 0%Z →
  em_passes (refit_em ex_rows ex_cols ex_vals 0) (S i) ex_store = (Ok tt, σ) →
  log_likelihood ex_rows ex_cols ex_vals ex_ln σ = (Ok L, σ) → L <= 0.
Proof.
  intros Hi _ Hp HL.
  assert (σ = (em_passes (refit_em ex_rows ex_cols ex_vals 0) (S i) ex_store).2) as ->
    by (by rewrite Hp).
  set (o := (log_likelihood ex_rows ex_cols ex_vals ex_ln
               (em_passes (refit_em ex_rows ex_cols ex_vals 0) (S i) ex_store).2).1).
  assert (o = Ok L) as Ho by (unfold o; by rewrite HL).
  assert (match o with Ok L' => L' <= 0 | Raise _ => True end) as HoL.
  { unfold o. destruct i as [|[|]]; [| |simpl in Hi; lia];
      (match goal with |- match ?x with _ => _ end =>
         let v := eval vm_compute in x in change x with v end); cbv iota; by_compute. }
  by rewrite Ho in HoL.
Qed.

Lemma refit_never_breaks_witness :
  refit_shaped ex_store 2 2 2 (length ex_vals) ∧
  (1 ≠ 0)%Z ∧
  (∀ i σ L, (i < Z.to_nat 2)%nat → (Z.of_nat i mod 1)%Z = 0%Z →
     em_passes (refit_em ex_rows ex_cols ex_vals 0) (S i) ex_store = (Ok tt, σ) →
     log_likelihood ex_rows ex_cols ex_vals ex_ln σ = (Ok L, σ) → L <= 0) ∧
  ∃ σf,
    refit_loop ex_rows ex_cols ex_vals ex_ln 2 1 (Q2Qc (1 # 1000)) 0 0 ex_store =
      (Ok (Exhausted, 0), σf) ∧
    em_passes (refit_em ex_rows ex_cols ex_vals 0) (Z.to_nat 2) ex_store = (Ok tt, σf).
Proof.
  split; [unfold refit_shaped; by_decide|]. split; [lia|].
  split; [apply ex_refit_checkpoints|].
  apply (refit_never_breaks ex_rows ex_cols ex_vals ex_ln 2 2 2 (length ex_vals)
           eq_refl ex_entries_in 2 1 (Q2Qc (1 # 1000)) 0 0 ex_store).
  - unfold refit_shaped. by_decide.
  - lia.
  - apply ex_refit_checkpoints.
Defined.

Lemma fit_inner_state_machine_witness :
  let σ0 := fit_store ex_vals (p_w_given_z ex_store) (p_z_given_d ex_store) in
  let em := fit_em ex_rows ex_cols ex_vals 0 in
  let ll := log_likelihood ex_rows ex_cols ex_vals ex_ln in
  let σf := (plsa_fit_inner ex_rows ex_cols ex_vals ex_ln (p_w_given_z ex_store)
               (p_z_given_d ex_store) 4 2 (Q2Qc (1 # 1000)) 0).2 in
  ∃ L0 e j,
    ll σ0 = (Ok L0, σ0) ∧
    fit_run em ll (Z.to_nat 4) 2 (Q2Qc (1 # 1000)) 0 L0 σ0 e j σf ∧
    (j ≤ Z.to_nat 4)%nat ∧ em_passes em j σ0 = (Ok tt, σf).
Proof.
  intros σ0 em ll σf.
  destruct (fit_inner_state_machine ex_rows ex_cols ex_vals ex_ln
              (p_w_given_z ex_store) (p_z_given_d ex_store) 4 2 (Q2Qc (1 # 1000)) 0)
    as [Hiff Hpasses].
  destruct (proj1 (Hiff (p_z_given_d σf, p_w_given_z σf) σf)) as (L0 & e & j & HL & Hrun & _).
  { by_compute. }
  exists L0, e, j. split; [exact HL|]. split; [exact Hrun|].
  destruct (Hpasses L0 e j σf Hrun) as (Hle & Hp & _). split; [exact Hle|exact Hp].
Defined.

(** ** Columns and rows *)

Lemma mcol_Some a n m j :
  has_shape a n m → (j < m)%nat → ∃ c, mcol a j = Some c ∧ length c = n.
Proof.
  intros (Hc & Hn & _) Hj. unfold mcol. rewrite decide_True by lia.
  eexists. split; [done|]. by rewrite length_map.
Qed.

Lemma mrow_Some a n m i :
  has_shape a n m → (i < n)%nat → ∃ r, mrow a i = Some r ∧ length r = m.
Proof.
  intros (Hc & Hn & Hall) Hi. unfold mrow.
  destruct (lookup_lt_is_Some_2 (rowsOf a) i) as [r Hr]; [lia|].
  exists r. split; [done|]. apply (Forall_lookup_1 _ _ _ _ Hall Hr).
Qed.

Lemma map_lookup_zip_insert (rows : list (list Qc)) (v : list Qc) j j' :
  length v = length rows → Forall (λ r, j < length r)%nat rows →
  map (λ r, default 0 (r !! j')) (zip_with (λ r x, <[j := x]> r) rows v) =
  if decide (j' = j) then v else map (λ r, default 0 (r !! j')) rows.
Proof.
  revert v. induction rows as [|r rows IH]; intros [|x v] Hlen Hall; simpl in *; try done.
  - by case_decide.
  - inversion Hall as [|? ? Hr Hrows]; subst.
    rewrite IH by (done || lia). case_decide as E.
    + subst. rewrite list_lookup_insert_eq by done. done.
    + rewrite list_lookup_insert_ne by done. done.
Qed.

Lemma mset_col_spec a n m j v :
  has_shape a n m → (j < m)%nat → length v = n →
  ∃ a', mset_col a j v = Some a' ∧ has_shape a' n m ∧
    ∀ j', (j' < m)%nat → mcol a' j' = if decide (j' = j) then Some v else mcol a j'.
Proof.
  intros (Hc & Hn & Hall) Hj Hv. unfold mset_col.
  rewrite decide_True by (unfold shape0; lia).
  eexists. split; [done|]. split.
  - split; [done|]. split; simpl.
    + rewrite length_zip_with. lia.
    + clear Hn Hv. revert v. induction Hall as [|r rows Hr Hrows IH]; intros [|x v]; simpl;
        try constructor; [by rewrite length_insert|apply IH].
  - intros j' Hj'. unfold mcol. simpl. rewrite decide_True by lia.
    rewrite map_lookup_zip_insert.
    + case_decide; [done|]. by rewrite decide_True by lia.
    + lia.
    + eapply Forall_impl; [exact Hall|]. simpl. intros r ->. done.
Qed.

Lemma mset_row_spec a n m i v :
  has_shape a n m → (i < n)%nat → length v = m →
  ∃ a', mset_row a i v = Some a' ∧ has_shape a' n m ∧
    ∀ i', mrow a' i' = if decide (i' = i) then Some v else mrow a i'.
Proof.
  intros Ha Hi Hv. pose proof Ha as (Hc & Hn & Hall). unfold mset_row.
  rewrite decide_True by (unfold shape0; lia).
  eexists. split; [done|]. split; [by apply has_shape_insert|].
  intros i'. unfold mrow. simpl. case_decide as E.
  - subst. apply list_lookup_insert_eq. lia.
  - by apply list_lookup_insert_ne.
Qed.

(** ** The "nndsvd" initialisation *)

Section Nndsvd.

Variable sqrt : Qc → Qc.
Variables (U V : matrix) (Sv : list Qc).
Variables (n m k : nat).
Hypothesis HU : has_shape U n k.
Hypothesis HS : length Sv = k.
Hypothesis HV : has_shape V k m.

Lemma vscale_length c x : length (vscale c x) = length x.
Proof. unfold vscale. by rewrite length_map. Qed.

Lemma nndsvd_scaled_length x y s :
  length (nndsvd_scaled sqrt x y s).1 = length x ∧
  length (nndsvd_scaled sqrt x y s).2 = length y.
Proof.
  unfold nndsvd_scaled. cbv zeta. case_decide; simpl;
    unfold vscale, vdiv, vabs, vmaximum, vminimum; by rewrite !length_map.
Qed.

Lemma nndsvd_component_spec j pzd pwz (log : list event) :
  (1 ≤ j < k)%nat → has_shape pzd n k → has_shape pwz k m →
  ∃ pzd' pwz',
    nndsvd_component sqrt U V Sv j (pzd, pwz) log = (Ok (pzd', pwz'), log) ∧
    has_shape pzd' n k ∧ has_shape pwz' k m ∧
    (∀ j', (j' < k)%nat →
       mcol pzd' j' = if decide (j' = j) then Some (nndsvd_target sqrt U V Sv j).1 else mcol pzd j') ∧
    (∀ i', mrow pwz' i' = if decide (i' = j) then Some (nndsvd_target sqrt U V Sv j).2 else mrow pwz i').
Proof.
  intros Hj Hpzd Hpwz.
  destruct (mcol_Some U n k j HU) as (x & Hx & Hlx); [lia|].
  destruct (mrow_Some V k m j HV) as (y & Hy & Hly); [lia|].
  destruct (lookup_lt_is_Some_2 Sv j) as [s_j Hs]; [lia|].
  assert (nndsvd_target sqrt U V Sv j = nndsvd_scaled sqrt x y s_j) as Hc
    by (unfold nndsvd_target; by rewrite Hx, Hy, Hs).
  destruct (nndsvd_scaled_length x y s_j) as [Hl1 Hl2].
  destruct (mset_col_spec pzd n k j (nndsvd_target sqrt U V Sv j).1 Hpzd) as (pzd' & Hset1 & Hsh1 & Hcol);
    [lia|by rewrite Hc, Hl1|].
  destruct (mset_row_spec pwz k m j (nndsvd_target sqrt U V Sv j).2 Hpwz) as (pwz' & Hset2 & Hsh2 & Hrow);
    [lia|by rewrite Hc, Hl2|].
  exists pzd', pwz'. split; [|done].
  unfold nndsvd_component, kbind, index. rewrite Hx, Hy, Hs. simpl.
  rewrite Hc in Hset1, Hset2. unfold nndsvd_scaled in Hset1, Hset2. cbv zeta in *.
  unfold nndsvd_split. simpl.
  destruct (decide (norm sqrt (vabs (vminimum x 0)) * norm sqrt (vabs (vminimum y 0)) <
                    norm sqrt (vmaximum x 0) * norm sqrt (vmaximum y 0))) as [Hlt|Hge].
  - unfold fmax in Hset1, Hset2. rewrite decide_False in Hset1, Hset2
      by (intros H'; apply (Qclt_not_le _ _ Hlt); by apply Qclt_le_weak).
    simpl in *. by rewrite Hset1, Hset2.
  - unfold fmax in Hset1, Hset2. simpl in *.
    destruct (decide (norm sqrt (vmaximum x 0) * norm sqrt (vmaximum y 0) <
                      norm sqrt (vabs (vminimum x 0)) * norm sqrt (vabs (vminimum y 0))))
      as [Hlt'|Hge'].
    + by rewrite Hset1, Hset2.
    + assert (norm sqrt (vmaximum x 0) * norm sqrt (vmaximum y 0) =
              norm sqrt (vabs (vminimum x 0)) * norm sqrt (vabs (vminimum y 0))) as E
        by (apply Qcle_antisym; by apply Qcnot_lt_le).
      rewrite E in Hset1, Hset2. by rewrite Hset1, Hset2.
Qed.

End Nndsvd.

Lemma wp_allocated a b (Q : unit → list event → Prop) log :
  Q tt (log ++ [Allocated a b]) → wp (allocated a b) Q log.
Proof. intros H. by exists tt, (log ++ [Allocated a b]). Qed.

Section NndsvdInit.

Variable sqrt : Qc → Qc.
Variable randomized_svd : sparse → nat → matrix * list Qc * matrix.
Variables (X : sparse) (U V : matrix) (Sv : list Qc).
Variables (n m k : nat).
Hypothesis Hsvd : randomized_svd X k = (U, Sv, V).
Hypothesis HU : has_shape U n k.
Hypothesis HS : length Sv = k.
Hypothesis HV : has_shape V k m.
Hypothesis Hk : (1 ≤ k)%nat.


End NndsvdInit.



(** ** The modes of the initializer *)

Section InitModes.

Variable sqrt : Qc → Qc.
Variable normalize : matrix → matrix.
Variable randomized_svd : sparse → nat → matrix * list Qc * matrix.
Variable non_negative_factorization : sparse → nat → matrix * matrix.
Variable np_random_random : nat → nat → nat → matrix.

Lemma unpack_pair_unrecognized l (log : list event) :
  (¬ ∃ a b, l = [a; b]) →
  ∃ msg, unpack_pair l log = (Raise (ValueError msg), log).
Proof.
  intros H. destruct l as [|a [|b [|c l]]]; simpl; eauto.
  destruct H. eauto.
Qed.

Lemma init_dispatch_unrecognized X k init log :
  ¬ recognized init →
  ∃ msg, init_dispatch sqrt randomized_svd non_negative_factorization
           np_random_random X k init log = (Raise (ValueError msg), log).
Proof.
  intros H. unfold recognized in H. destruct init as [s|l|l|]; simpl.
  - repeat case_decide; subst; try (exfalso; apply H; auto; fail). eauto.
  - apply unpack_pair_unrecognized. intros (a & b & ->). apply H. eauto 10.
  - apply unpack_pair_unrecognized. intros (a & b & ->). apply H. eauto 10.
  - eauto.
Qed.


End InitModes.



(** ** The transform of the estimator *)

(** C10 as stated fails in its account of the arguments: in the call of
    [plsa_refit] as written, the parameter [X_vals] of the entry values
    receives [X.vals], not [n]; [n] is in the position of the fixed
    [topics], and [m] in the position of [n_documents], not of the topics. *)
Lemma transform_positions_differ :
  ∃ bound, bind_positional plsa_refit_params transform_args = Ok bound ∧
    (("X_vals", Name_n) ∉ bound) ∧ (("topics", Name_m) ∉ bound) ∧
    (("topics", Name_n) ∈ bound) ∧ (("n_documents", Name_m) ∈ bound).
Proof.
  eexists. split; [reflexivity|]. simpl.
  split; [|split; [|split]].
  - intros H%list_elem_of_In. simpl in H. intuition discriminate.
  - intros H%list_elem_of_In. simpl in H. intuition discriminate.
  - apply list_elem_of_In. simpl. auto 10.
  - apply list_elem_of_In. simpl. auto 10.
Qed.

(** C10, amended.  Whatever its input, [transform] returns no
    document-topic array: it fails.  When the validation of the input
    succeeds, the failure is the [AttributeError] of reading the attribute
    [vals], which a coordinate sparse matrix does not have; it is raised
    while the arguments of the call are evaluated, before [plsa_refit] is
    entered.  In the call as written, [n] and [m] are in the positions of
    [topics] and [n_documents], and the components in that of [n_iter]. *)
Theorem transform_always_fails ln normalize np_random_random check_array
    coo_matrix components_ X :
  (∃ e, transform ln normalize np_random_random check_array coo_matrix
          components_ X = Raise e) ∧
  (∀ X', check_array X = Ok X' →
     transform ln normalize np_random_random check_array coo_matrix
       components_ X = Raise (AttributeError "vals")) ∧
  bind_positional plsa_refit_params transform_args =
    Ok [("X_rows", AttributeOfX "row"); ("X_cols", AttributeOfX "col");
        ("X_vals", AttributeOfX "vals"); ("topics", Name_n);
        ("n_documents", Name_m); ("n_iter", Components)].
Proof.
  assert (∀ X', check_array X = Ok X' →
     transform ln normalize np_random_random check_array coo_matrix
       components_ X = Raise (AttributeError "vals")) as Hvals.
  { intros X' HX. unfold transform, obind. rewrite HX. by destruct X'. }
  split; [|split; [exact Hvals|reflexivity]].
  destruct (check_array X) as [X'|e] eqn:HX.
  - exists (AttributeError "vals"). by apply (Hvals X').
  - exists e. unfold transform, obind. by rewrite HX.
Qed.

Lemma transform_always_fails_witness :
  ex_check_array (SparseInput ex_X) = Ok (SparseInput ex_X) ∧
  transform ex_ln ex_normalize ex_random ex_check_array ex_coo_matrix
    (p_w_given_z ex_store) (SparseInput ex_X) = Raise (AttributeError "vals").
Proof.
  split; [reflexivity|].
  apply (proj1 (proj2 (transform_always_fails ex_ln ex_normalize ex_random
           ex_check_array ex_coo_matrix (p_w_given_z ex_store) (SparseInput ex_X)))
           (SparseInput ex_X)).
  reflexivity.
Defined.

(** * Further properties of the kernels *)

(** ** What each kernel writes *)

(** X1.  Whatever its arguments, and however it ends, the expectation step
    writes the posterior array only: the two arrays of the model and the
    two accumulators are at the end as they were at entry. *)
Theorem e_step_writes_only_posterior X_rows X_cols X_vals thr σ :
  only_posterior σ (plsa_e_step X_rows X_cols X_vals thr σ).2.
Proof.
  rewrite plsa_e_step_with.
  apply (preserves_e_step_with (only_posterior σ)).
  - intros a σ' H. eapply only_posterior_trans; [exact H|apply only_posterior_wr].
  - apply only_posterior_refl.
Qed.

(** X2.  Whatever its arguments, evaluating the log-likelihood writes no
    array: it ends, with a value or with a failure, in the store it
    started from. *)
Theorem log_likelihood_read_only X_rows X_cols X_vals ln σ :
  ∃ o, log_likelihood X_rows X_cols X_vals ln σ = (o, σ).
Proof.
  pose proof (log_likelihood_pure X_rows X_cols X_vals ln σ) as H.
  destruct (log_likelihood X_rows X_cols X_vals ln σ) as [o σ'].
  simpl in H. subst. by exists o.
Qed.

Section StepFrames.

Variables (X_rows X_cols : list nat) (X_vals : list Qc).
Variable I : arrays → Prop.

Lemma preserves_m_step :
  (∀ a σ, I σ → I (wr2 PWZ a σ)) → (∀ a σ, I σ → I (wr2 PZD a σ)) →
  (∀ r b σ, I σ → I (wr1 r b σ)) →
  preserves I (plsa_m_step X_rows X_cols X_vals).
Proof.
  intros Iw Id In. unfold plsa_m_step.
  apply preserves_bind; [apply preserves_shape1_of|]. intros k.
  apply preserves_bind; [apply preserves_shape0_of|]. intros n.
  apply preserves_bind; [apply preserves_shape1_of|]. intros m.
  apply preserves_bind; [apply preserves_fill2, Iw|]. intros _.
  apply preserves_bind; [apply preserves_fill2, Id|]. intros _.
  apply preserves_bind; [apply preserves_fill1, In|]. intros _.
  apply preserves_bind; [apply preserves_fill1, In|]. intros _.
  apply preserves_bind.
  - apply preserves_for_range. intros nz.
    apply preserves_bind; [apply preserves_kopt|]. intros d.
    apply preserves_bind; [apply preserves_kopt|]. intros w.
    apply preserves_bind; [apply preserves_kopt|]. intros x.
    apply preserves_for_range. intros z.
    apply preserves_bind; [apply preserves_load2|]. intros p. cbv zeta.
    apply preserves_bind; [apply preserves_iadd2, Iw|]. intros _.
    apply preserves_bind; [apply preserves_iadd2, Id|]. intros _.
    apply preserves_bind; [apply preserves_iadd1, In|]. intros _.
    apply preserves_iadd1, In.
  - intros _. apply preserves_for_range. intros z. apply preserves_bind.
    + apply preserves_for_range. intros w.
      apply preserves_bind; [apply preserves_load1|]. intros c.
      case_decide; [apply preserves_idiv2, Iw|apply preserves_ret].
    + intros _. apply preserves_for_range. intros d.
      apply preserves_bind; [apply preserves_load1|]. intros c.
      case_decide; [apply preserves_idiv2, Id|apply preserves_ret].
Qed.

Lemma preserves_refit_m_step_documents :
  (∀ a σ, I σ → I (wr2 PZD a σ)) → (∀ b σ, I σ → I (wr1 NPDZ b σ)) →
  preserves I (plsa_refit_m_step X_rows X_cols X_vals).
Proof.
  intros Id In. unfold plsa_refit_m_step.
  apply preserves_bind; [apply preserves_shape1_of|]. intros k.
  apply preserves_bind; [apply preserves_shape0_of|]. intros n.
  apply preserves_bind; [apply preserves_fill2, Id|]. intros _.
  apply preserves_bind; [apply preserves_fill1, In|]. intros _.
  apply preserves_bind.
  - apply preserves_for_range. intros nz.
    apply preserves_bind; [apply preserves_kopt|]. intros d.
    apply preserves_bind; [apply preserves_kopt|]. intros w.
    apply preserves_bind; [apply preserves_kopt|]. intros x.
    apply preserves_for_range. intros z.
    apply preserves_bind; [apply preserves_load2|]. intros p. cbv zeta.
    apply preserves_bind; [apply preserves_iadd2, Id|]. intros _.
    apply preserves_iadd1, In.
  - intros _. apply preserves_for_range. intros z.
    apply preserves_for_range. intros d.
    apply preserves_bind; [apply preserves_load1|]. intros c.
    case_decide; [apply preserves_idiv2, Id|apply preserves_ret].
Qed.

End StepFrames.

Lemma m_step_same_posterior X_rows X_cols X_vals σ :
  same_posterior σ (plsa_m_step X_rows X_cols X_vals σ).2.
Proof.
  apply (preserves_m_step X_rows X_cols X_vals (same_posterior σ)); try done.
  by intros [] b σ'.
Qed.

(** X3.  Whatever its arguments, and however it ends, the maximisation
    step does not write the posterior array. *)
Theorem m_step_keeps_posterior X_rows X_cols X_vals σ :
  p_z_given_wd (plsa_m_step X_rows X_cols X_vals σ).2 = p_z_given_wd σ.
Proof. apply m_step_same_posterior. Qed.

(** X4.  Whatever its arguments, and however it ends, the constrained
    maximisation step writes the document-topic array and the
    per-document accumulator only: the topic-word array, the posterior
    array and the per-topic accumulator are as they were. *)
Theorem refit_m_step_writes_only_documents X_rows X_cols X_vals σ :
  only_documents σ (plsa_refit_m_step X_rows X_cols X_vals σ).2.
Proof.
  apply (preserves_refit_m_step_documents X_rows X_cols X_vals (only_documents σ));
    by unfold only_documents.
Qed.

(** ** The values of the expectation step *)

Lemma sum_upto_S f n : sum_upto f (S n) = sum_upto f n + f n.
Proof.
  unfold sum_upto. rewrite seq_S, map_app, vsum_app. simpl.
  unfold vsum at 2. simpl. by rewrite Qcplus_0_r.
Qed.

Lemma e_row_lookup thr pwz pzd d w k z :
  (z < k)%nat →
  let c := λ z, let v := at2 pwz z w * at2 pzd d z in
                if decide (thr < v) then v else 0 in
  e_row (λ v, thr < v) pwz pzd d w k !! z =
  Some (if decide (0 < sum_upto c k) then c z / sum_upto c k else c z).
Proof.
  intros Hz c. unfold e_row, scale_row.
  change (vsum (e_products (λ v, thr < v) pwz pzd d w k)) with (sum_upto c k).
  assert (e_products (λ v, thr < v) pwz pzd d w k !! z = Some (c z)) as Hc.
  { unfold e_products. rewrite list_lookup_fmap.
    by rewrite (proj2 (lookup_seq 0 k z z)). }
  case_decide; [|done]. by rewrite list_lookup_fmap, Hc.
Qed.

Lemma e_step_values X_rows X_cols X_vals thr n m k σ :
  shaped σ n m k (length X_vals) →
  entries_in X_rows X_cols X_vals n m →
  ∃ σ', plsa_e_step X_rows X_cols X_vals thr σ = (Ok tt, σ') ∧
    only_posterior σ σ' ∧ has_shape (p_z_given_wd σ') (length X_vals) k ∧
    ∀ nz d w z, X_rows !! nz = Some d → X_cols !! nz = Some w → (z < k)%nat →
      let c := λ z, let v := at2 (p_w_given_z σ) z w * at2 (p_z_given_d σ) d z in
                    if decide (thr < v) then v else 0 in
      at2 (p_z_given_wd σ') nz z =
      if decide (0 < sum_upto c k) then c z / sum_upto c k else c z.
Proof.
  intros Hsh Hent. rewrite plsa_e_step_with.
  destruct (e_step_with_spec X_rows X_cols X_vals (λ v, thr < v) n m k _ σ
              (shaped_refit_shaped _ _ _ _ _ Hsh) eq_refl Hent)
    as ([] & σ' & Hrun & Hfr & Hshape & Hrows).
  exists σ'. split; [done|]. split; [done|]. split; [done|].
  intros nz d w z Hd Hw Hz c. unfold at2 at 1. rewrite mget_row.
  rewrite (Hrows nz d w Hd Hw).
  by rewrite (e_row_lookup thr (p_w_given_z σ) (p_z_given_d σ) d w k z Hz).
Qed.

(** X5.  On well-shaped arrays the expectation step ends without a
    failure, and the posterior of an entry at document [d] and word [w]
    for topic [z] is then: with [c z'] the product P(w|z')·P(z'|d) when it
    exceeds the threshold and 0 otherwise, [c z] divided by the sum of the
    [c z'] over the topics when the sum is positive, and [c z] otherwise. *)
Theorem e_step_formula X_rows X_cols X_vals thr n m k σ :
  shaped σ n m k (length X_vals) →
  entries_in X_rows X_cols X_vals n m →
  ∃ σ', plsa_e_step X_rows X_cols X_vals thr σ = (Ok tt, σ') ∧
    ∀ nz d w z, X_rows !! nz = Some d → X_cols !! nz = Some w → (z < k)%nat →
      let c := λ z, let v := at2 (p_w_given_z σ) z w * at2 (p_z_given_d σ) d z in
                    if decide (thr < v) then v else 0 in
      at2 (p_z_given_wd σ') nz z =
      if decide (0 < sum_upto c k) then c z / sum_upto c k else c z.
Proof.
  intros Hsh Hent.
  destruct (e_step_values X_rows X_cols X_vals thr n m k σ Hsh Hent)
    as (σ' & Hrun & _ & _ & Hval).
  by exists σ'.
Qed.

Lemma e_step_formula_witness :
  shaped ex_store 2 2 2 (length ex_vals) ∧
  entries_in ex_rows ex_cols ex_vals 2 2 ∧
  ∃ σ', plsa_e_step ex_rows ex_cols ex_vals 0 ex_store = (Ok tt, σ') ∧
    ∀ nz d w z, ex_rows !! nz = Some d → ex_cols !! nz = Some w → (z < 2)%nat →
      let c := λ z, let v := at2 (p_w_given_z ex_store) z w *
                             at2 (p_z_given_d ex_store) d z in
                    if decide (0 < v) then v else 0 in
      at2 (p_z_given_wd σ') nz z =
      if decide (0 < sum_upto c 2) then c z / sum_upto c 2 else c z.
Proof.
  split; [by_decide|]. split; [by_decide|].
  apply (e_step_formula ex_rows ex_cols ex_vals 0 2 2 2 ex_store).
  - by_decide.
  - by_decide.
Defined.

(** X6.  On well-shaped arrays, after the expectation step the posterior
    of an entry is 0 for every topic whose product P(w|z)·P(z|d) does not
    exceed the threshold. *)
Theorem e_step_cutoff X_rows X_cols X_vals thr n m k σ :
  shaped σ n m k (length X_vals) →
  entries_in X_rows X_cols X_vals n m →
  ∃ σ', plsa_e_step X_rows X_cols X_vals thr σ = (Ok tt, σ') ∧
    ∀ nz d w z, X_rows !! nz = Some d → X_cols !! nz = Some w → (z < k)%nat →
      at2 (p_w_given_z σ) z w * at2 (p_z_given_d σ) d z <= thr →
      at2 (p_z_given_wd σ') nz z = 0.
Proof.
  intros Hsh Hent.
  destruct (e_step_values X_rows X_cols X_vals thr n m k σ Hsh Hent)
    as (σ' & Hrun & _ & _ & Hval).
  exists σ'. split; [done|]. intros nz d w z Hd Hw Hz Hle.
  rewrite (Hval nz d w z Hd Hw Hz). cbv zeta.
  rewrite (decide_False (P := thr < _)) by (by apply Qcle_not_lt).
  case_decide; [|done]. unfold Qcdiv. ring.
Qed.

Lemma e_step_cutoff_witness :
  shaped ex_store 2 2 2 (length ex_vals) ∧
  entries_in ex_rows ex_cols ex_vals 2 2 ∧
  ∃ σ', plsa_e_step ex_rows ex_cols ex_vals (Q2Qc (3 # 10)) ex_store = (Ok tt, σ') ∧
    ∀ nz d w z, ex_rows !! nz = Some d → ex_cols !! nz = Some w → (z < 2)%nat →
      at2 (p_w_given_z ex_store) z w * at2 (p_z_given_d ex_store) d z <= Q2Qc (3 # 10) →
      at2 (p_z_given_wd σ') nz z = 0.
Proof.
  split; [by_decide|]. split; [by_decide|].
  apply (e_step_cutoff ex_rows ex_cols ex_vals (Q2Qc (3 # 10)) 2 2 2 ex_store).
  - by_decide.
  - by_decide.
Defined.

Lemma arrays_eq σ σ' :
  p_w_given_z σ' = p_w_given_z σ → p_z_given_d σ' = p_z_given_d σ →
  p_z_given_wd σ' = p_z_given_wd σ → norm_pwz σ' = norm_pwz σ →
  norm_pdz σ' = norm_pdz σ → σ' = σ.
Proof. destruct σ, σ'. simpl. by intros -> -> -> -> ->. Qed.

(** X7.  On well-shaped arrays the expectation step is idempotent: run
    again on the store it has produced, it ends without a failure and
    leaves that store as it is (the posteriors depend on the model only,
    not on what the posterior array held). *)
Theorem e_step_idempotent X_rows X_cols X_vals thr n m k σ σ' :
  shaped σ n m k (length X_vals) →
  entries_in X_rows X_cols X_vals n m →
  plsa_e_step X_rows X_cols X_vals thr σ = (Ok tt, σ') →
  plsa_e_step X_rows X_cols X_vals thr σ' = (Ok tt, σ').
Proof.
  intros Hsh Hent Hrun. rewrite plsa_e_step_with in *.
  destruct (e_step_with_spec X_rows X_cols X_vals (λ v, thr < v) n m k _ σ
              (shaped_refit_shaped _ _ _ _ _ Hsh) eq_refl Hent)
    as ([] & σ1 & Hrun1 & (Ew & Ed & Enw & End) & Hshape & Hrows).
  rewrite Hrun in Hrun1. injection Hrun1 as <-.
  assert (refit_shaped σ' n m k (length X_vals)) as Hsh'.
  { destruct Hsh as (? & ? & ? & ? & ?). unfold refit_shaped.
    by rewrite Ew, Ed, End. }
  destruct (e_step_with_spec X_rows X_cols X_vals (λ v, thr < v) n m k _ σ'
              Hsh' eq_refl Hent)
    as ([] & σ2 & Hrun2 & (Ew2 & Ed2 & Enw2 & End2) & Hshape2 & Hrows2).
  rewrite Hrun2. f_equal. apply arrays_eq; try done.
  apply (matrix_ext _ _ (length X_vals) k); [done..|].
  intros nz Hnz. destruct Hent as (Hlr & Hlc & _).
  destruct (lookup_lt_is_Some_2 X_rows nz) as [d Hd]; [lia|].
  destruct (lookup_lt_is_Some_2 X_cols nz) as [w Hw]; [lia|].
  rewrite (Hrows2 nz d w Hd Hw), (Hrows nz d w Hd Hw). by rewrite Ew, Ed.
Qed.

Lemma e_step_idempotent_witness :
  let σ' := (plsa_e_step ex_rows ex_cols ex_vals 0 ex_store).2 in
  shaped ex_store 2 2 2 (length ex_vals) ∧
  entries_in ex_rows ex_cols ex_vals 2 2 ∧
  plsa_e_step ex_rows ex_cols ex_vals 0 ex_store = (Ok tt, σ') ∧
  plsa_e_step ex_rows ex_cols ex_vals 0 σ' = (Ok tt, σ').
Proof.
  intros σ'. split; [by_decide|]. split; [by_decide|]. split; [by_compute|].
  apply (e_step_idempotent ex_rows ex_cols ex_vals 0 2 2 2 ex_store σ').
  - by_decide.
  - by_decide.
  - by_compute.
Defined.

(** ** The values of the maximisation step *)

Lemma at2_row a i j : at2 a i j = default 0 (row a i !! j).
Proof. unfold at2. by rewrite mget_row. Qed.

Lemma at2_madd a n m i j s i' j' :
  has_shape a n m → (i < n)%nat → (j < m)%nat →
  at2 (madd a i j s) i' j' =
  if decide (i' = i ∧ j' = j) then at2 a i j + s else at2 a i' j'.
Proof.
  intros Ha Hi Hj. rewrite !at2_row, (row_madd a n m) by done.
  pose proof (row_length a n m i Ha Hi) as Hl.
  destruct (decide (i' = i)) as [->|Hne].
  - destruct (decide (j' = j)) as [->|Hnej].
    + rewrite decide_True by done. rewrite list_lookup_insert_eq by lia.
      simpl. by rewrite <- at2_row.
    + rewrite decide_False by (intros [_ ?]; done).
      by rewrite list_lookup_insert_ne.
  - by rewrite decide_False by (intros [? _]; done).
Qed.

Lemma row_of_cells a n m i (f : nat → Qc) :
  has_shape a n m → (i < n)%nat →
  (∀ j, (j < m)%nat → at2 a i j = f j) → row a i = map f (seq 0 m).
Proof.
  intros Ha Hi Hf. pose proof (row_length a n m i Ha Hi) as Hl.
  apply list_eq. intros j. rewrite list_lookup_fmap.
  destruct (decide (j < m)%nat) as [Hj|Hj].
  - rewrite (proj2 (lookup_seq 0 m j j)) by done. simpl.
    rewrite <- (Hf j Hj), at2_row.
    destruct (lookup_lt_is_Some_2 (row a i) j) as [x ->]; [lia|done].
  - rewrite (lookup_ge_None_2 (seq 0 m)) by (rewrite length_seq; lia).
    apply lookup_ge_None_2. lia.
Qed.

Section AccumulateIndexed.

Variables (X_rows X_cols : list nat) (X_vals : list Qc).
Variables (n m k nnz : nat).
Hypothesis Hnnz : nnz = length X_vals.
Hypothesis Hentries : entries_in X_rows X_cols X_vals n m.

(** The accumulation loop with a property [J i zl] of the store that
    follows its progress: [i] entries are done, and the first [zl] topics
    of entry [i]. *)
Lemma m_accumulate_indexed (J : nat → nat → arrays → Prop) σ :
  (∀ i zl σ, J i zl σ → shaped σ n m k nnz) →
  (∀ i σ, (i < nnz)%nat → J i k σ → J (S i) 0%nat σ) →
  (∀ i zl σ d w x, J i zl σ →
     X_rows !! i = Some d → X_cols !! i = Some w → X_vals !! i = Some x →
     (zl < k)%nat → J i (S zl) (m_add σ zl w d (x * at2 (p_z_given_wd σ) i zl))) →
  J 0%nat 0%nat σ →
  wp (for_range (length X_vals) (λ nz_idx,
        d <- index X_rows nz_idx ;;
        w <- index X_cols nz_idx ;;
        x <- index X_vals nz_idx ;;
        for_range k (λ z,
          p <- load2 PZWD nz_idx z ;;
          let s := x * p in
          iadd2 PWZ z w s ;;;
          iadd2 PZD d z s ;;;
          iadd1 NPWZ z s ;;;
          iadd1 NPDZ d s)))
     (λ _ σ', J nnz 0%nat σ') σ.
Proof.
  intros Hshape Hnext Hstep H0. destruct Hentries as (Hlr & Hlc & Hrows & Hcols).
  rewrite <- Hnnz.
  apply (wp_for_range (λ i, J i 0%nat)); [done|].
  intros nz σ1 Hnz H1.
  destruct (lookup_lt_is_Some_2 X_rows nz) as [d Hd]; [lia|].
  destruct (lookup_lt_is_Some_2 X_cols nz) as [w Hw]; [lia|].
  destruct (lookup_lt_is_Some_2 X_vals nz) as [x Hx]; [lia|].
  pose proof (Forall_lookup_1 _ _ _ _ Hrows Hd) as Hdn.
  pose proof (Forall_lookup_1 _ _ _ _ Hcols Hw) as Hwm.
  apply wp_bind. eapply wp_index; [exact Hd|].
  apply wp_bind. eapply wp_index; [exact Hw|].
  apply wp_bind. eapply wp_index; [exact Hx|].
  eapply wp_mono.
  - apply (wp_for_range (λ zl, J nz zl)); [done|].
    intros z σ2 Hz H2. pose proof (Hshape _ _ σ2 H2) as Hsh2.
    apply wp_bind. eapply wp_load2.
    { simpl. eapply row_at2; [apply Hsh2|lia|done]. }
    cbv zeta. eapply wp_mono; [by apply (m_add_exec X_vals n m k nnz Hnnz)|].
    intros _ σ3 ->. by apply Hstep.
  - intros [] σ2 H2. by apply Hnext.
Qed.

End AccumulateIndexed.

Lemma scale_row_at c (f : nat → Qc) m j :
  (j < m)%nat →
  default 0 (scale_row c (map f (seq 0 m)) !! j) =
  if decide (0 < c) then f j / c else f j.
Proof.
  intros Hj. unfold scale_row. case_decide.
  - rewrite !list_lookup_fmap. by rewrite (proj2 (lookup_seq 0 m j j)).
  - rewrite list_lookup_fmap. by rewrite (proj2 (lookup_seq 0 m j j)).
Qed.

Section MaximisationValues.

Variables (X_rows X_cols : list nat) (X_vals : list Qc).
Variables (n m k : nat).
Hypothesis Hentries : entries_in X_rows X_cols X_vals n m.

(** The maximisation step in terms of the weights of the entries: before
    the normalisation, each cell of the topic-word array holds the weight
    of its word under its topic, each cell of the document-topic array the
    weight of its topic in its document, and each accumulator the sum of
    its row; the normalisation divides each row by its accumulator when it
    is positive. *)
Lemma m_step_values σ :
  shaped σ n m k (length X_vals) →
  let P := p_z_given_wd σ in
  let nnz := length X_vals in
  ∃ σ', plsa_m_step X_rows X_cols X_vals σ = (Ok tt, σ') ∧
    shaped σ' n m k nnz ∧
    (∀ z, (z < k)%nat →
       let R := map (word_mass X_cols X_vals P nnz z) (seq 0 m) in
       row (p_w_given_z σ') z = scale_row (vsum R) R ∧ vat (norm_pwz σ') z = vsum R) ∧
    (∀ d, (d < n)%nat →
       let R := map (doc_mass X_rows X_vals P nnz d) (seq 0 k) in
       row (p_z_given_d σ') d = scale_row (vsum R) R ∧ vat (norm_pdz σ') d = vsum R).
Proof.
  intros Hsh P nnz. pose proof Hsh as (Hpwz & Hpzd & Hpost & Hnw & Hnd).
  set (mw := m_weight X_vals P).
  set (J := λ (i zl : nat) (σ1 : arrays),
    shaped σ1 n m k nnz ∧ p_z_given_wd σ1 = P ∧
    (∀ z w, (z < k)%nat → (w < m)%nat →
       at2 (p_w_given_z σ1) z w = word_mass X_cols X_vals P i z w +
         (if decide ((z < zl)%nat ∧ X_cols !! i = Some w) then mw i z else 0)) ∧
    (∀ d z, (d < n)%nat → (z < k)%nat →
       at2 (p_z_given_d σ1) d z = doc_mass X_rows X_vals P i d z +
         (if decide ((z < zl)%nat ∧ X_rows !! i = Some d) then mw i z else 0)) ∧
    (∀ z, (z < k)%nat → vat (norm_pwz σ1) z = vsum (row (p_w_given_z σ1) z)) ∧
    (∀ d, (d < n)%nat → vat (norm_pdz σ1) d = vsum (row (p_z_given_d σ1) d))).
  assert (wp (plsa_m_step X_rows X_cols X_vals)
            (λ _ σ', ∃ σ1 a b, J nnz 0%nat σ1 ∧ σ' = wr2 PZD b (wr2 PWZ a σ1) ∧
               has_shape a k m ∧ has_shape b n k ∧
               (∀ z, (z < k)%nat →
                  row a z = scale_row (vat (norm_pwz σ1) z) (row (p_w_given_z σ1) z)) ∧
               (∀ d, (d < n)%nat →
                  row b d = scale_row (vat (norm_pdz σ1) d) (row (p_z_given_d σ1) d))) σ)
    as ([] & σ' & Hrun & σ1 & a & b & HJ & -> & Ha & Hb & Hra & Hrb).
  { unfold plsa_m_step.
    apply wp_bind, wp_shape1_of. simpl.
    replace (shape1 (p_z_given_wd σ)) with k by (symmetry; apply Hpost).
    apply wp_bind, wp_shape0_of. simpl.
    replace (shape0 (p_z_given_d σ)) with n by (symmetry; apply Hpzd).
    apply wp_bind, wp_shape1_of. simpl.
    replace (shape1 (p_w_given_z σ)) with m by (symmetry; apply Hpwz).
    apply wp_bind, wp_fill2. apply wp_bind, wp_fill2.
    apply wp_bind, wp_fill1. apply wp_bind, wp_fill1. simpl.
    match goal with |- wp _ _ ?s => change s with (m_zeroed σ) end.
    apply wp_bind. eapply wp_mono.
    { apply (m_accumulate_indexed X_rows X_cols X_vals n m k nnz eq_refl Hentries J).
      - by intros i zl σ1 (? & _).
      - intros i σ1 Hi (Hsh1 & HP1 & HcW & HcD & HsW & HsD).
        split; [done|]. split; [done|]. split; [|split; [|done]].
        + intros z w Hz Hw. rewrite (HcW z w Hz Hw).
          unfold word_mass. rewrite sum_upto_S.
          try (rewrite (decide_False (P := (z < 0)%nat ∧ _)) by lia).
          rewrite Qcplus_0_r. f_equal.
          destruct (decide (X_cols !! i = Some w)) as [E|E].
          * by rewrite decide_True by done.
          * by rewrite decide_False by (intros [_ ?]; done).
        + intros d z Hd Hz. rewrite (HcD d z Hd Hz).
          unfold doc_mass. rewrite sum_upto_S.
          try (rewrite (decide_False (P := (z < 0)%nat ∧ _)) by lia).
          rewrite Qcplus_0_r. f_equal.
          destruct (decide (X_rows !! i = Some d)) as [E|E].
          * by rewrite decide_True by done.
          * by rewrite decide_False by (intros [_ ?]; done).
      - intros i zl σ1 d w x (Hsh1 & HP1 & HcW & HcD & HsW & HsD) Ed Ew Ex Hzl.
        pose proof Hsh1 as (Hpwz1 & Hpzd1 & _ & Hnw1 & Hnd1).
        destruct Hentries as (_ & _ & Hrows & Hcols).
        pose proof (Forall_lookup_1 _ _ _ _ Hrows Ed) as Hdn.
        pose proof (Forall_lookup_1 _ _ _ _ Hcols Ew) as Hwm.
        simpl in Hdn, Hwm.
        assert (x * at2 (p_z_given_wd σ1) i zl = mw i zl) as ->.
        { unfold mw, m_weight, vat. by rewrite Ex, HP1. }
        split; [by apply shaped_m_add|]. split; [done|]. simpl.
        split; [|split; [|split]].
        + intros z w' Hz Hw'. rewrite (at2_madd _ k m) by done.
          destruct (decide (z = zl ∧ w' = w)) as [[-> ->]|Hne].
          * rewrite (HcW zl w Hzl Hwm).
            rewrite (decide_False (P := (zl < zl)%nat ∧ _)) by lia.
            rewrite (decide_True (P := (zl < S zl)%nat ∧ _)) by (split; [lia|done]).
            ring.
          * rewrite (HcW z w' Hz Hw'). f_equal.
            destruct (decide ((z < zl)%nat ∧ X_cols !! i = Some w')) as [[? ?]|Hn].
            -- by rewrite decide_True by (split; [lia|done]).
            -- rewrite decide_False; [done|]. intros [Hlt Hc].
               apply Hn. split; [|done].
               destruct (decide (z = zl)) as [->|]; [|lia].
               exfalso. apply Hne. split; [done|]. congruence.
        + intros d' z Hd' Hz. rewrite (at2_madd _ n k) by done.
          destruct (decide (d' = d ∧ z = zl)) as [[-> ->]|Hne].
          * rewrite (HcD d zl Hdn Hzl).
            rewrite (decide_False (P := (zl < zl)%nat ∧ _)) by lia.
            rewrite (decide_True (P := (zl < S zl)%nat ∧ _)) by (split; [lia|done]).
            ring.
          * rewrite (HcD d' z Hd' Hz). f_equal.
            destruct (decide ((z < zl)%nat ∧ X_rows !! i = Some d')) as [[? ?]|Hn].
            -- by rewrite decide_True by (split; [lia|done]).
            -- rewrite decide_False; [done|]. intros [Hlt Hc].
               apply Hn. split; [|done].
               destruct (decide (z = zl)) as [->|]; [|lia].
               exfalso. apply Hne. split; [congruence|done].
        + intros z' Hz'. rewrite vat_vadd by lia. case_decide as E.
          * subst z'. rewrite (vsum_row_madd _ k m) by done. by rewrite HsW.
          * rewrite (row_madd _ k m), decide_False by done. by apply HsW.
        + intros d' Hd'. rewrite vat_vadd by lia. case_decide as E.
          * subst d'. rewrite (vsum_row_madd _ n k) by done. by rewrite HsD.
          * rewrite (row_madd _ n k), decide_False by done. by apply HsD.
      - split; [by apply shaped_m_zeroed|]. split; [done|]. simpl.
        rewrite (mfill_zeros _ _ _ Hpwz), (mfill_zeros _ _ _ Hpzd), !vfill_replicate.
        split; [|split; [|split]].
        + intros z w _ _. rewrite at2_zeros2.
          try (rewrite (decide_False (P := (z < 0)%nat ∧ _)) by lia).
          unfold word_mass, sum_upto, vsum. simpl. ring.
        + intros d z _ _. rewrite at2_zeros2.
          try (rewrite (decide_False (P := (z < 0)%nat ∧ _)) by lia).
          unfold doc_mass, sum_upto, vsum. simpl. ring.
        + intros z Hz. unfold vat. rewrite lookup_replicate_2 by lia.
          by rewrite row_zeros2, vsum_replicate_0.
        + intros d Hd. unfold vat. rewrite lookup_replicate_2 by lia.
          by rewrite row_zeros2, vsum_replicate_0. }
    intros [] σ1 H1. simpl in H1 |- *.
    eapply wp_mono; [apply (m_normalise n m k nnz); apply H1|].
    intros _ σ' (a & b & E & Ha & Hb & Hra & Hrb). by exists σ1, a, b. }
  destruct HJ as (Hsh1 & HP1 & HcW & HcD & HsW & HsD).
  pose proof Hsh1 as (Hpwz1 & Hpzd1 & Hpost1 & Hnw1 & Hnd1).
  exists (wr2 PZD b (wr2 PWZ a σ1)). split; [done|]. split.
  { unfold shaped. simpl. auto. }
  split.
  - intros z Hz R. simpl.
    assert (row (p_w_given_z σ1) z = R) as HR.
    { apply (row_of_cells _ k m); [done..|]. intros w Hw.
      rewrite (HcW z w Hz Hw).
      try (rewrite (decide_False (P := (z < 0)%nat ∧ _)) by lia). ring. }
    rewrite Hra, HsW, HR by done. done.
  - intros d Hd R. simpl.
    assert (row (p_z_given_d σ1) d = R) as HR.
    { apply (row_of_cells _ n k); [done..|]. intros z Hz.
      rewrite (HcD d z Hd Hz).
      try (rewrite (decide_False (P := (z < 0)%nat ∧ _)) by lia). ring. }
    rewrite Hrb, HsD, HR by done. done.
Qed.

End MaximisationValues.

(** X8.  On well-shaped arrays the maximisation step ends without a
    failure and computes a closed form of the posteriors and the entries
    alone.  With the weight of an entry for
    topic [z] its value times its posterior for [z]: P(w|z) is the weight
    of the entries of word [w] for [z], divided by the weight of all
    entries for [z] when that is positive; P(z|d) is the weight of the
    entries of document [d] for [z], divided by the weight of those entries
    for all topics when that is positive.  A cell whose divisor is not
    positive holds the undivided weight. *)
Theorem m_step_formula X_rows X_cols X_vals n m k σ :
  shaped σ n m k (length X_vals) →
  entries_in X_rows X_cols X_vals n m →
  let P := p_z_given_wd σ in
  let nnz := length X_vals in
  ∃ σ', plsa_m_step X_rows X_cols X_vals σ = (Ok tt, σ') ∧
    (∀ z w, (z < k)%nat → (w < m)%nat →
       let T := sum_upto (word_mass X_cols X_vals P nnz z) m in
       at2 (p_w_given_z σ') z w =
       if decide (0 < T) then word_mass X_cols X_vals P nnz z w / T
       else word_mass X_cols X_vals P nnz z w) ∧
    (∀ d z, (d < n)%nat → (z < k)%nat →
       let T := sum_upto (doc_mass X_rows X_vals P nnz d) k in
       at2 (p_z_given_d σ') d z =
       if decide (0 < T) then doc_mass X_rows X_vals P nnz d z / T
       else doc_mass X_rows X_vals P nnz d z).
Proof.
  intros Hsh Hent P nnz.
  destruct (m_step_values X_rows X_cols X_vals n m k Hent σ Hsh)
    as (σ' & Hrun & _ & Hw & Hd).
  exists σ'. split; [done|]. split.
  - intros z w Hz Hwm T. destruct (Hw z Hz) as [Hrow _].
    rewrite at2_row, Hrow. by apply scale_row_at.
  - intros d z Hdn Hz T. destruct (Hd d Hdn) as [Hrow _].
    rewrite at2_row, Hrow. by apply scale_row_at.
Qed.

Lemma m_step_formula_witness :
  shaped ex2_store 2 2 2 (length ex2_vals) ∧
  entries_in ex2_rows ex2_cols ex2_vals 2 2 ∧
  let P := p_z_given_wd ex2_store in
  let nnz := length ex2_vals in
  ∃ σ', plsa_m_step ex2_rows ex2_cols ex2_vals ex2_store = (Ok tt, σ') ∧
    (∀ z w, (z < 2)%nat → (w < 2)%nat →
       let T := sum_upto (word_mass ex2_cols ex2_vals P nnz z) 2 in
       at2 (p_w_given_z σ') z w =
       if decide (0 < T) then word_mass ex2_cols ex2_vals P nnz z w / T
       else word_mass ex2_cols ex2_vals P nnz z w) ∧
    (∀ d z, (d < 2)%nat → (z < 2)%nat →
       let T := sum_upto (doc_mass ex2_rows ex2_vals P nnz d) 2 in
       at2 (p_z_given_d σ') d z =
       if decide (0 < T) then doc_mass ex2_rows ex2_vals P nnz d z / T
       else doc_mass ex2_rows ex2_vals P nnz d z).
Proof.
  split; [by_decide|]. split; [by_decide|].
  apply (m_step_formula ex2_rows ex2_cols ex2_vals 2 2 2 ex2_store).
  - by_decide.
  - by_decide.
Defined.

Lemma vat_ext (b b' : list Qc) n :
  length b = n → length b' = n → (∀ i, (i < n)%nat → vat b i = vat b' i) → b = b'.
Proof.
  intros Hb Hb' H. apply list_eq. intros i.
  destruct (decide (i < n)%nat) as [Hi|Hi].
  - specialize (H i Hi). unfold vat in H.
    destruct (lookup_lt_is_Some_2 b i) as [x Hx]; [lia|].
    destruct (lookup_lt_is_Some_2 b' i) as [y Hy]; [lia|].
    rewrite Hx, Hy in *. simpl in H. by rewrite H.
  - by rewrite !lookup_ge_None_2 by lia.
Qed.

(** X9.  On well-shaped arrays the maximisation step is idempotent: run
    again on the store it has produced, it ends without a failure and
    leaves that store as it is.  Its result depends on the posteriors and
    the entries, not on what the model and the accumulators held. *)
Theorem m_step_idempotent X_rows X_cols X_vals n m k σ σ' :
  shaped σ n m k (length X_vals) →
  entries_in X_rows X_cols X_vals n m →
  plsa_m_step X_rows X_cols X_vals σ = (Ok tt, σ') →
  plsa_m_step X_rows X_cols X_vals σ' = (Ok tt, σ').
Proof.
  intros Hsh Hent Hrun.
  destruct (m_step_values X_rows X_cols X_vals n m k Hent σ Hsh)
    as (σ1 & Hrun1 & Hsh1 & Hw1 & Hd1).
  rewrite Hrun in Hrun1. injection Hrun1 as <-.
  pose proof (m_step_same_posterior X_rows X_cols X_vals σ) as HP.
  rewrite Hrun in HP. unfold same_posterior in HP. simpl in HP.
  destruct (m_step_values X_rows X_cols X_vals n m k Hent σ' Hsh1)
    as (σ2 & Hrun2 & Hsh2 & Hw2 & Hd2).
  pose proof (m_step_same_posterior X_rows X_cols X_vals σ') as HP2.
  rewrite Hrun2 in HP2. unfold same_posterior in HP2. simpl in HP2.
  rewrite HP in Hw2, Hd2.
  rewrite Hrun2. f_equal.
  destruct Hsh1 as (Hpwz1 & Hpzd1 & _ & Hnw1 & Hnd1).
  destruct Hsh2 as (Hpwz2 & Hpzd2 & _ & Hnw2 & Hnd2).
  apply arrays_eq; [| |done| |].
  - apply (matrix_ext _ _ k m); [done..|]. intros z Hz.
    destruct (Hw1 z Hz) as [-> _]. by destruct (Hw2 z Hz) as [-> _].
  - apply (matrix_ext _ _ n k); [done..|]. intros d Hd.
    destruct (Hd1 d Hd) as [-> _]. by destruct (Hd2 d Hd) as [-> _].
  - apply (vat_ext _ _ k); [done..|]. intros z Hz.
    destruct (Hw1 z Hz) as [_ ->]. by destruct (Hw2 z Hz) as [_ ->].
  - apply (vat_ext _ _ n); [done..|]. intros d Hd.
    destruct (Hd1 d Hd) as [_ ->]. by destruct (Hd2 d Hd) as [_ ->].
Qed.

Lemma m_step_idempotent_witness :
  let σ' := (plsa_m_step ex2_rows ex2_cols ex2_vals ex2_store).2 in
  shaped ex2_store 2 2 2 (length ex2_vals) ∧
  entries_in ex2_rows ex2_cols ex2_vals 2 2 ∧
  plsa_m_step ex2_rows ex2_cols ex2_vals ex2_store = (Ok tt, σ') ∧
  plsa_m_step ex2_rows ex2_cols ex2_vals σ' = (Ok tt, σ').
Proof.
  intros σ'. split; [by_decide|]. split; [by_decide|]. split; [by_compute|].
  apply (m_step_idempotent ex2_rows ex2_cols ex2_vals 2 2 2 ex2_store σ').
  - by_decide.
  - by_decide.
  - by_compute.
Defined.

(** ** One pass of expectation and maximisation *)

Lemma scale_row_nonneg c r :
  Forall (λ x, 0 <= x) r → Forall (λ x, 0 <= x) (scale_row c r).
Proof.
  intros Hr. unfold scale_row. case_decide as Hc; [|done].
  apply Forall_map. eapply Forall_impl; [exact Hr|]. intros x Hx. simpl.
  unfold Qcdiv. apply Qcmult_nonneg_nonneg; [done|].
  apply Qclt_le_weak. by apply Qcinv_pos.
Qed.

Lemma nonneg_of_rows a n m :
  has_shape a n m → (∀ i, (i < n)%nat → Forall (λ x, 0 <= x) (row a i)) → nonneg a.
Proof.
  intros (_ & Hn & _) H. unfold nonneg. apply Forall_lookup_2. intros i r Hr.
  pose proof (lookup_lt_Some _ _ _ Hr) as Hi.
  specialize (H i ltac:(lia)). unfold row in H. by rewrite Hr in H.
Qed.

Lemma map_seq_nonneg (f : nat → Qc) n :
  (∀ i, (i < n)%nat → 0 <= f i) → Forall (λ x, 0 <= x) (map f (seq 0 n)).
Proof.
  intros H. apply Forall_map, Forall_forall. intros i Hi. simpl.
  apply H. apply elem_of_seq in Hi. lia.
Qed.

Lemma sum_upto_nonneg (f : nat → Qc) n :
  (∀ i, (i < n)%nat → 0 <= f i) → 0 <= sum_upto f n.
Proof. intros H. unfold sum_upto. by apply vsum_nonneg, map_seq_nonneg. Qed.

Lemma m_weight_nonneg X_vals P nz z :
  Forall (λ x, 0 <= x) X_vals → nonneg P → 0 <= m_weight X_vals P nz z.
Proof.
  intros Hx HP. unfold m_weight. apply Qcmult_nonneg_nonneg; [|by apply at2_nonneg].
  unfold vat. destruct (X_vals !! nz) as [x|] eqn:E; [|done].
  apply (Forall_lookup_1 _ _ _ _ Hx E).
Qed.

Section EmPass.

Variables (X_rows X_cols : list nat) (X_vals : list Qc).
Variables (n m k : nat).
Hypothesis Hentries : entries_in X_rows X_cols X_vals n m.
Hypothesis Hvals : Forall (λ x, 0 <= x) X_vals.

(** With a non-negative threshold the posteriors are non-negative. *)
Lemma e_step_nonneg thr σ :
  refit_shaped σ n m k (length X_vals) → 0 <= thr →
  ∃ σ', plsa_e_step X_rows X_cols X_vals thr σ = (Ok tt, σ') ∧
    refit_shaped σ' n m k (length X_vals) ∧ only_posterior σ σ' ∧
    nonneg (p_z_given_wd σ').
Proof.
  intros Hsh Hthr. rewrite plsa_e_step_with.
  destruct (e_step_with_spec X_rows X_cols X_vals (λ v, thr < v) n m k _ σ
              Hsh eq_refl Hentries)
    as ([] & σ' & Hrun & (Ew & Ed & Enw & End) & Hshape & Hrows).
  exists σ'. split; [done|]. split.
  { destruct Hsh as (? & ? & ? & ?). unfold refit_shaped. by rewrite Ew, Ed, End. }
  split; [done|].
  apply (nonneg_of_rows _ (length X_vals) k); [done|]. intros nz Hnz.
  destruct Hentries as (Hlr & Hlc & _).
  destruct (lookup_lt_is_Some_2 X_rows nz) as [d Hd]; [lia|].
  destruct (lookup_lt_is_Some_2 X_cols nz) as [w Hw]; [lia|].
  rewrite (Hrows nz d w Hd Hw). unfold e_row.
  apply scale_row_nonneg, e_products_nonneg. by left.
Qed.

Lemma m_step_stochastic σ :
  shaped σ n m k (length X_vals) → nonneg (p_z_given_wd σ) →
  ∃ σ', plsa_m_step X_rows X_cols X_vals σ = (Ok tt, σ') ∧
    shaped σ' n m k (length X_vals) ∧
    stochastic_or_zero (p_w_given_z σ') ∧ stochastic_or_zero (p_z_given_d σ').
Proof.
  intros Hsh HP.
  destruct (m_step_values X_rows X_cols X_vals n m k Hentries σ Hsh)
    as (σ' & Hrun & Hsh' & Hw & Hd).
  exists σ'. split; [done|]. split; [done|].
  destruct Hsh' as (Hpwz & Hpzd & _). split.
  - intros z Hz. replace (shape0 (p_w_given_z σ')) with k in Hz by (symmetry; apply Hpwz).
    destruct (Hw z Hz) as [-> _].
    match goal with |- distribution (scale_row (vsum ?R) ?R) ∨ _ =>
      destruct (scale_row_distribution (vsum R) R) as [?|[? _]]; auto end.
    apply map_seq_nonneg. intros w _. unfold word_mass.
    apply sum_upto_nonneg. intros nz _. case_decide; [|done].
    by apply m_weight_nonneg.
  - intros d Hdn. replace (shape0 (p_z_given_d σ')) with n in Hdn by (symmetry; apply Hpzd).
    destruct (Hd d Hdn) as [-> _].
    match goal with |- distribution (scale_row (vsum ?R) ?R) ∨ _ =>
      destruct (scale_row_distribution (vsum R) R) as [?|[? _]]; auto end.
    apply map_seq_nonneg. intros z _. unfold doc_mass.
    apply sum_upto_nonneg. intros nz _. case_decide; [|done].
    by apply m_weight_nonneg.
Qed.

Lemma refit_m_step_stochastic σ :
  refit_shaped σ n m k (length X_vals) → nonneg (p_z_given_wd σ) →
  ∃ σ', plsa_refit_m_step X_rows X_cols X_vals σ = (Ok tt, σ') ∧
    refit_shaped σ' n m k (length X_vals) ∧
    stochastic_or_zero (p_z_given_d σ').
Proof.
  intros Hsh HP.
  set (J := λ σ1 : arrays,
    refit_shaped σ1 n m k (length X_vals) ∧ p_z_given_wd σ1 = p_z_given_wd σ ∧
    nonneg (p_z_given_d σ1) ∧
    (∀ d, (d < n)%nat → vat (norm_pdz σ1) d = vsum (row (p_z_given_d σ1) d))).
  destruct (refit_m_step_inv X_rows X_cols X_vals n m k _ eq_refl Hentries J σ Hsh)
    as ([] & σ' & Hrun & σ1 & b & HJ & -> & Hb & Hrb).
  - by intros σ1 (? & _).
  - intros σ1 nz d x z (Hsh1 & Hp1 & Hd1 & Hsd) Ed Ex Hz.
    pose proof Hsh1 as (_ & Hpzd & _ & Hnd).
    destruct Hentries as (_ & _ & Hrows & _).
    pose proof (Forall_lookup_1 _ _ _ _ Hrows Ed) as Hdn. simpl in Hdn.
    assert (0 <= x * at2 (p_z_given_wd σ1) nz z) as Hs.
    { apply Qcmult_nonneg_nonneg; [apply (Forall_lookup_1 _ _ _ _ Hvals Ex)|].
      rewrite Hp1. by apply at2_nonneg. }
    split; [by apply shaped_refit_add|]. split; [done|]. simpl.
    split; [by apply nonneg_madd|].
    intros d' Hd'. rewrite vat_vadd by lia. case_decide as E.
    + subst d'. rewrite (vsum_row_madd _ n k) by done. by rewrite Hsd.
    + rewrite (row_madd _ n k), decide_False by done. by apply Hsd.
  - pose proof Hsh as (_ & Hpzd & _ & Hnd).
    split; [by apply shaped_refit_zeroed|]. split; [done|]. simpl.
    rewrite (mfill_zeros _ _ _ Hpzd), !vfill_replicate.
    split; [apply Forall_replicate, Forall_replicate; done|].
    intros d Hd. unfold vat. rewrite lookup_replicate_2 by lia.
    by rewrite row_zeros2, vsum_replicate_0.
  - destruct HJ as (Hsh1 & Hp1 & Hd1 & Hsd).
    exists (wr2 PZD b σ1). split; [done|]. split.
    { destruct Hsh1 as (? & _ & ? & ?). unfold refit_shaped. simpl. auto. }
    simpl. intros d Hd. replace (shape0 b) with n in Hd by (symmetry; apply Hb).
    rewrite Hrb by done.
    destruct (scale_row_distribution (vat (norm_pdz σ1) d) (row (p_z_given_d σ1) d))
      as [?|[? _]]; auto using nonneg_row.
Qed.

Lemma fit_em_stochastic thr σ :
  shaped σ n m k (length X_vals) → 0 <= thr →
  ∃ σ', fit_em X_rows X_cols X_vals thr σ = (Ok tt, σ') ∧
    shaped σ' n m k (length X_vals) ∧
    stochastic_or_zero (p_w_given_z σ') ∧ stochastic_or_zero (p_z_given_d σ').
Proof.
  intros Hsh Hthr.
  destruct (e_step_nonneg thr σ (shaped_refit_shaped _ _ _ _ _ Hsh) Hthr)
    as (σ1 & HE & (Hw1 & Hd1 & Hp1 & Hnd1) & (Ew & Ed & Enw & End) & Hnn).
  assert (shaped σ1 n m k (length X_vals)) as Hsh1.
  { unfold shaped. rewrite Enw. destruct Hsh as (_ & _ & _ & ? & _). auto. }
  destruct (m_step_stochastic σ1 Hsh1 Hnn) as (σ2 & HM & Hsh2 & Hsw & Hsd).
  exists σ2. split; [|done]. unfold fit_em, kbind. by rewrite HE.
Qed.

Lemma refit_em_stochastic thr σ :
  refit_shaped σ n m k (length X_vals) → 0 <= thr →
  ∃ σ', refit_em X_rows X_cols X_vals thr σ = (Ok tt, σ') ∧
    refit_shaped σ' n m k (length X_vals) ∧
    stochastic_or_zero (p_z_given_d σ').
Proof.
  intros Hsh Hthr.
  destruct (e_step_nonneg thr σ Hsh Hthr) as (σ1 & HE & Hsh1 & _ & Hnn).
  destruct (refit_m_step_stochastic σ1 Hsh1 Hnn) as (σ2 & HM & Hsh2 & Hsd).
  exists σ2. split; [|done]. unfold refit_em, kbind. by rewrite HE.
Qed.

End EmPass.

(** X10.  On well-shaped arrays, with non-negative entry values and a
    non-negative threshold, any number of passes of expectation and
    maximisation of a fit runs without a failure, and after each pass
    every row of the topic-word array and of the document-topic array is a
    probability distribution or identically zero. *)
Theorem fit_passes_stochastic X_rows X_cols X_vals n m k thr σ j :
  shaped σ n m k (length X_vals) →
  entries_in X_rows X_cols X_vals n m →
  Forall (λ x, 0 <= x) X_vals → 0 <= thr →
  ∃ σ', em_passes (fit_em X_rows X_cols X_vals thr) (S j) σ = (Ok tt, σ') ∧
    shaped σ' n m k (length X_vals) ∧
    stochastic_or_zero (p_w_given_z σ') ∧ stochastic_or_zero (p_z_given_d σ').
Proof.
  intros Hsh Hent Hx Hthr. induction j as [|j IH].
  - destruct (fit_em_stochastic X_rows X_cols X_vals n m k Hent Hx thr σ Hsh Hthr)
      as (σ' & Hem & H).
    exists σ'. split; [|done]. by apply (em_passes_step _ 0%nat σ σ).
  - destruct IH as (σ1 & Hp & Hsh1 & _).
    destruct (fit_em_stochastic X_rows X_cols X_vals n m k Hent Hx thr σ1 Hsh1 Hthr)
      as (σ' & Hem & H).
    exists σ'. split; [|done]. by eapply em_passes_step.
Qed.

Lemma fit_passes_stochastic_witness :
  shaped ex_store 2 2 2 (length ex_vals) ∧
  entries_in ex_rows ex_cols ex_vals 2 2 ∧
  Forall (λ x, 0 <= x) ex_vals ∧ 0 <= 0 ∧
  ∃ σ', em_passes (fit_em ex_rows ex_cols ex_vals 0) 3 ex_store = (Ok tt, σ') ∧
    shaped σ' 2 2 2 (length ex_vals) ∧
    stochastic_or_zero (p_w_given_z σ') ∧ stochastic_or_zero (p_z_given_d σ').
Proof.
  split; [by_decide|]. split; [by_decide|]. split; [by_decide|]. split; [by_compute|].
  apply (fit_passes_stochastic ex_rows ex_cols ex_vals 2 2 2 0 ex_store 2).
  - by_decide.
  - by_decide.
  - by_decide.
  - by_compute.
Defined.

(** ** The value of the log-likelihood *)

(** X11.  On arrays of the shapes of a model of [k] topics, and entries
    within the matrix, [log_likelihood] ends without a failure, writes
    nothing, and returns the sum over the entries of the value of the
    entry times the logarithm of the sum over the topics of
    P(w|z) P(z|d), for the word [w] and the document [d] of the entry. *)
Theorem log_likelihood_formula X_rows X_cols X_vals ln n m k σ :
  has_shape (p_w_given_z σ) k m → has_shape (p_z_given_d σ) n k →
  entries_in X_rows X_cols X_vals n m →
  log_likelihood X_rows X_cols X_vals ln σ =
    (Ok (weighted_log_sum ln X_rows X_cols X_vals
           (p_w_given_z σ) (p_z_given_d σ) k), σ).
Proof.
  intros Hpwz Hpzd (Hlr & Hlc & Hrows & Hcols).
  set (term := λ nz, vat X_vals nz *
         ln (mixture (p_w_given_z σ) (p_z_given_d σ) k
               (default 0%nat (X_rows !! nz)) (default 0%nat (X_cols !! nz)))).
  assert (wp (log_likelihood X_rows X_cols X_vals ln)
            (λ r σ', σ' = σ ∧ r = sum_upto term (length X_vals)) σ)
    as (L & σ' & Hrun & -> & ->); [|done].
  unfold log_likelihood. apply wp_bind, wp_shape0_of. simpl.
  replace (shape0 (p_w_given_z σ)) with k by (symmetry; apply Hpwz).
  apply (wp_for_acc (λ i r σ', σ' = σ ∧ r = sum_upto term i)); [done|].
  intros nz result ? Hnz [-> ->].
  destruct (lookup_lt_is_Some_2 X_rows nz) as [d Hd]; [lia|].
  destruct (lookup_lt_is_Some_2 X_cols nz) as [w Hw]; [lia|].
  destruct (lookup_lt_is_Some_2 X_vals nz) as [x Hx]; [lia|].
  pose proof (Forall_lookup_1 _ _ _ _ Hrows Hd) as Hdn.
  pose proof (Forall_lookup_1 _ _ _ _ Hcols Hw) as Hwm.
  apply wp_bind. eapply wp_index; [exact Hd|].
  apply wp_bind. eapply wp_index; [exact Hw|].
  apply wp_bind. eapply wp_index; [exact Hx|].
  apply wp_bind. eapply wp_mono.
  - apply (wp_for_acc (λ z p σ', σ' = σ ∧
        p = sum_upto (λ z, at2 (p_w_given_z σ) z w * at2 (p_z_given_d σ) d z) z));
      [done|].
    intros z p ? Hz [-> ->].
    apply wp_bind. eapply wp_load2; [by eapply row_at2|].
    apply wp_bind. eapply wp_load2; [by eapply row_at2|].
    apply wp_ret. split; [done|]. by rewrite sum_upto_S.
  - intros p ? [-> ->]. apply wp_ret. split; [done|].
    rewrite sum_upto_S. f_equal. unfold term, mixture, vat. by rewrite Hd, Hw, Hx.
Qed.

Lemma log_likelihood_formula_witness :
  log_likelihood ex_rows ex_cols ex_vals ex_ln ex_store =
    (Ok (weighted_log_sum ex_ln ex_rows ex_cols ex_vals
           (p_w_given_z ex_store) (p_z_given_d ex_store) 2), ex_store).
Proof.
  apply (log_likelihood_formula ex_rows ex_cols ex_vals ex_ln 2 2 2 ex_store);
    by_decide.
Defined.

(** ** The engines on well-formed input *)

Section RulesWithFailure.
Context {Σ : Type}.
Implicit Types σ : Σ.

Lemma wpx_of_wp {A} (c : Comp Σ A) (Q : A → Σ → Prop) E σ : wp c Q σ → wpx c Q E σ.
Proof. intros (a & σ' & Hc & HQ). unfold wpx. by rewrite Hc. Qed.

Lemma wpx_ret {A} (a : A) (Q : A → Σ → Prop) E σ : Q a σ → wpx (kret a) Q E σ.
Proof. done. Qed.

Lemma wpx_bind {A B} (c : Comp Σ A) (f : A → Comp Σ B) Q E σ :
  wpx c (λ a σ', wpx (f a) Q E σ') E σ → wpx (kbind c f) Q E σ.
Proof. unfold wpx, kbind. by destruct (c σ) as [[a|e] σ']. Qed.

Lemma wpx_mono {A} (c : Comp Σ A) (Q Q' : A → Σ → Prop) E σ :
  wpx c Q E σ → (∀ a σ', Q a σ' → Q' a σ') → wpx c Q' E σ.
Proof. unfold wpx. destruct (c σ) as [[a|e] σ']; auto. Qed.

Lemma wpx_for_in_break {S} (I : nat → S → Σ → Prop) (Q : loop_exit * S → Σ → Prop) E
    (body : nat → S → Comp Σ (flow * S)) n :
  ∀ a s σ,
    I a s σ →
    (∀ i s σ, (a ≤ i < a + n)%nat → I i s σ →
       wpx (body i s) (λ r σ', match r with
                               | (Continue, s') => I (Datatypes.S i) s' σ'
                               | (Break, s') => Q (BrokeAt i, s') σ'
                               end) E σ) →
    (∀ s σ, I (a + n)%nat s σ → Q (Exhausted, s) σ) →
    wpx (for_in_break (seq a n) body s) Q E σ.
Proof.
  induction n as [|n IH]; intros a s σ H0 Hstep Hend; simpl.
  - apply wpx_ret. apply Hend. by rewrite Nat.add_0_r.
  - apply wpx_bind. eapply wpx_mono; [apply Hstep; [lia|done]|].
    intros [[] s'] σ' H'; simpl in H'.
    + apply IH; [done| |].
      * intros i s'' σ'' Hi. apply Hstep. lia.
      * intros s'' σ''. replace (Datatypes.S a + n)%nat with (a + Datatypes.S n)%nat by lia.
        apply Hend.
    + by apply wpx_ret.
Qed.

End RulesWithFailure.

Lemma Qcabs_div_nonneg (a b : Qc) : 0 <= Qcabs a / Qcabs b.
Proof.
  destruct (decide (Qcabs b = 0)) as [E|E].
  - rewrite E. unfold Qcdiv. replace (/ 0) with 0 by (by apply Qc_is_canon).
    by rewrite Qcmult_0_r.
  - unfold Qcdiv. apply Qcmult_nonneg_nonneg; [apply Qcabs_nonneg|].
    apply Qclt_le_weak, Qcinv_pos.
    destruct (Qcle_lt_or_eq _ _ (Qcabs_nonneg b)) as [?|E']; [done|]. by symmetry in E'.
Qed.

Section Engines.

Variables (X_rows X_cols : list nat) (X_vals : list Qc).
Variable ln : Qc → Qc.
Variables (n m k : nat).
Hypothesis Hentries : entries_in X_rows X_cols X_vals n m.
Hypothesis Hvals : Forall (λ x, 0 <= x) X_vals.

(** One pass of the body of the loop of a fit: the pass of expectation
    and maximisation ends without a failure, and then the body fails on a
    zero divisor, or ends, with [break] only when the relative change of a
    log-likelihood is below the tolerance. *)
Lemma fit_iteration_cases t tol thr i prev σ :
  shaped σ n m k (length X_vals) → 0 <= thr →
  ∃ σ', fit_em X_rows X_cols X_vals thr σ = (Ok tt, σ') ∧
    shaped σ' n m k (length X_vals) ∧
    stochastic_or_zero (p_w_given_z σ') ∧ stochastic_or_zero (p_z_given_d σ') ∧
    (fit_iteration X_rows X_cols X_vals ln t tol thr i prev σ =
       (Raise ZeroDivisionError, σ') ∧
       (t = 0%Z ∨ log_likelihood X_rows X_cols X_vals ln σ' = (Ok 0, σ')) ∨
     ∃ f s', fit_iteration X_rows X_cols X_vals ln t tol thr i prev σ =
               (Ok (f, s'), σ') ∧ t ≠ 0%Z ∧
       (f = Break → ∃ L, Qcabs (L - prev) / Qcabs L < tol)).
Proof.
  intros Hsh Hthr.
  destruct (fit_em_stochastic X_rows X_cols X_vals n m k Hentries Hvals thr σ Hsh Hthr)
    as (σ' & Hem & Hsh' & Hsw & Hsd).
  exists σ'. split; [done|]. split; [done|]. split; [done|]. split; [done|].
  remember (fit_iteration X_rows X_cols X_vals ln t tol thr i prev σ) as R eqn:HR.
  unfold fit_iteration, fit_em in *. unfold kbind in Hem, HR.
  destruct (plsa_e_step X_rows X_cols X_vals thr σ) as [[[]|e] σ1]; [|done].
  rewrite Hem in HR. unfold pymod in HR.
  destruct (decide (t = 0%Z)) as [Ht|Ht]; [left; split; [done|by left]|].
  unfold kret at 1 in HR. case_decide as Hr.
  - destruct (log_likelihood_safe X_rows X_cols X_vals ln n m k _ eq_refl Hentries σ'
                (shaped_refit_shaped _ _ _ _ _ Hsh')) as (L & HL).
    rewrite HL in HR |- *. unfold fdiv in HR.
    destruct (decide (Qcabs L = 0)) as [E|E].
    + left. split; [done|]. right. apply (proj1 (Qcabs_0_iff L)) in E. by rewrite E.
    + right. unfold kret at 1 in HR. case_decide as Hq.
      * exists Break, prev. split; [done|]. split; [done|]. intros _. by exists L.
      * exists Continue, L. split; [done|]. split; [done|]. intros [=].
  - right. exists Continue, prev. split; [done|]. split; [done|]. intros [=].
Qed.

(** The same for a refit, whose body never fails when the period of the
    tests is not zero: the division is guarded by the sign of the
    log-likelihood. *)
Lemma refit_iteration_cases t tol thr i prev σ :
  refit_shaped σ n m k (length X_vals) → 0 <= thr →
  ∃ σ', refit_em X_rows X_cols X_vals thr σ = (Ok tt, σ') ∧
    refit_shaped σ' n m k (length X_vals) ∧
    stochastic_or_zero (p_z_given_d σ') ∧
    (refit_iteration X_rows X_cols X_vals ln t tol thr i prev σ =
       (Raise ZeroDivisionError, σ') ∧ t = 0%Z ∨
     ∃ f s', refit_iteration X_rows X_cols X_vals ln t tol thr i prev σ =
               (Ok (f, s'), σ') ∧ t ≠ 0%Z ∧
       (f = Break → ∃ L, Qcabs (L - prev) / Qcabs L < tol)).
Proof.
  intros Hsh Hthr.
  destruct (refit_em_stochastic X_rows X_cols X_vals n m k Hentries Hvals thr σ Hsh Hthr)
    as (σ' & Hem & Hsh' & Hsd).
  exists σ'. split; [done|]. split; [done|]. split; [done|].
  remember (refit_iteration X_rows X_cols X_vals ln t tol thr i prev σ) as R eqn:HR.
  unfold refit_iteration, refit_em in *. unfold kbind in Hem, HR.
  destruct (plsa_e_step X_rows X_cols X_vals thr σ) as [[[]|e] σ1]; [|done].
  rewrite Hem in HR. unfold pymod in HR.
  destruct (decide (t = 0%Z)) as [Ht|Ht]; [by left|]. right.
  unfold kret at 1 in HR. case_decide as Hr.
  - destruct (log_likelihood_safe X_rows X_cols X_vals ln n m k _ eq_refl Hentries σ' Hsh')
      as (L & HL).
    rewrite HL in HR. case_decide as Hpos.
    + unfold fdiv in HR. rewrite decide_False in HR.
      * unfold kret at 1 in HR. case_decide as Hq.
        -- exists Break, prev. split; [done|]. split; [done|]. intros _. by exists L.
        -- exists Continue, L. split; [done|]. split; [done|]. intros [=].
      * rewrite Qcabs_0_iff. intros ->. by apply (Qclt_not_le _ _ Hpos).
    + exists Continue, prev. split; [done|]. split; [done|]. intros [=].
  - exists Continue, prev. split; [done|]. split; [done|]. intros [=].
Qed.

Lemma fit_store_shaped pwz pzd :
  has_shape pwz k m → has_shape pzd n k →
  shaped (fit_store X_vals pwz pzd) n m k (length X_vals).
Proof.
  intros Hw Hd. unfold fit_store, shaped. simpl.
  replace (shape1 pzd) with k by (symmetry; apply Hd).
  replace (shape0 pzd) with n by (symmetry; apply Hd).
  split; [done|]. split; [done|]. split; [apply has_shape_zeros2|].
  unfold zeros1. by rewrite !length_replicate.
Qed.

Lemma refit_store_shaped (normalize : matrix → matrix) topics draw :
  has_shape topics k m → has_shape (normalize draw) n k →
  refit_shaped (wr2 PZD (normalize draw) (refit_store X_vals topics draw n))
    n m k (length X_vals).
Proof.
  intros Hw Hd. unfold refit_store, refit_shaped. simpl.
  replace (shape0 topics) with k by (symmetry; apply Hw).
  split; [done|]. split; [done|]. split; [apply has_shape_zeros2|].
  unfold zeros1. by rewrite length_replicate.
Qed.

(** The loop of a fit, on well-shaped arrays. *)
Lemma fit_loop_wpx n_iter t tol thr prev σ :
  shaped σ n m k (length X_vals) → 0 <= thr →
  wpx (fit_loop X_rows X_cols X_vals ln n_iter t tol thr prev)
    (λ r σ', shaped σ' n m k (length X_vals) ∧
       ((0 < n_iter)%Z →
          stochastic_or_zero (p_w_given_z σ') ∧ stochastic_or_zero (p_z_given_d σ')) ∧
       (tol <= 0 → r.1 = Exhausted ∧
          em_passes (fit_em X_rows X_cols X_vals thr) (Z.to_nat n_iter) σ = (Ok tt, σ')))
    (λ e, e = ZeroDivisionError) σ.
Proof.
  intros Hsh Hthr. unfold fit_loop, for_break.
  set (em := fit_em X_rows X_cols X_vals thr).
  apply (wpx_for_in_break (λ i (s : Qc) σ',
           shaped σ' n m k (length X_vals) ∧
           ((0 < i)%nat →
              stochastic_or_zero (p_w_given_z σ') ∧ stochastic_or_zero (p_z_given_d σ')) ∧
           em_passes em i σ = (Ok tt, σ'))).
  - split; [done|]. split; [lia|done].
  - intros i s σ1 Hi (Hsh1 & _ & Hp).
    destruct (fit_iteration_cases t tol thr i s σ1 Hsh1 Hthr)
      as (σ2 & Hem & Hsh2 & Hsw & Hsd & [[Hr _]|(f & s' & Hr & _ & Hf)]);
      unfold wpx; rewrite Hr; [done|].
    pose proof (em_passes_step em i σ σ1 σ2 Hp Hem) as Hp2.
    destruct f.
    + split; [done|]. split; [done|]. done.
    + split; [done|]. split; [done|]. intros Htol. exfalso.
      destruct (Hf eq_refl) as (L & HL).
      apply (Qclt_not_le _ _ HL). eapply Qcle_trans; [exact Htol|].
      apply Qcabs_div_nonneg.
  - intros s σ1 (Hsh1 & Hst & Hp). simpl in *.
    split; [done|]. split; [intros; apply Hst; lia|]. done.
Qed.

(** The loop of a refit, on well-shaped arrays and with a period of the
    tests that is not zero. *)
Lemma refit_loop_wp n_iter t tol thr prev σ :
  refit_shaped σ n m k (length X_vals) → 0 <= thr → t ≠ 0%Z →
  wp (refit_loop X_rows X_cols X_vals ln n_iter t tol thr prev)
    (λ r σ', refit_shaped σ' n m k (length X_vals) ∧
       ((0 < n_iter)%Z → stochastic_or_zero (p_z_given_d σ')) ∧
       (tol <= 0 → r.1 = Exhausted ∧
          em_passes (refit_em X_rows X_cols X_vals thr) (Z.to_nat n_iter) σ = (Ok tt, σ')))
    σ.
Proof.
  intros Hsh Hthr Ht. unfold refit_loop, for_break.
  set (em := refit_em X_rows X_cols X_vals thr).
  apply (wp_for_in_break (λ i (s : Qc) σ',
           refit_shaped σ' n m k (length X_vals) ∧
           ((0 < i)%nat → stochastic_or_zero (p_z_given_d σ')) ∧
           em_passes em i σ = (Ok tt, σ'))).
  - split; [done|]. split; [lia|done].
  - intros i s σ1 Hi (Hsh1 & _ & Hp).
    destruct (refit_iteration_cases t tol thr i s σ1 Hsh1 Hthr)
      as (σ2 & Hem & Hsh2 & Hsd & [[_ ?]|(f & s' & Hr & _ & Hf)]); [done|].
    pose proof (em_passes_step em i σ σ1 σ2 Hp Hem) as Hp2.
    exists (f, s'), σ2. split; [done|]. destruct f.
    + split; [done|]. split; [done|]. done.
    + split; [done|]. split; [done|]. intros Htol. exfalso.
      destruct (Hf eq_refl) as (L & HL).
      apply (Qclt_not_le _ _ HL). eapply Qcle_trans; [exact Htol|].
      apply Qcabs_div_nonneg.
  - intros s σ1 (Hsh1 & Hst & Hp). simpl in *.
    split; [done|]. split; [intros; apply Hst; lia|]. done.
Qed.

End Engines.

(** X12.  A refit on well-formed input never fails.  With topics of [k]
    rows over [m] words, entries within an [n] by [m] matrix with
    non-negative values, a non-negative threshold, a period of the tests
    that is not zero and at least one pass, [plsa_refit] returns an array
    of [n] rows and [k] columns every row of which is a probability
    distribution or is identically zero: the one division of the loop is
    made only when the log-likelihood is positive. *)
Theorem refit_total X_rows X_cols X_vals ln normalize topics draw n m k
    n_iter t tol thr :
  has_shape topics k m → has_shape (normalize draw) n k →
  entries_in X_rows X_cols X_vals n m → Forall (λ x, 0 <= x) X_vals →
  0 <= thr → t ≠ 0%Z → (0 < n_iter)%Z →
  ∃ pzd σf,
    plsa_refit X_rows X_cols X_vals ln normalize topics draw n n_iter t tol thr =
      (Ok pzd, σf) ∧
    has_shape pzd n k ∧ stochastic_or_zero pzd.
Proof.
  intros Htop Hdraw Hent Hx Hthr Ht Hn.
  assert (wp (refit_body X_rows X_cols X_vals ln normalize n_iter t tol thr)
            (λ r _, has_shape r n k ∧ stochastic_or_zero r)
            (refit_store X_vals topics draw n))
    as (pzd & σf & Hrun & H); [|by exists pzd, σf].
  unfold refit_body. apply wp_bind.
  exists tt, (wr2 PZD (normalize draw) (refit_store X_vals topics draw n)).
  split; [done|].
  pose proof (refit_store_shaped X_vals n m k normalize topics draw Htop Hdraw) as Hsh.
  destruct (log_likelihood_safe X_rows X_cols X_vals ln n m k _ eq_refl Hent _ Hsh)
    as (L & HL).
  apply wp_bind. exists L, (wr2 PZD (normalize draw) (refit_store X_vals topics draw n)).
  split; [done|]. apply wp_bind. eapply wp_mono.
  - by apply (refit_loop_wp X_rows X_cols X_vals ln n m k Hent Hx n_iter t tol thr L).
  - intros r σ' (Hsh' & Hst & _). apply wp_kget. split; [apply Hsh'|by apply Hst].
Qed.

Lemma refit_total_witness :
  ∃ pzd σf,
    plsa_refit ex_rows ex_cols ex_vals ex_ln ex_normalize
      (p_w_given_z ex_store) (p_z_given_d ex_store) 2 3 1 0 0 = (Ok pzd, σf) ∧
    has_shape pzd 2 2 ∧ stochastic_or_zero pzd.
Proof.
  apply (refit_total ex_rows ex_cols ex_vals ex_ln ex_normalize
           (p_w_given_z ex_store) (p_z_given_d ex_store) 2 2 2 3 1 0 0).
  - by_decide.
  - by_decide.
  - by_decide.
  - by_decide.
  - by_compute.
  - lia.
  - lia.
Defined.



(** [plsa_refit] after its call of [normalize]. *)
Lemma plsa_refit_start X_rows X_cols X_vals ln normalize topics draw n
    n_iter t tol thr :
  plsa_refit X_rows X_cols X_vals ln normalize topics draw n n_iter t tol thr =
    (previous_log_likelihood <- log_likelihood X_rows X_cols X_vals ln ;;
     refit_loop X_rows X_cols X_vals ln n_iter t tol thr previous_log_likelihood ;;;
     kget p_z_given_d)
      (wr2 PZD (normalize draw) (refit_store X_vals topics draw n)).
Proof. reflexivity. Qed.

Lemma for_break_first_raise {Σ S} n (body : nat → S → Comp Σ (flow * S)) s σ e σ' :
  (0 < n)%nat → body 0%nat s σ = (Raise e, σ') → for_break n body s σ = (Raise e, σ').
Proof.
  intros Hn H. destruct n as [|n]; [lia|].
  unfold for_break. simpl. unfold kbind. by rewrite H.
Qed.

Lemma fit_iteration_zero_period X_rows X_cols X_vals ln tol thr i prev σ σ' :
  fit_em X_rows X_cols X_vals thr σ = (Ok tt, σ') →
  fit_iteration X_rows X_cols X_vals ln 0 tol thr i prev σ =
    (Raise ZeroDivisionError, σ').
Proof.
  unfold fit_em, fit_iteration, kbind. intros Hem.
  destruct (plsa_e_step X_rows X_cols X_vals thr σ) as [[[]|e] σ1]; [|done].
  by rewrite Hem.
Qed.

Lemma refit_iteration_zero_period X_rows X_cols X_vals ln tol thr i prev σ σ' :
  refit_em X_rows X_cols X_vals thr σ = (Ok tt, σ') →
  refit_iteration X_rows X_cols X_vals ln 0 tol thr i prev σ =
    (Raise ZeroDivisionError, σ').
Proof.
  unfold refit_em, refit_iteration, kbind. intros Hem.
  destruct (plsa_e_step X_rows X_cols X_vals thr σ) as [[[]|e] σ1]; [|done].
  by rewrite Hem.
Qed.

(** X14.  A period of the tests of zero makes both engines fail at their
    first pass.  On arrays of the right shapes and entries within the
    matrix, with at least one pass to run, [plsa_fit_inner] and
    [plsa_refit] called with [n_iter_per_test = 0] raise
    [ZeroDivisionError], after one pass of expectation and maximisation has
    rewritten the arrays. *)
Theorem zero_period_raises X_rows X_cols X_vals ln normalize pwz pzd draw n m k
    n_iter tol thr :
  has_shape pwz k m → has_shape pzd n k → has_shape (normalize draw) n k →
  entries_in X_rows X_cols X_vals n m → (0 < n_iter)%Z →
  (∃ σ', plsa_fit_inner X_rows X_cols X_vals ln pwz pzd n_iter 0 tol thr =
           (Raise ZeroDivisionError, σ') ∧
         fit_em X_rows X_cols X_vals thr (fit_store X_vals pwz pzd) = (Ok tt, σ')) ∧
  (∃ σ', plsa_refit X_rows X_cols X_vals ln normalize pwz draw n n_iter 0 tol thr =
           (Raise ZeroDivisionError, σ') ∧
         refit_em X_rows X_cols X_vals thr
           (wr2 PZD (normalize draw) (refit_store X_vals pwz draw n)) = (Ok tt, σ')).
Proof.
  intros Hw Hd Hdraw Hent Hn. split.
  - pose proof (fit_store_shaped X_vals n m k pwz pzd Hw Hd) as Hsh.
    destruct (log_likelihood_safe X_rows X_cols X_vals ln n m k _ eq_refl Hent _
                (shaped_refit_shaped _ _ _ _ _ Hsh)) as (L & HL).
    destruct (e_step_safe_shaped X_rows X_cols X_vals n m k _ eq_refl Hent thr _ Hsh)
      as (σ1 & HE & Hsh1).
    destruct (m_step_safe X_rows X_cols X_vals n m k _ eq_refl Hent σ1 Hsh1)
      as (σ2 & HM & _).
    assert (fit_em X_rows X_cols X_vals thr (fit_store X_vals pwz pzd) = (Ok tt, σ2))
      as Hem by (unfold fit_em, kbind; by rewrite HE).
    exists σ2. split; [|done].
    unfold plsa_fit_inner, kbind at 1. rewrite HL.
    unfold kbind at 1, fit_loop.
    rewrite (for_break_first_raise _ _ _ _ ZeroDivisionError σ2); [done|lia|].
    by apply fit_iteration_zero_period.
  - pose proof (refit_store_shaped X_vals n m k normalize pwz draw Hw Hdraw) as Hsh.
    destruct (log_likelihood_safe X_rows X_cols X_vals ln n m k _ eq_refl Hent _ Hsh)
      as (L & HL).
    destruct (e_step_safe X_rows X_cols X_vals n m k _ eq_refl Hent thr _ Hsh)
      as (σ1 & HE & Hsh1 & _).
    destruct (refit_m_step_safe X_rows X_cols X_vals n m k _ eq_refl Hent σ1 Hsh1)
      as (σ2 & HM & _).
    assert (refit_em X_rows X_cols X_vals thr
              (wr2 PZD (normalize draw) (refit_store X_vals pwz draw n)) = (Ok tt, σ2))
      as Hem by (unfold refit_em, kbind; by rewrite HE).
    exists σ2. split; [|done].
    rewrite plsa_refit_start. unfold kbind at 1. rewrite HL.
    unfold kbind at 1, refit_loop.
    rewrite (for_break_first_raise _ _ _ _ ZeroDivisionError σ2); [done|lia|].
    by apply refit_iteration_zero_period.
Qed.

Lemma zero_period_raises_witness :
  (∃ σ', plsa_fit_inner ex_rows ex_cols ex_vals ex_ln
           (p_w_given_z ex_store) (p_z_given_d ex_store) 3 0 0 0 =
           (Raise ZeroDivisionError, σ') ∧
         fit_em ex_rows ex_cols ex_vals 0
           (fit_store ex_vals (p_w_given_z ex_store) (p_z_given_d ex_store)) =
           (Ok tt, σ')) ∧
  (∃ σ', plsa_refit ex_rows ex_cols ex_vals ex_ln ex_normalize
           (p_w_given_z ex_store) (p_z_given_d ex_store) 2 3 0 0 0 =
           (Raise ZeroDivisionError, σ') ∧
         refit_em ex_rows ex_cols ex_vals 0
           (wr2 PZD (ex_normalize (p_z_given_d ex_store))
              (refit_store ex_vals (p_w_given_z ex_store) (p_z_given_d ex_store) 2)) =
           (Ok tt, σ')).
Proof.
  apply (zero_period_raises ex_rows ex_cols ex_vals ex_ln ex_normalize
           (p_w_given_z ex_store) (p_z_given_d ex_store) (p_z_given_d ex_store)
           2 2 2 3 0 0).
  - by_decide.
  - by_decide.
  - by_decide.
  - by_decide.
  - lia.
Defined.

(** X15.  With no pass to run ([n_iter ≤ 0]) the engines return what they
    start from, on arrays of the right shapes and entries within the
    matrix: [plsa_fit_inner] returns the two arrays it was given, the
    document-topic array first, and [plsa_refit] returns the normalised
    random draw; the log-likelihood has been evaluated once and no array
    of the model has been written. *)
Theorem no_pass_returns_start X_rows X_cols X_vals ln normalize pwz pzd draw n m k
    n_iter t tol thr :
  has_shape pwz k m → has_shape pzd n k → has_shape (normalize draw) n k →
  entries_in X_rows X_cols X_vals n m → (n_iter <= 0)%Z →
  plsa_fit_inner X_rows X_cols X_vals ln pwz pzd n_iter t tol thr =
    (Ok (pzd, pwz), fit_store X_vals pwz pzd) ∧
  plsa_refit X_rows X_cols X_vals ln normalize pwz draw n n_iter t tol thr =
    (Ok (normalize draw), wr2 PZD (normalize draw) (refit_store X_vals pwz draw n)).
Proof.
  intros Hw Hd Hdraw Hent Hn.
  assert (Z.to_nat n_iter = 0%nat) as EN by lia. split.
  - pose proof (fit_store_shaped X_vals n m k pwz pzd Hw Hd) as Hsh.
    destruct (log_likelihood_safe X_rows X_cols X_vals ln n m k _ eq_refl Hent _
                (shaped_refit_shaped _ _ _ _ _ Hsh)) as (L & HL).
    unfold plsa_fit_inner, kbind at 1. rewrite HL.
    unfold kbind, fit_loop, for_break. rewrite EN. done.
  - pose proof (refit_store_shaped X_vals n m k normalize pwz draw Hw Hdraw) as Hsh.
    destruct (log_likelihood_safe X_rows X_cols X_vals ln n m k _ eq_refl Hent _ Hsh)
      as (L & HL).
    rewrite plsa_refit_start. unfold kbind at 1. rewrite HL.
    unfold kbind, refit_loop, for_break. rewrite EN. done.
Qed.

Lemma no_pass_returns_start_witness :
  plsa_fit_inner ex_rows ex_cols ex_vals ex_ln
    (p_w_given_z ex_store) (p_z_given_d ex_store) 0 1 0 0 =
    (Ok (p_z_given_d ex_store, p_w_given_z ex_store),
     fit_store ex_vals (p_w_given_z ex_store) (p_z_given_d ex_store)) ∧
  plsa_refit ex_rows ex_cols ex_vals ex_ln ex_normalize
    (p_w_given_z ex_store) (p_z_given_d ex_store) 2 0 1 0 0 =
    (Ok (ex_normalize (p_z_given_d ex_store)),
     wr2 PZD (ex_normalize (p_z_given_d ex_store))
       (refit_store ex_vals (p_w_given_z ex_store) (p_z_given_d ex_store) 2)).
Proof.
  apply (no_pass_returns_start ex_rows ex_cols ex_vals ex_ln ex_normalize
           (p_w_given_z ex_store) (p_z_given_d ex_store) (p_z_given_d ex_store)
           2 2 2 0 1 0 0).
  - by_decide.
  - by_decide.
  - by_decide.
  - by_decide.
  - lia.
Defined.

(** X16.  With a tolerance that is not positive the test of convergence
    never succeeds, the relative change being non-negative: on well-formed
    input, when [plsa_fit_inner] returns it has run all [n_iter] passes of
    expectation and maximisation and returns the arrays they leave, and it
    fails by [ZeroDivisionError] only; [plsa_refit], with a period of the
    tests that is not zero, always returns the document-topic array left
    by all [n_iter] passes. *)
Theorem nonpositive_tolerance_runs_all X_rows X_cols X_vals ln normalize pwz pzd draw
    n m k n_iter t tol thr :
  has_shape pwz k m → has_shape pzd n k → has_shape (normalize draw) n k →
  entries_in X_rows X_cols X_vals n m → Forall (λ x, 0 <= x) X_vals →
  0 <= thr → tol <= 0 →
  match plsa_fit_inner X_rows X_cols X_vals ln pwz pzd n_iter t tol thr with
  | (Ok r, σf) =>
      em_passes (fit_em X_rows X_cols X_vals thr) (Z.to_nat n_iter)
        (fit_store X_vals pwz pzd) = (Ok tt, σf) ∧
      r = (p_z_given_d σf, p_w_given_z σf)
  | (Raise e, _) => e = ZeroDivisionError
  end ∧
  (t ≠ 0%Z →
   ∃ σf,
     plsa_refit X_rows X_cols X_vals ln normalize pwz draw n n_iter t tol thr =
       (Ok (p_z_given_d σf), σf) ∧
     em_passes (refit_em X_rows X_cols X_vals thr) (Z.to_nat n_iter)
       (wr2 PZD (normalize draw) (refit_store X_vals pwz draw n)) = (Ok tt, σf)).
Proof.
  intros Hw Hd Hdraw Hent Hx Hthr Htol. split.
  - pose proof (fit_store_shaped X_vals n m k pwz pzd Hw Hd) as Hsh.
    destruct (log_likelihood_safe X_rows X_cols X_vals ln n m k _ eq_refl Hent _
                (shaped_refit_shaped _ _ _ _ _ Hsh)) as (L & HL).
    pose proof (fit_loop_wpx X_rows X_cols X_vals ln n m k Hent Hx n_iter t tol thr L
                  _ Hsh Hthr) as Hloop.
    unfold plsa_fit_inner, kbind. rewrite HL. unfold wpx in Hloop.
    destruct (fit_loop X_rows X_cols X_vals ln n_iter t tol thr L
                (fit_store X_vals pwz pzd)) as [[r|e] σ']; [|done].
    destruct Hloop as (_ & _ & Hall). destruct (Hall Htol) as [_ Hp].
    unfold kget. done.
  - intros Ht.
    pose proof (refit_store_shaped X_vals n m k normalize pwz draw Hw Hdraw) as Hsh.
    destruct (log_likelihood_safe X_rows X_cols X_vals ln n m k _ eq_refl Hent _ Hsh)
      as (L & HL).
    destruct (refit_loop_wp X_rows X_cols X_vals ln n m k Hent Hx n_iter t tol thr L
                _ Hsh Hthr Ht) as (r & σf & Hrun & _ & _ & Hall).
    destruct (Hall Htol) as [_ Hp].
    exists σf. split; [|done].
    rewrite plsa_refit_start. unfold kbind at 1. rewrite HL.
    unfold kbind. rewrite Hrun. done.
Qed.

Lemma nonpositive_tolerance_runs_all_witness :
  match plsa_fit_inner ex_rows ex_cols ex_vals ex_ln
          (p_w_given_z ex_store) (p_z_given_d ex_store) 3 1 0 0 with
  | (Ok r, σf) =>
      em_passes (fit_em ex_rows ex_cols ex_vals 0) (Z.to_nat 3)
        (fit_store ex_vals (p_w_given_z ex_store) (p_z_given_d ex_store)) =
        (Ok tt, σf) ∧
      r = (p_z_given_d σf, p_w_given_z σf)
  | (Raise e, _) => e = ZeroDivisionError
  end ∧
  (1%Z ≠ 0%Z →
   ∃ σf,
     plsa_refit ex_rows ex_cols ex_vals ex_ln ex_normalize
       (p_w_given_z ex_store) (p_z_given_d ex_store) 2 3 1 0 0 =
       (Ok (p_z_given_d σf), σf) ∧
     em_passes (refit_em ex_rows ex_cols ex_vals 0) (Z.to_nat 3)
       (wr2 PZD (ex_normalize (p_z_given_d ex_store))
          (refit_store ex_vals (p_w_given_z ex_store) (p_z_given_d ex_store) 2)) =
       (Ok tt, σf)).
Proof.
  apply (nonpositive_tolerance_runs_all ex_rows ex_cols ex_vals ex_ln ex_normalize
           (p_w_given_z ex_store) (p_z_given_d ex_store) (p_z_given_d ex_store)
           2 2 2 3 1 0 0).
  - by_decide.
  - by_decide.
  - by_decide.
  - by_decide.
  - by_decide.
  - by_compute.
  - by_compute.
Defined.

(** ** Fitting from the initializer on *)

(** X17.  A fit started from a pair of arrays given as [init] uses the
    shapes of the pair, not the argument [k].  With [a] and [b] the pair,
    normalised to [n] by [k'] and [k'] by [m], on a matrix whose entries
    are within [n] by [m] with non-negative values, a non-negative
    threshold and at least one pass, [plsa_fit] returns arrays of these
    shapes, every row of which is a probability distribution or is
    identically zero, or raises [ZeroDivisionError], whatever [k] is. *)
Theorem plsa_fit_from_pair ln sqrt normalize randomized_svd non_negative_factorization
    np_random_random X k a b n m k' n_iter t tol thr :
  has_shape (normalize a) n k' → has_shape (normalize b) k' m →
  entries_in (sp_row X) (sp_col X) (sp_data X) n m →
  Forall (λ x, 0 <= x) (sp_data X) → 0 <= thr → (0 < n_iter)%Z →
  match plsa_fit ln sqrt normalize randomized_svd non_negative_factorization
          np_random_random X k (InitTuple [a; b]) n_iter t tol thr with
  | Ok (U, V) =>
      has_shape U n k' ∧ has_shape V k' m ∧
      stochastic_or_zero U ∧ stochastic_or_zero V
  | Raise e => e = ZeroDivisionError
  end.
Proof.
  intros Ha Hb Hent Hx Hthr Hn. unfold plsa_fit, plsa_init. simpl.
  unfold kbind, kret. simpl.
  pose proof (fit_loop_wpx (sp_row X) (sp_col X) (sp_data X) ln n m k' Hent Hx
                n_iter t tol thr) as Hloop.
  pose proof (fit_store_shaped (sp_data X) n m k' (normalize b) (normalize a) Hb Ha)
    as Hsh.
  destruct (log_likelihood_safe (sp_row X) (sp_col X) (sp_data X) ln n m k' _ eq_refl
              Hent _ (shaped_refit_shaped _ _ _ _ _ Hsh)) as (L & HL).
  specialize (Hloop L _ Hsh Hthr). unfold wpx in Hloop.
  unfold plsa_fit_inner, kbind. rewrite HL.
  destruct (fit_loop (sp_row X) (sp_col X) (sp_data X) ln n_iter t tol thr L
              (fit_store (sp_data X) (normalize b) (normalize a))) as [[r|e] σ'];
    [|done].
  destruct Hloop as ((Hpw & Hpd & _) & Hst & _). destruct (Hst Hn) as [Hsw Hsd].
  unfold kget. simpl. done.
Qed.

Lemma plsa_fit_from_pair_witness :
  match plsa_fit ex_ln ex_sqrt ex_normalize ex_svd ex_nmf ex_random ex_X 7
          (InitTuple [p_z_given_d ex_store; p_w_given_z ex_store]) 3 1 0 0 with
  | Ok (U, V) =>
      has_shape U 2 2 ∧ has_shape V 2 2 ∧
      stochastic_or_zero U ∧ stochastic_or_zero V
  | Raise e => e = ZeroDivisionError
  end.
Proof.
  apply (plsa_fit_from_pair ex_ln ex_sqrt ex_normalize ex_svd ex_nmf ex_random ex_X 7
           (p_z_given_d ex_store) (p_w_given_z ex_store) 2 2 2 3 1 0 0).
  - by_decide.
  - by_decide.
  - by_decide.
  - by_decide.
  - by_compute.
  - lia.
Defined.

(** X18.  [plsa_fit] called with an [init] that is neither one of the
    three strings nor a pair of arrays raises the [ValueError] of the
    initializer: the failure is not caught, and no pass of expectation and
    maximisation decides the result, which is the same for every number
    of passes, period, tolerance and threshold. *)
Theorem plsa_fit_unrecognized_init ln sqrt normalize randomized_svd
    non_negative_factorization np_random_random X k init :
  ¬ recognized init →
  ∃ msg, ∀ n_iter t tol thr,
    plsa_fit ln sqrt normalize randomized_svd non_negative_factorization
      np_random_random X k init n_iter t tol thr = Raise (ValueError msg).
Proof.
  intros H.
  destruct (init_dispatch_unrecognized sqrt randomized_svd
              non_negative_factorization np_random_random X k init [] H) as [msg Hd].
  exists msg. intros n_iter t tol thr. unfold plsa_fit, plsa_init, kbind. by rewrite Hd.
Qed.

Lemma plsa_fit_unrecognized_init_witness :
  ∃ msg, ∀ n_iter t tol thr,
    plsa_fit ex_ln ex_sqrt ex_normalize ex_svd ex_nmf ex_random ex_X 2
      (InitStr "svd") n_iter t tol thr = Raise (ValueError msg).
Proof.
  apply (plsa_fit_unrecognized_init ex_ln ex_sqrt ex_normalize ex_svd ex_nmf
           ex_random ex_X 2 (InitStr "svd")).
  unfold recognized. intros [H|[H|[H|[(a & b & H)|(a & b & H)]]]]; discriminate H.
Defined.

(** ** More on the "nndsvd" initialisation *)





Lemma fmax_fmin_parts (a : Qc) :
  a = fmax a 0 - Qcabs (fmin a 0) ∧ 0 <= fmax a 0 ∧ 0 <= Qcabs (fmin a 0) ∧
  fmax a 0 * Qcabs (fmin a 0) = 0.
Proof.
  unfold fmax, fmin. destruct (Qc_dec a 0) as [[Hlt|Hgt]|Heq].
  - rewrite (decide_True _ _ Hlt), decide_False
      by (intros H; apply (Qclt_not_le _ _ H); by apply Qclt_le_weak).
    rewrite (Qcabs_neg a) by (by apply Qclt_le_weak).
    split; [ring|]. split; [done|]. split; [|ring].
    apply (Qcopp_le_compat a 0). by apply Qclt_le_weak.
  - rewrite (decide_True _ _ Hgt), decide_False
      by (intros H; apply (Qclt_not_le _ _ H); by apply Qclt_le_weak).
    rewrite (Qcabs_pos 0) by done.
    split; [ring|]. split; [by apply Qclt_le_weak|]. split; [done|ring].
  - subst a. rewrite !decide_False by (intros H; by apply (Qclt_not_le _ _ H)).
    rewrite (Qcabs_pos 0) by done. split; [ring|]. split; [done|]. split; [done|ring].
Qed.

(** X20.  The split of the "nndsvd" initialisation decomposes each
    singular vector into its positive and its negative part: at every
    position the vector is the difference of the two parts, both parts
    are non-negative, and one of them is zero; the parts have the length
    of the vector. *)
Theorem nndsvd_split_parts sqrt (x y : list Qc) (i : nat) :
  let q := nndsvd_split sqrt x y in
  (length (x_p q) = length x ∧ length (x_n q) = length x ∧
   vat x i = vat (x_p q) i - vat (x_n q) i ∧
   0 <= vat (x_p q) i ∧ 0 <= vat (x_n q) i ∧ vat (x_p q) i * vat (x_n q) i = 0) ∧
  (length (y_p q) = length y ∧ length (y_n q) = length y ∧
   vat y i = vat (y_p q) i - vat (y_n q) i ∧
   0 <= vat (y_p q) i ∧ 0 <= vat (y_n q) i ∧ vat (y_p q) i * vat (y_n q) i = 0).
Proof.
  assert (∀ v : list Qc,
    length (vmaximum v 0) = length v ∧ length (vabs (vminimum v 0)) = length v ∧
    vat v i = vat (vmaximum v 0) i - vat (vabs (vminimum v 0)) i ∧
    0 <= vat (vmaximum v 0) i ∧ 0 <= vat (vabs (vminimum v 0)) i ∧
    vat (vmaximum v 0) i * vat (vabs (vminimum v 0)) i = 0) as H.
  { intros v. unfold vmaximum, vminimum, vabs, vat.
    rewrite !length_map. split; [done|]. split; [done|].
    rewrite !list_lookup_fmap. destruct (v !! i) as [a|]; simpl.
    - apply fmax_fmin_parts.
    - split; [ring|]. split; [done|]. split; [done|]. ring. }
  simpl. split; apply H.
Qed.

Lemma vscale_vabs_nonneg c (u : list Qc) :
  0 <= c → Forall (λ x, 0 <= x) (vscale c (vabs u)).
Proof.
  intros Hc. unfold vscale, vabs. rewrite Forall_map, Forall_map.
  apply Forall_forall. intros a _. simpl.
  apply Qcmult_nonneg_nonneg; [done|apply Qcabs_nonneg].
Qed.

(** X21.  On rank-[k] factors of the right shapes, with at least one
    topic, the loop over the further components of the "nndsvd" branch
    leaves the leading component as it was set: at the end, column 0 of
    the document-topic array is √S_0 · |U[:, 0]| and row 0 of the
    topic-word array is √S_0 · |V[0, :]|, both without a negative entry
    when √S_0 is not negative, and the two arrays have the shapes of the
    factors. *)
Theorem nndsvd_leading_component sqrt randomized_svd X U Sv V n m k log :
  randomized_svd X k = (U, Sv, V) →
  svd_shaped (U, Sv, V) n m k → (1 ≤ k)%nat →
  ∃ pzd pwz log' s_0 u_0 v_0,
    nndsvd_init sqrt randomized_svd X k log = (Ok (pzd, pwz), log') ∧
    has_shape pzd n k ∧ has_shape pwz k m ∧
    Sv !! 0%nat = Some s_0 ∧ mcol U 0 = Some u_0 ∧ mrow V 0 = Some v_0 ∧
    mcol pzd 0 = Some (vscale (sqrt s_0) (vabs u_0)) ∧
    mrow pwz 0 = Some (vscale (sqrt s_0) (vabs v_0)) ∧
    (0 <= sqrt s_0 →
       Forall (λ x, 0 <= x) (vscale (sqrt s_0) (vabs u_0)) ∧
       Forall (λ x, 0 <= x) (vscale (sqrt s_0) (vabs v_0))).
Proof.
  intros Hsvd (HU & HS & HV) Hk. simpl in HU, HS, HV.
  destruct (lookup_lt_is_Some_2 Sv 0) as [s_0 Hs0]; [lia|].
  destruct (mcol_Some U n k 0 HU) as (u_0 & Hu0 & Hlu); [lia|].
  destruct (mrow_Some V k m 0 HV) as (v_0 & Hv0 & Hlv); [lia|].
  destruct (mset_col_spec (zeros2 n k) n k 0 (vscale (sqrt s_0) (vabs u_0))
              (has_shape_zeros2 n k)) as (pzd0 & Hset1 & Hsh1 & Hcol0);
    [lia|by rewrite vscale_length; unfold vabs; rewrite length_map|].
  destruct (mset_row_spec (zeros2 k m) k m 0 (vscale (sqrt s_0) (vabs v_0))
              (has_shape_zeros2 k m)) as (pwz0 & Hset2 & Hsh2 & Hrow0);
    [lia|by rewrite vscale_length; unfold vabs; rewrite length_map|].
  assert (wp (nndsvd_init sqrt randomized_svd X k)
            (λ r _, has_shape r.1 n k ∧ has_shape r.2 k m ∧
               mcol r.1 0 = Some (vscale (sqrt s_0) (vabs u_0)) ∧
               mrow r.2 0 = Some (vscale (sqrt s_0) (vabs v_0))) log)
    as ([pzd pwz] & log' & Hrun & Hp & Hw & Hc & Hr).
  { unfold nndsvd_init. rewrite Hsvd.
    replace (shape0 U) with n by (symmetry; apply HU).
    replace (shape1 U) with k by (symmetry; apply HU).
    replace (shape0 V) with k by (symmetry; apply HV).
    replace (shape1 V) with m by (symmetry; apply HV).
    apply wp_bind, wp_allocated. apply wp_bind, wp_allocated.
    apply wp_bind. eapply wp_index; [exact Hs0|].
    apply wp_bind. eapply wp_kopt; [exact Hu0|].
    apply wp_bind. eapply wp_kopt; [exact Hset1|].
    apply wp_bind. eapply wp_index; [exact Hs0|].
    apply wp_bind. eapply wp_kopt; [exact Hv0|].
    apply wp_bind. eapply wp_kopt; [exact Hset2|].
    eapply wp_mono.
    - apply (wp_for_in (λ (j : nat) (r : matrix * matrix) (_ : list event),
          has_shape r.1 n k ∧ has_shape r.2 k m ∧
          mcol r.1 0 = Some (vscale (sqrt s_0) (vabs u_0)) ∧
          mrow r.2 0 = Some (vscale (sqrt s_0) (vabs v_0)))).
      { split; [done|]. split; [done|]. simpl.
        rewrite Hcol0 by lia. rewrite Hrow0. by rewrite !decide_True by done. }
      intros j [pzd pwz] log' Hj (Hpzd & Hpwz & Hc & Hr). simpl in *.
      destruct (nndsvd_component_spec sqrt U V Sv n m k HU HS HV j pzd pwz log')
        as (pzd' & pwz' & Hrun & Hpzd' & Hpwz' & Hcol & Hrow); [lia|done..|].
      exists (pzd', pwz'), log'.
      split; [done|]. split; [done|]. split; [done|]. simpl.
      rewrite Hcol by lia. rewrite Hrow. by rewrite !decide_False by lia.
    - intros r log' H. exact H. }
  exists pzd, pwz, log', s_0, u_0, v_0. simpl in *.
  split; [done|]. split; [done|]. split; [done|]. split; [done|].
  split; [done|]. split; [done|]. split; [done|]. split; [done|].
  intros Hs. split; by apply vscale_vabs_nonneg.
Qed.

Lemma nndsvd_leading_component_witness :
  ∃ pzd pwz log' s_0 u_0 v_0,
    nndsvd_init ex_sqrt ex_svd ex_X 2 [] = (Ok (pzd, pwz), log') ∧
    has_shape pzd 2 2 ∧ has_shape pwz 2 2 ∧
    ex_S !! 0%nat = Some s_0 ∧ mcol ex_U 0 = Some u_0 ∧ mrow ex_V 0 = Some v_0 ∧
    mcol pzd 0 = Some (vscale (ex_sqrt s_0) (vabs u_0)) ∧
    mrow pwz 0 = Some (vscale (ex_sqrt s_0) (vabs v_0)) ∧
    (0 <= ex_sqrt s_0 →
       Forall (λ x, 0 <= x) (vscale (ex_sqrt s_0) (vabs u_0)) ∧
       Forall (λ x, 0 <= x) (vscale (ex_sqrt s_0) (vabs v_0))).
Proof.
  apply (nndsvd_leading_component ex_sqrt ex_svd ex_X ex_U ex_S ex_V 2 2 2 []).
  - reflexivity.
  - unfold svd_shaped. by_decide.
  - lia.
Defined.

(** ** The values of the constrained maximisation step *)

Section RefitAccumulateIndexed.

Variables (X_rows X_cols : list nat) (X_vals : list Qc).
Variables (n m k nnz : nat).
Hypothesis Hnnz : nnz = length X_vals.
Hypothesis Hentries : entries_in X_rows X_cols X_vals n m.

(** The accumulation loop of the constrained step with a property
    [J i zl] of the store that follows its progress. *)
Lemma refit_accumulate_indexed (J : nat → nat → arrays → Prop) σ :
  (∀ i zl σ, J i zl σ → refit_shaped σ n m k nnz) →
  (∀ i σ, (i < nnz)%nat → J i k σ → J (S i) 0%nat σ) →
  (∀ i zl σ d x, J i zl σ →
     X_rows !! i = Some d → X_vals !! i = Some x →
     (zl < k)%nat → J i (S zl) (refit_add σ zl d (x * at2 (p_z_given_wd σ) i zl))) →
  J 0%nat 0%nat σ →
  wp (for_range (length X_vals) (λ nz_idx,
        d <- index X_rows nz_idx ;;
        w <- index X_cols nz_idx ;;
        x <- index X_vals nz_idx ;;
        for_range k (λ z,
          p <- load2 PZWD nz_idx z ;;
          let s := x * p in
          iadd2 PZD d z s ;;;
          iadd1 NPDZ d s)))
     (λ _ σ', J nnz 0%nat σ') σ.
Proof.
  intros Hshape Hnext Hstep H0. destruct Hentries as (Hlr & Hlc & Hrows & Hcols).
  rewrite <- Hnnz.
  apply (wp_for_range (λ i, J i 0%nat)); [done|].
  intros nz σ1 Hnz H1.
  destruct (lookup_lt_is_Some_2 X_rows nz) as [d Hd]; [lia|].
  destruct (lookup_lt_is_Some_2 X_cols nz) as [w Hw]; [lia|].
  destruct (lookup_lt_is_Some_2 X_vals nz) as [x Hx]; [lia|].
  pose proof (Forall_lookup_1 _ _ _ _ Hrows Hd) as Hdn.
  apply wp_bind. eapply wp_index; [exact Hd|].
  apply wp_bind. eapply wp_index; [exact Hw|].
  apply wp_bind. eapply wp_index; [exact Hx|].
  eapply wp_mono.
  - apply (wp_for_range (λ zl, J nz zl)); [done|].
    intros z σ2 Hz H2. pose proof (Hshape _ _ σ2 H2) as Hsh2.
    apply wp_bind. eapply wp_load2.
    { simpl. eapply row_at2; [apply Hsh2|lia|done]. }
    cbv zeta. eapply wp_mono.
    { apply (refit_add_exec X_vals n k nnz Hnnz); [apply Hsh2|apply Hsh2|done..]. }
    intros _ σ3 ->. by apply Hstep.
  - intros [] σ2 H2. by apply Hnext.
Qed.

End RefitAccumulateIndexed.

Section RefitValues.

Variables (X_rows X_cols : list nat) (X_vals : list Qc).
Variables (n m k : nat).
Hypothesis Hentries : entries_in X_rows X_cols X_vals n m.

(** The constrained step in terms of the weights of the entries. *)
Lemma refit_m_step_values σ :
  refit_shaped σ n m k (length X_vals) →
  let P := p_z_given_wd σ in
  let nnz := length X_vals in
  ∃ σ', plsa_refit_m_step X_rows X_cols X_vals σ = (Ok tt, σ') ∧
    refit_shaped σ' n m k nnz ∧
    p_w_given_z σ' = p_w_given_z σ ∧ p_z_given_wd σ' = P ∧
    norm_pwz σ' = norm_pwz σ ∧
    (∀ d, (d < n)%nat →
       let R := map (doc_mass X_rows X_vals P nnz d) (seq 0 k) in
       row (p_z_given_d σ') d = scale_row (vsum R) R ∧ vat (norm_pdz σ') d = vsum R).
Proof.
  intros Hsh P nnz. pose proof Hsh as (Hpwz & Hpzd & Hpost & Hnd).
  set (mw := m_weight X_vals P).
  set (J := λ (i zl : nat) (σ1 : arrays),
    refit_shaped σ1 n m k nnz ∧ p_z_given_wd σ1 = P ∧
    p_w_given_z σ1 = p_w_given_z σ ∧ norm_pwz σ1 = norm_pwz σ ∧
    (∀ d z, (d < n)%nat → (z < k)%nat →
       at2 (p_z_given_d σ1) d z = doc_mass X_rows X_vals P i d z +
         (if decide ((z < zl)%nat ∧ X_rows !! i = Some d) then mw i z else 0)) ∧
    (∀ d, (d < n)%nat → vat (norm_pdz σ1) d = vsum (row (p_z_given_d σ1) d))).
  assert (wp (plsa_refit_m_step X_rows X_cols X_vals)
            (λ _ σ', ∃ σ1 b, J nnz 0%nat σ1 ∧ σ' = wr2 PZD b σ1 ∧ has_shape b n k ∧
               (∀ d, (d < n)%nat →
                  row b d = scale_row (vat (norm_pdz σ1) d) (row (p_z_given_d σ1) d))) σ)
    as ([] & σ' & Hrun & σ1 & b & HJ & -> & Hb & Hrb).
  { unfold plsa_refit_m_step.
    apply wp_bind, wp_shape1_of. simpl.
    replace (shape1 (p_z_given_wd σ)) with k by (symmetry; apply Hpost).
    apply wp_bind, wp_shape0_of. simpl.
    replace (shape0 (p_z_given_d σ)) with n by (symmetry; apply Hpzd).
    apply wp_bind, wp_fill2. apply wp_bind, wp_fill1. simpl.
    match goal with |- wp _ _ ?s => change s with (refit_zeroed σ) end.
    apply wp_bind. eapply wp_mono.
    { apply (refit_accumulate_indexed X_rows X_cols X_vals n m k nnz eq_refl Hentries J).
      - by intros i zl σ1 (? & _).
      - intros i σ1 Hi (Hsh1 & HP1 & Hw1 & Hnw1 & HcD & HsD).
        split; [done|]. split; [done|]. split; [done|]. split; [done|].
        split; [|done].
        intros d z Hd Hz. rewrite (HcD d z Hd Hz).
        unfold doc_mass. rewrite sum_upto_S.
        try (rewrite (decide_False (P := (z < 0)%nat ∧ _)) by lia).
        rewrite Qcplus_0_r. f_equal.
        destruct (decide (X_rows !! i = Some d)) as [E|E].
        * by rewrite decide_True by done.
        * by rewrite decide_False by (intros [_ ?]; done).
      - intros i zl σ1 d x (Hsh1 & HP1 & Hw1 & Hnw1 & HcD & HsD) Ed Ex Hzl.
        pose proof Hsh1 as (_ & Hpzd1 & _ & Hnd1).
        destruct Hentries as (_ & _ & Hrows & _).
        pose proof (Forall_lookup_1 _ _ _ _ Hrows Ed) as Hdn. simpl in Hdn.
        assert (x * at2 (p_z_given_wd σ1) i zl = mw i zl) as ->.
        { unfold mw, m_weight, vat. by rewrite Ex, HP1. }
        split; [by apply shaped_refit_add|]. split; [done|].
        split; [done|]. split; [done|]. simpl. split.
        + intros d' z Hd' Hz. rewrite (at2_madd _ n k) by done.
          destruct (decide (d' = d ∧ z = zl)) as [[-> ->]|Hne].
          * rewrite (HcD d zl Hdn Hzl).
            rewrite (decide_False (P := (zl < zl)%nat ∧ _)) by lia.
            rewrite (decide_True (P := (zl < S zl)%nat ∧ _)) by (split; [lia|done]).
            ring.
          * rewrite (HcD d' z Hd' Hz). f_equal.
            destruct (decide ((z < zl)%nat ∧ X_rows !! i = Some d')) as [[? ?]|Hn].
            -- by rewrite decide_True by (split; [lia|done]).
            -- rewrite decide_False; [done|]. intros [Hlt Hc].
               apply Hn. split; [|done].
               destruct (decide (z = zl)) as [->|]; [|lia].
               exfalso. apply Hne. split; [congruence|done].
        + intros d' Hd'. rewrite vat_vadd by lia. case_decide as E.
          * subst d'. rewrite (vsum_row_madd _ n k) by done. by rewrite HsD.
          * rewrite (row_madd _ n k), decide_False by done. by apply HsD.
      - split; [by apply shaped_refit_zeroed|]. split; [done|].
        split; [done|]. split; [done|]. simpl.
        rewrite (mfill_zeros _ _ _ Hpzd), !vfill_replicate. split.
        + intros d z _ _. rewrite at2_zeros2.
          try (rewrite (decide_False (P := (z < 0)%nat ∧ _)) by lia).
          unfold doc_mass, sum_upto, vsum. simpl. ring.
        + intros d Hd. unfold vat. rewrite lookup_replicate_2 by lia.
          by rewrite row_zeros2, vsum_replicate_0. }
    intros [] σ1 H1. simpl in H1 |- *.
    eapply wp_mono; [apply (refit_normalise n m k nnz); apply H1|].
    intros _ σ' (b & E & Hb & Hrb). by exists σ1, b. }
  destruct HJ as (Hsh1 & HP1 & Hw1 & Hnw1 & HcD & HsD).
  pose proof Hsh1 as (Hpwz1 & Hpzd1 & Hpost1 & Hnd1).
  exists (wr2 PZD b σ1). split; [done|]. split.
  { unfold refit_shaped. simpl. auto. }
  split; [done|]. split; [done|]. split; [done|].
  intros d Hd R. simpl.
  assert (row (p_z_given_d σ1) d = R) as HR.
  { apply (row_of_cells _ n k); [done..|]. intros z Hz.
    rewrite (HcD d z Hd Hz).
    try (rewrite (decide_False (P := (z < 0)%nat ∧ _)) by lia). ring. }
  rewrite Hrb, HsD, HR by done. done.
Qed.

End RefitValues.

(** X22.  On well-shaped arrays the constrained maximisation step computes
    the document side of the full maximisation step: from the same store,
    [plsa_refit_m_step] and [plsa_m_step] both end without a failure and
    leave the same document-topic array and the same per-document
    accumulator, while the constrained step leaves the topic-word array as
    it was. *)
Theorem refit_m_step_agrees X_rows X_cols X_vals n m k σ :
  shaped σ n m k (length X_vals) →
  entries_in X_rows X_cols X_vals n m →
  ∃ σ1 σ2,
    plsa_m_step X_rows X_cols X_vals σ = (Ok tt, σ1) ∧
    plsa_refit_m_step X_rows X_cols X_vals σ = (Ok tt, σ2) ∧
    p_z_given_d σ2 = p_z_given_d σ1 ∧ norm_pdz σ2 = norm_pdz σ1 ∧
    p_w_given_z σ2 = p_w_given_z σ.
Proof.
  intros Hsh Hent.
  destruct (m_step_values X_rows X_cols X_vals n m k Hent σ Hsh)
    as (σ1 & H1 & Hsh1 & _ & Hd1).
  destruct (refit_m_step_values X_rows X_cols X_vals n m k Hent σ
              (shaped_refit_shaped _ _ _ _ _ Hsh))
    as (σ2 & H2 & Hsh2 & Hw2 & _ & _ & Hd2).
  exists σ1, σ2. split; [done|]. split; [done|].
  destruct Hsh1 as (_ & Hp1 & _ & _ & Hn1). destruct Hsh2 as (_ & Hp2 & _ & Hn2).
  split; [|split; [|done]].
  - apply (matrix_ext _ _ n k); [done..|]. intros d Hd.
    destruct (Hd1 d Hd) as [-> _]. by destruct (Hd2 d Hd) as [-> _].
  - apply (vat_ext _ _ n); [done..|]. intros d Hd.
    destruct (Hd1 d Hd) as [_ ->]. by destruct (Hd2 d Hd) as [_ ->].
Qed.

Lemma refit_m_step_agrees_witness :
  ∃ σ1 σ2,
    plsa_m_step ex_rows ex_cols ex_vals ex_store = (Ok tt, σ1) ∧
    plsa_refit_m_step ex_rows ex_cols ex_vals ex_store = (Ok tt, σ2) ∧
    p_z_given_d σ2 = p_z_given_d σ1 ∧ norm_pdz σ2 = norm_pdz σ1 ∧
    p_w_given_z σ2 = p_w_given_z ex_store.
Proof.
  apply (refit_m_step_agrees ex_rows ex_cols ex_vals 2 2 2 ex_store); by_decide.
Defined.

(** ** The accumulators of the maximisation step *)

Lemma vsum_vadd (b : list Qc) i s :
  (i < length b)%nat → vsum (vadd b i s) = vsum b + s.
Proof.
  intros Hi. unfold vadd.
  destruct (lookup_lt_is_Some_2 b i Hi) as [x Hx].
  rewrite (vsum_insert b i x) by done. rewrite Hx. simpl. ring.
Qed.

(** X23.  On well-shaped arrays the maximisation step leaves two
    accumulators of the same total: the sum of the per-topic accumulator
    equals the sum of the per-document accumulator, every weight having
    been added once to each. *)
Theorem m_step_accumulators_balance X_rows X_cols X_vals n m k σ :
  shaped σ n m k (length X_vals) →
  entries_in X_rows X_cols X_vals n m →
  ∃ σ', plsa_m_step X_rows X_cols X_vals σ = (Ok tt, σ') ∧
    vsum (norm_pwz σ') = vsum (norm_pdz σ').
Proof.
  intros Hsh Hent.
  destruct (m_step_inv X_rows X_cols X_vals n m k _ eq_refl Hent
              (λ σ1, shaped σ1 n m k (length X_vals) ∧
                     vsum (norm_pwz σ1) = vsum (norm_pdz σ1)) σ Hsh)
    as ([] & σ' & Hrun & σ1 & a & b & [_ HJ] & -> & _).
  - by intros σ1 [? _].
  - intros σ1 nz d w x z [Hsh1 Hs] Ed _ _ Hz.
    destruct Hent as (_ & _ & Hrows & _).
    pose proof (Forall_lookup_1 _ _ _ _ Hrows Ed) as Hdn. simpl in Hdn.
    split; [by apply shaped_m_add|]. simpl.
    destruct Hsh1 as (_ & _ & _ & Hnw & Hnd).
    rewrite !vsum_vadd by lia. by rewrite Hs.
  - split; [by apply shaped_m_zeroed|]. simpl.
    by rewrite !vfill_replicate, !vsum_replicate_0.
  - by exists (wr2 PZD b (wr2 PWZ a σ1)).
Qed.

Lemma m_step_accumulators_balance_witness :
  ∃ σ', plsa_m_step ex_rows ex_cols ex_vals ex_store = (Ok tt, σ') ∧
    vsum (norm_pwz σ') = vsum (norm_pdz σ').
Proof.
  apply (m_step_accumulators_balance ex_rows ex_cols ex_vals 2 2 2 ex_store); by_decide.
Defined.

Lemma sum_upto_ext (f g : nat → Qc) n :
  (∀ i, (i < n)%nat → f i = g i) → sum_upto f n = sum_upto g n.
Proof.
  intros H. induction n as [|n IH]; [done|].
  rewrite !sum_upto_S, IH, H by (intros; auto with lia). done.
Qed.

Lemma sum_upto_zero n : sum_upto (λ _, 0) n = 0.
Proof. induction n as [|n IH]; [done|]. rewrite sum_upto_S, IH. ring. Qed.

Lemma sum_upto_plus (f g : nat → Qc) n :
  sum_upto (λ i, f i + g i) n = sum_upto f n + sum_upto g n.
Proof. induction n as [|n IH]; [done|]. rewrite !sum_upto_S, IH. ring. Qed.

Lemma sum_upto_scale c (f : nat → Qc) n :
  sum_upto (λ i, c * f i) n = c * sum_upto f n.
Proof.
  induction n as [|n IH]; [unfold sum_upto, vsum; simpl; ring|].
  rewrite !sum_upto_S, IH. ring.
Qed.

Lemma sum_upto_swap (f : nat → nat → Qc) a b :
  sum_upto (λ i, sum_upto (λ j, f i j) b) a =
  sum_upto (λ j, sum_upto (λ i, f i j) a) b.
Proof.
  induction a as [|a IH].
  - unfold sum_upto at 1. simpl. symmetry.
    rewrite (sum_upto_ext _ (λ _, 0)); [apply sum_upto_zero|done].
  - rewrite sum_upto_S, IH, <- sum_upto_plus.
    apply sum_upto_ext. intros j _. by rewrite sum_upto_S.
Qed.

Lemma vsum_row_cells a n m i :
  has_shape a n m → (i < n)%nat → vsum (row a i) = sum_upto (at2 a i) m.
Proof. intros Ha Hi. by rewrite (row_of_cells a n m i (at2 a i)). Qed.

(** X24.  When the posterior of every entry sums to 1 over the topics, as
    the expectation step leaves it for an entry with a positive
    normaliser, the per-document accumulator of the maximisation step
    holds for each document the sum of the values of its entries. *)
Theorem m_step_document_totals X_rows X_cols X_vals n m k σ :
  shaped σ n m k (length X_vals) →
  entries_in X_rows X_cols X_vals n m →
  Forall (λ r, vsum r = 1) (rowsOf (p_z_given_wd σ)) →
  ∃ σ', plsa_m_step X_rows X_cols X_vals σ = (Ok tt, σ') ∧
    ∀ d, (d < n)%nat →
      vat (norm_pdz σ') d =
      sum_upto (λ nz, if decide (X_rows !! nz = Some d) then vat X_vals nz else 0)
               (length X_vals).
Proof.
  intros Hsh Hent Hone.
  destruct (m_step_values X_rows X_cols X_vals n m k Hent σ Hsh)
    as (σ' & Hrun & _ & _ & Hd).
  exists σ'. split; [done|]. intros d Hdn. destruct (Hd d Hdn) as [_ ->].
  change (vsum (map (doc_mass X_rows X_vals (p_z_given_wd σ) (length X_vals) d) (seq 0 k)))
    with (sum_upto (doc_mass X_rows X_vals (p_z_given_wd σ) (length X_vals) d) k).
  unfold doc_mass. rewrite sum_upto_swap. apply sum_upto_ext. intros nz Hnz.
  case_decide as E; [|apply sum_upto_zero].
  unfold m_weight. rewrite sum_upto_scale.
  destruct Hsh as (_ & _ & Hpost & _).
  rewrite <- (vsum_row_cells _ (length X_vals) k) by done.
  destruct (lookup_lt_is_Some_2 (rowsOf (p_z_given_wd σ)) nz) as [r Hr].
  { destruct Hpost as (_ & -> & _). done. }
  unfold row. rewrite Hr. simpl.
  rewrite (Forall_lookup_1 _ _ _ _ Hone Hr). ring.
Qed.

Lemma m_step_document_totals_witness :
  ∃ σ', plsa_m_step ex2_rows ex2_cols ex2_vals ex2_store = (Ok tt, σ') ∧
    ∀ d, (d < 2)%nat →
      vat (norm_pdz σ') d =
      sum_upto (λ nz, if decide (ex2_rows !! nz = Some d) then vat ex2_vals nz else 0)
               (length ex2_vals).
Proof.
  apply (m_step_document_totals ex2_rows ex2_cols ex2_vals 2 2 2 ex2_store); by_decide.
Defined.

(** ** The estimator *)




(** X26.  The two measures of the estimator validate [topic_num] before
    they read what a fit stores, and alike.  Whatever the estimator, fitted
    or not, [coherence] and [log_lift] raise the [ValueError] of the type
    for a [topic_num] that is neither [None] nor an integer, and the
    [ValueError] of the range for an integer below 0 or not below the
    number of components, the number of components itself included.  On
    an estimator that was not fitted, [None] and an integer within the
    range raise [AttributeError] for [components_]. *)
Theorem measures_validate_topic mean_coherence coherence_of mean_log_lift log_lift_of
    (self : PLSA.t) (z n_words : Z) :
  PLSA.coherence mean_coherence coherence_of self TopicOther n_words =
    Raise topic_type_error ∧
  PLSA.log_lift mean_log_lift log_lift_of self TopicOther n_words =
    Raise topic_type_error ∧
  ((z < 0 ∨ Z.of_nat (PLSA.n_components self) ≤ z)%Z →
     PLSA.coherence mean_coherence coherence_of self (TopicInt z) n_words =
       Raise topic_range_error ∧
     PLSA.log_lift mean_log_lift log_lift_of self (TopicInt z) n_words =
       Raise topic_range_error) ∧
  (PLSA.components_ self = None →
     PLSA.coherence mean_coherence coherence_of self TopicNone n_words =
       Raise (AttributeError "components_") ∧
     PLSA.log_lift mean_log_lift log_lift_of self TopicNone n_words =
       Raise (AttributeError "components_") ∧
     ((0 ≤ z < Z.of_nat (PLSA.n_components self))%Z →
        PLSA.coherence mean_coherence coherence_of self (TopicInt z) n_words =
          Raise (AttributeError "components_") ∧
        PLSA.log_lift mean_log_lift log_lift_of self (TopicInt z) n_words =
          Raise (AttributeError "components_"))).
Proof.
  split; [done|]. split; [done|]. split.
  - intros Hz. unfold PLSA.coherence, PLSA.log_lift.
    rewrite !decide_False by lia. done.
  - intros Hc. unfold PLSA.coherence, PLSA.log_lift. rewrite Hc. simpl.
    split; [done|]. split; [done|]. intros Hz.
    rewrite !decide_True by lia. done.
Qed.

Lemma measures_validate_topic_witness :
  PLSA.coherence ex_mean ex_one ex_estimator (TopicInt 10) 20 =
    Raise topic_range_error ∧
  PLSA.log_lift ex_mean ex_one ex_estimator (TopicInt 10) 20 =
    Raise topic_range_error ∧
  PLSA.coherence ex_mean ex_one ex_estimator TopicNone 20 =
    Raise (AttributeError "components_").
Proof.
  pose proof (measures_validate_topic ex_mean ex_one ex_mean ex_one ex_estimator 10 20)
    as (_ & _ & Hrange & Hattr).
  destruct Hrange as [H1 H2]; [right; simpl; lia|].
  destruct (Hattr eq_refl) as (H3 & _).
  split; [exact H1|]. split; [exact H2|exact H3].
Defined.

(** ** Rows of the maximisation step *)

Lemma sum_upto_select (o : option nat) (a : Qc) n j :
  o = Some j → (j < n)%nat →
  sum_upto (λ i, if decide (o = Some i) then a else 0) n = a.
Proof.
  intros -> Hj. induction n as [|n IH]; [lia|]. rewrite sum_upto_S.
  destruct (decide (j = n)) as [->|Hne].
  - rewrite decide_True by done.
    rewrite (sum_upto_ext _ (λ _, 0)).
    + rewrite sum_upto_zero. ring.
    + intros i Hi. rewrite decide_False; [done|]. intros [=]. lia.
  - rewrite IH by lia. rewrite decide_False; [ring|]. intros [=]. done.
Qed.

(** The accumulators of [m_step_values] as masses: the weights of the
    words under a topic add up to the mass of the topic, and the weights
    of the topics in a document to the mass of the document. *)
Lemma word_mass_total X_rows X_cols X_vals n m P z :
  entries_in X_rows X_cols X_vals n m →
  vsum (map (word_mass X_cols X_vals P (length X_vals) z) (seq 0 m)) =
  topic_mass X_vals P z.
Proof.
  intros (_ & Hlc & _ & Hcols).
  change (vsum (map (word_mass X_cols X_vals P (length X_vals) z) (seq 0 m)))
    with (sum_upto (word_mass X_cols X_vals P (length X_vals) z) m).
  unfold word_mass, topic_mass. rewrite sum_upto_swap.
  apply sum_upto_ext. intros nz Hnz.
  destruct (lookup_lt_is_Some_2 X_cols nz) as [w Hw]; [lia|].
  apply (sum_upto_select _ _ _ w); [done|].
  apply (Forall_lookup_1 _ _ _ _ Hcols Hw).
Qed.

Lemma doc_mass_total X_rows X_vals P k d :
  vsum (map (doc_mass X_rows X_vals P (length X_vals) d) (seq 0 k)) =
  document_mass X_rows X_vals P k d.
Proof.
  change (vsum (map (doc_mass X_rows X_vals P (length X_vals) d) (seq 0 k)))
    with (sum_upto (doc_mass X_rows X_vals P (length X_vals) d) k).
  unfold doc_mass, document_mass. rewrite sum_upto_swap.
  apply sum_upto_ext. intros nz Hnz.
  case_decide; [done|apply sum_upto_zero].
Qed.

Lemma scale_row_cases c r :
  Forall (λ x, 0 <= x) r → c = vsum r →
  0 <= c ∧ (0 < c → distribution (scale_row c r)) ∧
  (c <= 0 → all_zero (scale_row c r)).
Proof.
  intros Hr Hc. split; [rewrite Hc; by apply vsum_nonneg|].
  destruct (scale_row_distribution c r Hr Hc) as [Hd|[Hz Hn]].
  - split; [done|]. intros Hle. unfold scale_row.
    rewrite decide_False by (by apply Qcle_not_lt).
    apply vsum_nonneg_0; [done|]. rewrite <- Hc.
    apply Qcle_antisym; [done|]. rewrite Hc. by apply vsum_nonneg.
  - split; [by intros ?|done].
Qed.

(** C3, amended.  On well-shaped arrays, with non-negative entry values
    and non-negative posteriors, the maximisation step ends without a
    failure, and every row of the two arrays of the model is then settled
    by its accumulator.  The accumulator of topic [z] ends as the mass
    that the entries give to [z], the sum over the entries of
    [x · P(z|w,d)], and the accumulator of document [d] as the mass that
    the entries of [d] give to all topics; neither is negative.  The row
    of a topic or of a document that received mass (its accumulator is
    positive) is a probability distribution: it has no negative entry and
    sums to 1.  The row of one that received none is not divided and is
    identically zero: the arrays are row-stochastic on the topics and the
    documents that received mass, and only there. *)
Theorem m_step_rows X_rows X_cols X_vals n m k σ :
  shaped σ n m k (length X_vals) →
  entries_in X_rows X_cols X_vals n m →
  Forall (λ x, 0 <= x) X_vals →
  nonneg (p_z_given_wd σ) →
  ∃ σ', plsa_m_step X_rows X_cols X_vals σ = (Ok tt, σ') ∧
    has_shape (p_w_given_z σ') k m ∧ has_shape (p_z_given_d σ') n k ∧
    (∀ z, (z < k)%nat →
       vat (norm_pwz σ') z = topic_mass X_vals (p_z_given_wd σ) z ∧
       0 <= vat (norm_pwz σ') z ∧
       (0 < vat (norm_pwz σ') z → distribution (row (p_w_given_z σ') z)) ∧
       (vat (norm_pwz σ') z <= 0 → all_zero (row (p_w_given_z σ') z))) ∧
    (∀ d, (d < n)%nat →
       vat (norm_pdz σ') d = document_mass X_rows X_vals (p_z_given_wd σ) k d ∧
       0 <= vat (norm_pdz σ') d ∧
       (0 < vat (norm_pdz σ') d → distribution (row (p_z_given_d σ') d)) ∧
       (vat (norm_pdz σ') d <= 0 → all_zero (row (p_z_given_d σ') d))).
Proof.
  intros Hsh Hent Hx Hpost.
  destruct (m_step_values X_rows X_cols X_vals n m k Hent σ Hsh)
    as (σ' & Hrun & Hsh' & Hw & Hd).
  exists σ'. split; [done|].
  destruct Hsh' as (Hpwz & Hpzd & _). split; [done|]. split; [done|]. split.
  - intros z Hz. destruct (Hw z Hz) as [Hrow Hacc].
    rewrite Hrow, Hacc. split; [by eapply word_mass_total|].
    apply scale_row_cases; [|done].
    apply map_seq_nonneg. intros w _. unfold word_mass.
    apply sum_upto_nonneg. intros nz _. case_decide; [|done].
    by apply m_weight_nonneg.
  - intros d Hdn. destruct (Hd d Hdn) as [Hrow Hacc].
    rewrite Hrow, Hacc. split; [apply doc_mass_total|].
    apply scale_row_cases; [|done].
    apply map_seq_nonneg. intros z _. unfold doc_mass.
    apply sum_upto_nonneg. intros nz _. case_decide; [|done].
    by apply m_weight_nonneg.
Qed.

Lemma m_step_rows_witness :
  shaped ex2_store 2 2 2 (length ex2_vals) ∧
  entries_in ex2_rows ex2_cols ex2_vals 2 2 ∧
  Forall (λ x, 0 <= x) ex2_vals ∧
  nonneg (p_z_given_wd ex2_store) ∧
  ∃ σ', plsa_m_step ex2_rows ex2_cols ex2_vals ex2_store = (Ok tt, σ') ∧
    has_shape (p_w_given_z σ') 2 2 ∧ has_shape (p_z_given_d σ') 2 2 ∧
    (∀ z, (z < 2)%nat →
       vat (norm_pwz σ') z = topic_mass ex2_vals (p_z_given_wd ex2_store) z ∧
       0 <= vat (norm_pwz σ') z ∧
       (0 < vat (norm_pwz σ') z → distribution (row (p_w_given_z σ') z)) ∧
       (vat (norm_pwz σ') z <= 0 → all_zero (row (p_w_given_z σ') z))) ∧
    (∀ d, (d < 2)%nat →
       vat (norm_pdz σ') d =
         document_mass ex2_rows ex2_vals (p_z_given_wd ex2_store) 2 d ∧
       0 <= vat (norm_pdz σ') d ∧
       (0 < vat (norm_pdz σ') d → distribution (row (p_z_given_d σ') d)) ∧
       (vat (norm_pdz σ') d <= 0 → all_zero (row (p_z_given_d σ') d))).
Proof.
  split; [by_decide|]. split; [by_decide|]. split; [by_decide|]. split; [by_decide|].
  apply (m_step_rows ex2_rows ex2_cols ex2_vals 2 2 2 ex2_store).
  - by_decide.
  - by_decide.
  - by_decide.
  - by_decide.
Defined.
